(** * brig: versioned object store and chunked compression writer

    A shallow embedding of two parts of the repository:
    - [store] package: the [FS] methods [NextID], [loadNode], [NodeByHash],
      [StageNode], [LastCheckpoint], [History], [StageCheckpoint],
      [SubmitCommit], [ResolveRef], [SaveRef] and [Head];
    - [compress] package: the [Writer] methods [flushBuffer],
      [writeHeaderIfNeeded], [ReadFrom], [Write], [Close] and [NewWriter].

    Go values are modelled as follows: [[]byte] is [list byte], a nil slice
    returned by a lookup is [None], [uint64]/[int64] are [Z] with the
    wrap-around written out, a Go [(T, error)] pair is a [result T], and a
    method that mutates the store returns the new store next to its result. *)

From Stdlib Require Import ZArith List String Ascii Lia Permutation Sorted Bool.
From Stdlib.Strings Require Import Byte.
From stdpp Require Import base option gmap list strings sorting.

Set Default Proof Using "Type".

(** ** Bytes and fixed-width integers *)

Abbreviation bytes := (list byte).

#[global] Instance byte_eq_decision : EqDecision byte := Byte.byte_eq_dec.

Definition Z_of_byte (b : byte) : Z := Z.of_N (Byte.to_N b).

(** Go's conversion [byte(v)]: the low eight bits. *)
Definition byte_of_Z (z : Z) : byte :=
  match Byte.of_N (Z.to_N (z mod 256)) with
  | Some b => b
  | None => "000"%byte
  end.

(** [uint64] arithmetic wraps modulo 2^64. *)
Definition wrap_u64 (z : Z) : Z := z mod 2 ^ 64.

(** [int64] arithmetic wraps into [-2^63, 2^63). *)
Definition wrap_i64 (z : Z) : Z := (z + 2 ^ 63) mod 2 ^ 64 - 2 ^ 63.

(** [binary.BigEndian.PutUint64(buf, v)] on a fresh 8-byte buffer. *)
Definition PutUint64 (v : Z) : bytes :=
  [ byte_of_Z (Z.shiftr v 56); byte_of_Z (Z.shiftr v 48);
    byte_of_Z (Z.shiftr v 40); byte_of_Z (Z.shiftr v 32);
    byte_of_Z (Z.shiftr v 24); byte_of_Z (Z.shiftr v 16);
    byte_of_Z (Z.shiftr v 8);  byte_of_Z v ].

(** [binary.BigEndian.Uint64(b)]: reads [b[0..7]]; a slice shorter than
    eight bytes makes the bounds check fail (a panic), here [None]. *)
Definition Uint64 (b : bytes) : option Z :=
  match b with
  | b0 :: b1 :: b2 :: b3 :: b4 :: b5 :: b6 :: b7 :: _ =>
      Some (Z.lor (Z_of_byte b7)
           (Z.lor (Z.shiftl (Z_of_byte b6) 8)
           (Z.lor (Z.shiftl (Z_of_byte b5) 16)
           (Z.lor (Z.shiftl (Z_of_byte b4) 24)
           (Z.lor (Z.shiftl (Z_of_byte b3) 32)
           (Z.lor (Z.shiftl (Z_of_byte b2) 40)
           (Z.lor (Z.shiftl (Z_of_byte b1) 48)
                  (Z.shiftl (Z_of_byte b0) 56))))))))
  | _ => None
  end.

(** [binary.BigEndian.PutUint32] and [PutUint16], same convention. *)
Definition PutUint32 (v : Z) : bytes :=
  [ byte_of_Z (Z.shiftr v 24); byte_of_Z (Z.shiftr v 16);
    byte_of_Z (Z.shiftr v 8);  byte_of_Z v ].

Definition PutUint16 (v : Z) : bytes :=
  [ byte_of_Z (Z.shiftr v 8);  byte_of_Z v ].

(** ** Errors and results *)

Inductive error : Type :=
  | EOF                                   (* io.EOF *)
  | ErrNoChange                           (* store.ErrNoChange *)
  | ErrBadNode                            (* store.ErrBadNode *)
  | ErrBadNodeType (typ : Z)              (* store.ErrBadNodeType *)
  | ErrNoHashFound (b58hash where_ : string)
  | ErrorF (msg : string)                 (* fmt.Errorf(msg) *)
  | ErrExternal (who : string) (code : Z) (* an error made by a collaborator *).

(** The outcome of a Go call returning [(T, error)]; [Panic] is a run-time
    panic (an index out of range). *)
Inductive result (A : Type) : Type :=
  | Ok (a : A)
  | Err (e : error)
  | Panic.

Arguments Ok {A} a.
Arguments Err {A} e.
Arguments Panic {A}.

Definition rbind {A B : Type} (r : result A) (k : A → result B) : result B :=
  match r with
  | Ok a => k a
  | Err e => Err e
  | Panic => Panic
  end.

Notation "'let!' x ':=' c 'in' k" := (rbind c (fun x => k))
  (at level 10, x name, c at level 100, k at level 200,
   format "'[v' 'let!'  x  :=  c  'in'  '/' k ']'").

Definition is_Ok {A : Type} (r : result A) : Prop := ∃ a, r = Ok a.

(** ** Strings: the pieces of Go's [strings], [strconv] and [path] used *)

Definition slash : ascii := "/"%char.

(** [strings.Split(s, "/")]: always at least one component, empty
    components are kept. *)
Fixpoint Split (s : string) : list string :=
  match s with
  | EmptyString => [EmptyString]
  | String c s' =>
      if Ascii.eqb c slash then EmptyString :: Split s'
      else match Split s' with
           | [] => [String c EmptyString]
           | x :: xs => String c x :: xs
           end
  end.

(** [strings.Join(elems, "/")]. *)
Fixpoint JoinSlash (elems : list string) : string :=
  match elems with
  | [] => EmptyString
  | [x] => x
  | x :: xs => String.append x (String slash (JoinSlash xs))
  end.

(** [strings.HasSuffix]. *)
Definition HasSuffix (s suffix : string) : bool :=
  let n := String.length s in
  let m := String.length suffix in
  (m <=? n)%nat && String.eqb (substring (n - m) m s) suffix.

(** [strings.ToLower] on strings of ASCII characters: the letters [A] to
    [Z] become [a] to [z], every other character stays. Go maps the
    upper-case letters beyond ASCII as well; that part is not modelled, so
    properties of [ToLower] at a name that is not a literal are stated for
    ASCII names. *)
Definition lower_ascii (c : ascii) : ascii :=
  let n := N_of_ascii c in
  if ((65 <=? n) && (n <=? 90))%N then ascii_of_N (n + 32) else c.

Fixpoint ToLower (s : string) : string :=
  match s with
  | EmptyString => EmptyString
  | String c s' => String (lower_ascii c) (ToLower s')
  end.

(** [path.Clean]: drop empty and [.] elements, resolve [..] against the
    element before it, keep a leading slash, and return [.] for an empty
    result. [stack] holds the kept elements, last one first. *)
Fixpoint clean_elems (rooted : bool) (elems stack : list string) : list string :=
  match elems with
  | [] => rev stack
  | e :: rest =>
      if String.eqb e "" || String.eqb e "." then clean_elems rooted rest stack
      else if String.eqb e ".." then
        match stack with
        | top :: stack' =>
            if String.eqb top ".." then clean_elems rooted rest (e :: stack)
            else clean_elems rooted rest stack'
        | [] =>
            if rooted then clean_elems rooted rest stack
            else clean_elems rooted rest (e :: stack)
        end
      else clean_elems rooted rest (e :: stack)
  end.

Definition path_Clean (p : string) : string :=
  let rooted := match p with String c _ => Ascii.eqb c slash | _ => false end in
  let body := JoinSlash (clean_elems rooted (Split p) []) in
  let out := if rooted then String slash body else body in
  if String.eqb out "" then "."%string else out.

(** [path.Join]: empty elements are ignored, the rest is joined with
    slashes and cleaned; no non-empty element gives the empty string. *)
Definition path_Join (elems : list string) : string :=
  match filter (λ e, e ≠ EmptyString) elems with
  | [] => EmptyString
  | es => path_Clean (JoinSlash es)
  end.

Definition hex_digit (d : Z) : ascii :=
  nth (Z.to_nat d) (list_ascii_of_string "0123456789abcdef") "0"%char.

Fixpoint hex_digits (fuel : nat) (x : Z) (acc : string) : string :=
  match fuel with
  | O => acc
  | S fuel' =>
      let acc' := String (hex_digit (x mod 16)) acc in
      if (x / 16 =? 0)%Z then acc' else hex_digits fuel' (x / 16) acc'
  end.

(** [strconv.FormatUint(x, 16)] for a [uint64]: lower-case digits, no
    leading zero; sixteen digits always suffice. *)
Definition FormatUint16 (x : Z) : string := hex_digits 16 x EmptyString.

Definition hex_value (c : ascii) : option Z :=
  let n := Z.of_N (N_of_ascii c) in
  if ((48 <=? n) && (n <=? 57))%Z then Some (n - 48)%Z
  else if ((97 <=? n) && (n <=? 102))%Z then Some (n - 87)%Z
  else if ((65 <=? n) && (n <=? 70))%Z then Some (n - 55)%Z
  else None.

Definition ErrSyntax : error := ErrExternal "strconv" 1.
Definition ErrRange : error := ErrExternal "strconv" 2.

Fixpoint parse_hex (s : string) (acc : Z) : result Z :=
  match s with
  | EmptyString => Ok acc
  | String c s' =>
      match hex_value c with
      | None => Err ErrSyntax
      | Some d =>
          let acc' := (acc * 16 + d)%Z in
          if (2 ^ 64 <=? acc')%Z then Err ErrRange else parse_hex s' acc'
      end
  end.

(** [strconv.ParseUint(s, 16, 64)]. *)
Definition ParseUint16 (s : string) : result Z :=
  match s with
  | EmptyString => Err ErrSyntax
  | _ => parse_hex s 0
  end.

Example FormatUint16_255 : FormatUint16 255 = "ff"%string.
Proof. reflexivity. Qed.

Example FormatUint16_0 : FormatUint16 0 = "0"%string.
Proof. reflexivity. Qed.

Example ParseUint16_1F : ParseUint16 "1F" = Ok 31%Z.
Proof. reflexivity. Qed.

Example path_Join_stage :
  path_Join ["stage/tree"; "/a/../b//c.txt"]%string = "stage/tree/b/c.txt"%string.
Proof. reflexivity. Qed.

Example Split_rooted : Split "/a/b" = [""; "a"; "b"]%string.
Proof. reflexivity. Qed.

(** ** The bucketed key-value store *)

(** Modelled from the spec: the [KV] and [Bucket] interfaces ([Bucket(path)],
    [Get], [Put], [Last], [Foreach]) are declared outside the files at hand.
    A store maps a bucket path to the bucket's entries; a bucket that was
    never written is empty, so that opening a bucket does not change what
    any bucket holds. [Get] of a missing key yields nil ([None]); [Last]
    yields the value under the highest key, nil for an empty bucket;
    [Foreach] visits the entries in ascending key order. Any operation can
    fail with an I/O error: [kv_fault] says which ones do, and a failed [Put]
    leaves the store as it was. *)
Inductive KVOp : Type :=
  | OpBucket (path : list string)
  | OpGet (path : list string) (key : string)
  | OpPut (path : list string) (key : string)
  | OpLast (path : list string)
  | OpForeach (path : list string).

Record KV : Type := mkKV {
  kv_data : gmap (list string) (gmap string bytes);
  kv_fault : KVOp → option error
}.

(** A bucket handle names its bucket by path. *)
Abbreviation Bucket := (list string).

Definition faulty {A : Type} (kv : KV) (op : KVOp) (r : result A) : result A :=
  match kv_fault kv op with
  | Some e => Err e
  | None => r
  end.

(** The entries a bucket holds. *)
Definition bkt_data (kv : KV) (bkt : Bucket) : gmap string bytes :=
  default ∅ (kv_data kv !! bkt).

Definition key_le (a b : string * bytes) : Prop := String.leb a.1 b.1 = true.

#[global] Instance key_le_dec a b : Decision (key_le a b).
Proof. unfold key_le. apply _. Defined.

(** The entries of a bucket in ascending key order. *)
Definition bkt_entries (kv : KV) (bkt : Bucket) : list (string * bytes) :=
  merge_sort key_le (map_to_list (bkt_data kv bkt)).

Definition kv_Bucket (kv : KV) (path : list string) : result Bucket :=
  faulty kv (OpBucket path) (Ok path).

Definition bkt_Get (kv : KV) (bkt : Bucket) (key : string) : result (option bytes) :=
  faulty kv (OpGet bkt key) (Ok (bkt_data kv bkt !! key)).

Definition bkt_Put (kv : KV) (bkt : Bucket) (key : string) (value : bytes)
  : KV * result unit :=
  match kv_fault kv (OpPut bkt key) with
  | Some e => (kv, Err e)
  | None =>
      (mkKV (<[bkt := <[key := value]> (bkt_data kv bkt)]> (kv_data kv)) (kv_fault kv),
       Ok tt)
  end.

Definition bkt_Last (kv : KV) (bkt : Bucket) : result (option bytes) :=
  faulty kv (OpLast bkt) (Ok (snd <$> last (bkt_entries kv bkt))).

(** [Foreach(fn)]: [fn] is a closure over variables of the caller, whose
    values are threaded as [s]; the first error stops the iteration. *)
Fixpoint foreach_entries {S : Type} (fn : string → bytes → S → S * result unit)
    (entries : list (string * bytes)) (s : S) : S * result unit :=
  match entries with
  | [] => (s, Ok tt)
  | (k, v) :: rest =>
      match fn k v s with
      | (s', Ok _) => foreach_entries fn rest s'
      | (s', Err e) => (s', Err e)
      | (s', Panic) => (s', Panic)
      end
  end.

Definition bkt_Foreach {S : Type} (kv : KV) (bkt : Bucket)
    (fn : string → bytes → S → S * result unit) (s : S) : S * result unit :=
  match kv_fault kv (OpForeach bkt) with
  | Some e => (s, Err e)
  | None => foreach_entries fn (bkt_entries kv bkt) s
  end.

(** A store on which no operation fails. *)
Definition no_fault : KVOp → option error := λ _, None.

Definition empty_kv : KV := mkKV ∅ no_fault.

(** * Package [store] *)

Module Store.

Inductive NodeType : Type := NodeTypeFile | NodeTypeDirectory | NodeTypeCommit.

#[global] Instance NodeType_eq_dec : EqDecision NodeType.
Proof. solve_decision. Defined.

Record CheckpointLink : Type := mkCheckpointLink { IDLink : Z; Index : Z }.

Inductive ChangeType : Type :=
  ChangeAdd | ChangeModify | ChangeRemove | ChangeMove.

Record Checkpoint : Type := mkCheckpoint {
  ckp_idLink : Z;
  ckp_index : Z;
  ckp_hash : bytes;
  ckp_change : ChangeType;
  ckp_author : string
}.

(** The [wire.Checkpoint] message, with its getters as projections. *)
Record WireCheckpoint : Type := mkWireCheckpoint {
  GetIdLink : Z;
  GetIndex : Z;
  GetHash : bytes;
  GetChange : Z;
  GetAuthor : string
}.

(** A node as [FS] sees it through the [Node] interface: each field is what
    the method of that name returns for this node. [Parent()] yields the
    parent node, nil at the root, or an error; the chain of parents of a
    node value is finite. The types behind the interface are declared
    elsewhere: where [Parent()] gets the parent from, the handle's cache or
    the store, is not modelled, the field holds the node it returns. *)
#[local] Unset Elimination Schemes.
Inductive Node : Type := mkNode {
  GetType : NodeType;
  Name : string;
  Hash : bytes;
  nodePath : string;
  (* ToProto() followed by proto.Marshal *)
  Marshal : result bytes;
  Parent : result (option Node);
  (* Directory: child name to child hash *)
  Children : list (string * bytes);
  (* Commit *)
  Root : bytes;
  changeset : list CheckpointLink
}.
#[local] Set Elimination Schemes.

Definition set_changeset (cm : Node) (cs : list CheckpointLink) : Node :=
  mkNode (GetType cm) (Name cm) (Hash cm) (nodePath cm) (Marshal cm)
         (Parent cm) (Children cm) (Root cm) cs.

(** The chain [n, n.Parent(), n.Parent().Parent(), ...] as far as
    [Parent()] succeeds with a node. *)
Fixpoint parent_chain (n : Node) : list Node :=
  n :: match Parent n with
       | Ok (Some p) => parent_chain p
       | _ => []
       end.

(** The file system handle. Modelled from the spec: the path trie
    ([util/trie]) is declared elsewhere; [fs_root] maps a path to the data
    of the trie node at that path, and [fs_index] maps a base58 hash to the
    path of the trie node it points to, so that two index entries can share
    one trie node. *)
Record FS : Type := mkFS {
  fs_kv : KV;
  fs_root : gmap string Node;
  fs_index : gmap string string
}.

Definition set_kv (fs : FS) (kv : KV) : FS := mkFS kv (fs_root fs) (fs_index fs).

(** [fs.index[b58] = fs.root.InsertWithData(path, nd)] *)
Definition index_insert (fs : FS) (b58 path : string) (nd : Node) : FS :=
  mkFS (fs_kv fs) (<[path := nd]> (fs_root fs)) (<[b58 := path]> (fs_index fs)).

Definition NewFilesystem (kv : KV) : FS := mkFS kv ∅ ∅.

(** Bucket paths, as the code spells them. *)
Definition stats_bucket : list string := ["stats"]%string.
Definition refs_bucket : list string := ["refs"]%string.
Definition objects_bucket : list string := ["objects"]%string.
Definition stage_objects_bucket : list string := ["stage/objects"]%string.
Definition stage_checkpoints_bucket : list string := ["stage"; "checkpoints"]%string.

Definition appendDot (path : string) : string :=
  if HasSuffix path "/" then String.append path "."
  else String.append path "/.".

(** Modelled from the spec: [putPath] is declared elsewhere; it does the
    hierarchical write of the storage layout: the last element of the
    slash-separated path is the key, the elements before it name the
    bucket. *)
Definition putPath (kv : KV) (path : string) (data : bytes) : KV * result unit :=
  let elems := Split path in
  match kv_Bucket kv (removelast elems) with
  | Ok bkt => bkt_Put kv bkt (List.last elems EmptyString) data
  | Err e => (kv, Err e)
  | Panic => (kv, Panic)
  end.

(** Modelled from the spec: the [sort.Interface] of [History] is declared
    elsewhere; checkpoints are ordered by [index], ascending. *)
Definition History_le (a b : Checkpoint) : Prop := (ckp_index a ≤ ckp_index b)%Z.

#[global] Instance History_le_dec a b : Decision (History_le a b).
Proof. unfold History_le. apply _. Defined.

(** [sort.Sort(&history)]. *)
Definition sort_History (h : list Checkpoint) : list Checkpoint :=
  merge_sort History_le h.

Section Filesystem.

(** Collaborators of the package that live outside the files at hand: the
    base58 rendering of a hash, [multihash.Cast], the protobuf codec of
    nodes and of checkpoints. *)
Variable B58String : bytes → string.
Variable multihash_Cast : option bytes → result bytes.
Variable WireNode : Type.
Variable proto_Unmarshal : bytes → result WireNode.
Variable wire_GetType : WireNode → Z.
Variables NodeType_FILE NodeType_DIRECTORY NodeType_COMMIT : Z.
Variable FromProto : NodeType → WireNode → result Node.
Variable ckp_ToProto : Checkpoint → result WireCheckpoint.
Variable ckp_Marshal : WireCheckpoint → result bytes.
Variable ckp_Unmarshal : option bytes → result Checkpoint.

Definition unmarshalNode (data : bytes) : result Node :=
  let! pnd := proto_Unmarshal data in
  let typ := wire_GetType pnd in
  let! kind :=
    (if (typ =? NodeType_FILE)%Z then Ok NodeTypeFile
     else if (typ =? NodeType_DIRECTORY)%Z then Ok NodeTypeDirectory
     else if (typ =? NodeType_COMMIT)%Z then Ok NodeTypeCommit
     else Err (ErrBadNodeType typ)) in
  FromProto kind pnd.

(** ** Common node handling *)

Definition NextID (kv : KV) : KV * result Z :=
  match kv_Bucket kv stats_bucket with
  | Err e => (kv, Err e)
  | Panic => (kv, Panic)
  | Ok bkt =>
      match bkt_Get kv bkt "node-count" with
      | Err e => (kv, Err e)
      | Panic => (kv, Panic)
      | Ok nodeCount =>
          (* nodeCount might be nil on startup *)
          let cnt :=
            match nodeCount with
            | None => Some 1%Z
            | Some b => (λ c, wrap_u64 (c + 1)) <$> Uint64 b
            end in
          match cnt with
          | None => (kv, Panic)
          | Some cnt =>
              let cntBuf := PutUint64 cnt in
              match bkt_Put kv bkt "node-count" cntBuf with
              | (kv', Ok _) => (kv', Ok cnt)
              | (kv', _) => (kv', Ok 0%Z)
              end
          end
      end
  end.

(** The loop of [loadNode] over [loadableBuckets]: the first bucket holding
    the key wins. *)
Fixpoint loadNode_probe (kv : KV) (b58hash : string) (buckets : list (list string))
  : result (option bytes) :=
  match buckets with
  | [] => Ok None
  | bucketPath :: rest =>
      let! bkt := kv_Bucket kv bucketPath in
      let! data := bkt_Get kv bkt b58hash in
      match data with
      | Some d => Ok (Some d)
      | None => loadNode_probe kv b58hash rest
      end
  end.

Definition loadNode (kv : KV) (hash : bytes) : result Node :=
  let b58hash := B58String hash in
  let! data := loadNode_probe kv b58hash [objects_bucket; stage_objects_bucket] in
  match data with
  | None => Err (ErrNoHashFound b58hash "objects and stage/objects")
  | Some d => unmarshalNode d
  end.

(** [NodeByHash]. [nodePath(nd)] is declared elsewhere and is taken as the
    path the node carries; the parent directories that its calls of
    [Parent()] may load into the cache on the way are not modelled: after a
    miss the handle is given with the entry of the loaded node only. *)
Definition NodeByHash (fs : FS) (hash : bytes) : FS * result Node :=
  let b58Hash := B58String hash in
  match fs_index fs !! b58Hash ≫= (λ p, fs_root fs !! p) with
  | Some nd => (fs, Ok nd)
  | None =>
      match loadNode (fs_kv fs) hash with
      | Ok nd => (index_insert fs b58Hash (nodePath nd) nd, Ok nd)
      | Err e => (fs, Err e)
      | Panic => (fs, Panic)
      end
  end.

(** [StageNode]: one call per node of the parent chain. *)
Fixpoint StageNode (fs : FS) (nd : Node) : FS * result unit :=
  if decide (GetType nd = NodeTypeCommit)
  then (fs, Err (ErrorF "Please use SubmitCommit() for commits."))
  else
    match kv_Bucket (fs_kv fs) stage_objects_bucket with
    | Err e => (fs, Err e)
    | Panic => (fs, Panic)
    | Ok bkt =>
        match Marshal nd with
        | Err e => (fs, Err e)
        | Panic => (fs, Panic)
        | Ok data =>
            let b58Hash := B58String (Hash nd) in
            match bkt_Put (fs_kv fs) bkt b58Hash data with
            | (kv1, Err e) => (set_kv fs kv1, Err e)
            | (kv1, Panic) => (set_kv fs kv1, Panic)
            | (kv1, Ok _) =>
                let hashPath := path_Join ["stage/tree"%string; nodePath nd] in
                let hashPath :=
                  match GetType nd with
                  | NodeTypeDirectory => appendDot hashPath
                  | _ => hashPath
                  end in
                match putPath kv1 hashPath (Hash nd) with
                | (kv2, Err e) => (set_kv fs kv2, Err e)
                | (kv2, Panic) => (set_kv fs kv2, Panic)
                | (kv2, Ok _) =>
                    (* Remember/Update this node in the cache *)
                    let fs2 := index_insert (set_kv fs kv2) b58Hash (nodePath nd) nd in
                    (* We need to save parent directories too *)
                    match Parent nd with
                    | Err e => (fs2, Err e)
                    | Panic => (fs2, Panic)
                    | Ok None => (fs2, Ok tt)
                    | Ok (Some par) => StageNode fs2 par
                    end
                end
            end
        end
    end.

(** ** Checkpoint handling *)

(** The loop of [LastCheckpoint] over [btkPaths]: its body returns on every
    path, so only the first bucket path is ever looked at. *)
Definition LastCheckpoint_loop (kv : KV) (btkPaths : list (list string))
  : result Checkpoint :=
  match btkPaths with
  | bktPath :: _ =>
      let! bkt := kv_Bucket kv bktPath in
      let! pckp := bkt_Last kv bkt in
      let! ckp := ckp_Unmarshal pckp in
      Ok ckp
  | [] => Err (ErrorF "No last checkpoint")
  end.

Definition LastCheckpoint (kv : KV) (IDLink : Z) : result Checkpoint :=
  let key := FormatUint16 IDLink in
  LastCheckpoint_loop kv
    [ ["checkpoints"%string; key]; ["stage"%string; "checkpoints"%string; key] ].

(** The closure passed to [Foreach] in [History]; it appends to [history]. *)
Definition History_fn (key : string) (value : bytes) (history : list Checkpoint)
  : list Checkpoint * result unit :=
  match ckp_Unmarshal (Some value) with
  | Ok ckp => (history ++ [ckp], Ok tt)
  | Err e => (history, Err e)
  | Panic => (history, Panic)
  end.

Fixpoint History_loop (kv : KV) (btkPaths : list (list string))
    (history : list Checkpoint) : result (list Checkpoint) :=
  match btkPaths with
  | [] => Ok history
  | bktPath :: rest =>
      let! bkt := kv_Bucket kv bktPath in
      match bkt_Foreach kv bkt History_fn history with
      | (history', Ok _) => History_loop kv rest history'
      | (_, Err e) => Err e
      | (_, Panic) => Panic
      end
  end.

Definition History (kv : KV) (IDLink : Z) : result (list Checkpoint) :=
  let key := FormatUint16 IDLink in
  let! history :=
    History_loop kv
      [ ["checkpoints"%string; key]; ["stage"%string; "checkpoints"%string; key] ]
      [] in
  (* Sort the history by the checkpoint indices. *)
  Ok (sort_History history).

Definition StageCheckpoint (kv : KV) (ckp : Checkpoint) : KV * result unit :=
  match ckp_ToProto ckp with
  | Err e => (kv, Err e)
  | Panic => (kv, Panic)
  | Ok pckp =>
      match ckp_Marshal pckp with
      | Err e => (kv, Err e)
      | Panic => (kv, Panic)
      | Ok data =>
          match kv_Bucket kv stage_checkpoints_bucket with
          | Err e => (kv, Err e)
          | Panic => (kv, Panic)
          | Ok bkt =>
              let key := FormatUint16 (GetIdLink pckp) in
              bkt_Put kv bkt key data
          end
      end
  end.

(** ** Reference handling *)

Definition ResolveRef (fs : FS) (refname : string) : FS * result Node :=
  let refname := ToLower refname in
  let mh :=
    let! bkt := kv_Bucket (fs_kv fs) refs_bucket in
    let! hash := bkt_Get (fs_kv fs) bkt refname in
    multihash_Cast hash in
  match mh with
  | Ok mh => NodeByHash fs mh
  | Err e => (fs, Err e)
  | Panic => (fs, Panic)
  end.

Definition SaveRef (kv : KV) (refname : string) (nd : Node) : KV * result unit :=
  let refname := ToLower refname in
  match kv_Bucket kv refs_bucket with
  | Ok bkt => bkt_Put kv bkt refname (Hash nd)
  | Err e => (kv, Err e)
  | Panic => (kv, Panic)
  end.

Definition Head (fs : FS) : FS * result Node :=
  match ResolveRef fs "HEAD" with
  | (fs', Ok nd) =>
      if decide (GetType nd = NodeTypeCommit) then (fs', Ok nd)
      else (fs', Err (ErrorF "oh-oh, HEAD is not a Commit..."))
  | other => other
  end.

(** ** Commit handling *)

(** The closure of the first [Foreach] in [SubmitCommit]: it collects the
    bucket path of every key of [stage/checkpoints]. *)
Definition histList_fn (key : string) (_ : bytes) (histList : list (list string))
  : list (list string) * result unit :=
  (histList ++ [["stage"; "checkpoints"; key]%string], Ok tt).

(** The closure of the inner [Foreach]: one link per index key. *)
Definition changeset_fn (IDLink : Z) (indexStr : string) (_ : bytes)
    (cs : list CheckpointLink) : list CheckpointLink * result unit :=
  match ParseUint16 indexStr with
  | Ok index => (cs ++ [mkCheckpointLink IDLink index], Ok tt)
  | Err e => (cs, Err e)
  | Panic => (cs, Panic)
  end.

(** The loop over [histList]; [cs] is [cm.changeset], appended to in place. *)
Fixpoint changeset_loop (kv : KV) (histList : list (list string))
    (cs : list CheckpointLink) : list CheckpointLink * result unit :=
  match histList with
  | [] => (cs, Ok tt)
  | histKey :: rest =>
      match ParseUint16 (nth 2 histKey EmptyString) with
      | Err e => (cs, Err e)
      | Panic => (cs, Panic)
      | Ok IDLink =>
          match kv_Bucket kv histKey with
          | Err e => (cs, Err e)
          | Panic => (cs, Panic)
          | Ok histBkt =>
              match bkt_Foreach kv histBkt (changeset_fn IDLink) cs with
              | (cs', Ok _) => changeset_loop kv rest cs'
              | other => other
              end
          end
      end
  end.

(** [SubmitCommit]. The commit is changed in place, so it is returned next
    to the file system. The loop that would copy the buckets of [copyList]
    to their committed counterparts and clear them is commented out in the
    source, and so has no counterpart here. *)
Definition SubmitCommit (fs : FS) (cm : Node) : (FS * Node) * result unit :=
  match Head fs with
  | (fs1, Err e) => ((fs1, cm), Err e)
  | (fs1, Panic) => ((fs1, cm), Panic)
  | (fs1, Ok head) =>
      if decide (Root cm = Root head) then ((fs1, cm), Err ErrNoChange)
      else
        let kv := fs_kv fs1 in
        match kv_Bucket kv stage_checkpoints_bucket with
        | Err e => ((fs1, cm), Err e)
        | Panic => ((fs1, cm), Panic)
        | Ok ckBkt =>
            match bkt_Foreach kv ckBkt histList_fn [] with
            | (_, Err e) => ((fs1, cm), Err e)
            | (_, Panic) => ((fs1, cm), Panic)
            | (histList, Ok _) =>
                match changeset_loop kv histList (changeset cm) with
                | (cs, Err e) => ((fs1, set_changeset cm cs), Err e)
                | (cs, Panic) => ((fs1, set_changeset cm cs), Panic)
                | (cs, Ok _) =>
                    let cm' := set_changeset cm cs in
                    match SaveRef kv "HEAD" cm' with
                    | (kv', r) => ((set_kv fs1 kv', cm'), r)
                    end
                end
            end
        end
  end.

End Filesystem.

Section Resolution.

(** The collaborators of [Section Filesystem], and the [ID()] method of a
    node. *)
Variable B58String : bytes → string.
Variable multihash_Cast : option bytes → result bytes.
Variable WireNode : Type.
Variable proto_Unmarshal : bytes → result WireNode.
Variable wire_GetType : WireNode → Z.
Variables NodeType_FILE NodeType_DIRECTORY NodeType_COMMIT : Z.
Variable FromProto : NodeType → WireNode → result Node.
Variable ckp_Unmarshal : option bytes → result Checkpoint.
Variable ID : Node → Z.

Abbreviation NodeByHash' :=
  (NodeByHash B58String WireNode proto_Unmarshal wire_GetType
     NodeType_FILE NodeType_DIRECTORY NodeType_COMMIT FromProto).

(** Modelled from the spec: [getPath] is declared elsewhere; it is the
    hierarchical lookup that mirrors [putPath]: the last element of the
    slash-separated path is the key, the elements before it name the
    bucket. *)
Definition getPath (kv : KV) (path : string) : result (option bytes) :=
  let elems := Split path in
  let! bkt := kv_Bucket kv (removelast elems) in
  bkt_Get kv bkt (List.last elems EmptyString).

Definition joinButLeaveLastDot (elems : list string) : string :=
  match elems with
  | [] => EmptyString
  | _ =>
      if HasSuffix (List.last elems EmptyString) "/."
      then appendDot (path_Join elems)
      else path_Join elems
  end.

(** The loop of [ResolveNode] over [prefixes]: the first tree holding the
    path wins. *)
Fixpoint ResolveNode_probe (kv : KV) (nodePath : string) (prefixes : list string)
  : result (option bytes) :=
  match prefixes with
  | [] => Ok None
  | prefix :: rest =>
      let joinedPath := joinButLeaveLastDot [prefix; nodePath] in
      let! hash := getPath kv joinedPath in
      match hash with
      | Some h => Ok (Some h)
      | None => ResolveNode_probe kv nodePath rest
      end
  end.

(** [ResolveNode]: nil ([None]) without error says that there is no such
    path. *)
Definition ResolveNode (fs : FS) (nodePath : string) : FS * result (option Node) :=
  (* Check if it's cached already *)
  match fs_root fs !! nodePath with
  | Some nd => (fs, Ok (Some nd))
  | None =>
      match ResolveNode_probe (fs_kv fs) nodePath ["tree/"; "stage/tree/"]%string with
      | Err e => (fs, Err e)
      | Panic => (fs, Panic)
      | Ok None => (fs, Ok None)
      | Ok (Some hash) =>
          match NodeByHash' fs hash with
          | (fs', Ok nd) => (fs', Ok (Some nd))
          | (fs', Err e) => (fs', Err e)
          | (fs', Panic) => (fs', Panic)
          end
      end
  end.

(** [HistoryByPath]: [nd.ID()] is called on whatever [ResolveNode]
    returned; on nil that is a nil dereference. *)
Definition HistoryByPath (fs : FS) (nodePath : string)
  : FS * result (list Checkpoint) :=
  match ResolveNode fs nodePath with
  | (fs', Err e) => (fs', Err e)
  | (fs', Panic) => (fs', Panic)
  | (fs', Ok None) => (fs', Panic)
  | (fs', Ok (Some nd)) => (fs', History ckp_Unmarshal (fs_kv fs') (ID nd))
  end.

(** ** Metadata handling *)

Definition MetadataPut (kv : KV) (key : string) (value : bytes) : KV * result unit :=
  match kv_Bucket kv ["metadata"%string] with
  | Ok bkt => bkt_Put kv bkt key value
  | Err e => (kv, Err e)
  | Panic => (kv, Panic)
  end.

Definition MetadataGet (kv : KV) (key : string) : result (option bytes) :=
  let! bkt := kv_Bucket kv ["metadata"%string] in
  bkt_Get kv bkt key.

(** ** Convenient access functions *)

(** The type assertion on the node after a lookup: the node, or
    [ErrBadNode] when it is of another type. *)
Definition assert_type (t : NodeType) (r : FS * result Node) : FS * result Node :=
  match r with
  | (fs', Ok nd) =>
      if decide (GetType nd = t) then (fs', Ok nd) else (fs', Err ErrBadNode)
  | other => other
  end.

Definition DirectoryByHash (fs : FS) (hash : bytes) : FS * result Node :=
  assert_type NodeTypeDirectory (NodeByHash' fs hash).

Definition FileByHash (fs : FS) (hash : bytes) : FS * result Node :=
  assert_type NodeTypeFile (NodeByHash' fs hash).

Definition CommitByHash (fs : FS) (hash : bytes) : FS * result Node :=
  assert_type NodeTypeCommit (NodeByHash' fs hash).

(** The same after [ResolveNode], where nil is passed on as nil. *)
Definition assert_type_opt (t : NodeType) (r : FS * result (option Node))
  : FS * result (option Node) :=
  match r with
  | (fs', Ok (Some nd)) =>
      if decide (GetType nd = t) then (fs', Ok (Some nd)) else (fs', Err ErrBadNode)
  | other => other
  end.

Definition ResolveDirectory (fs : FS) (dirpath : string) : FS * result (option Node) :=
  assert_type_opt NodeTypeDirectory (ResolveNode fs (appendDot (path_Clean dirpath))).

Definition ResolveFile (fs : FS) (filepath : string) : FS * result (option Node) :=
  assert_type_opt NodeTypeFile (ResolveNode fs filepath).

End Resolution.

End Store.

(** * Package [compress] *)

Module Compress.

(** One index entry: the offsets at which a chunk starts. *)
Record record : Type := mkRecord { rec_rawOff : Z; rec_zipOff : Z }.

Record trailer : Type := mkTrailer {
  tr_algo : Z;
  tr_chunksize : Z;
  tr_indexSize : Z
}.

(** Modelled from the spec: the sizes of the stream layout, declared
    outside the files at hand. The header takes 8 bytes, an index record 16
    and the trailer 14 ([u16 + u32 + u64]). *)
Definition headerSize : Z := 8.
Definition indexChunkSize : Z := 16.
Definition trailerSize : Z := 14.

(** Modelled from the spec: [record.marshal] is declared elsewhere; a record
    is [rawOff] then [zipOff], each a big-endian [u64]. *)
Definition record_marshal (r : record) : bytes :=
  PutUint64 (wrap_u64 (rec_rawOff r)) ++ PutUint64 (wrap_u64 (rec_zipOff r)).

(** Modelled from the spec: [trailer.marshal] is declared elsewhere; the
    trailer is [algoType : u16], [chunkSize : u32], [indexSize : u64],
    big-endian. *)
Definition trailer_marshal (t : trailer) : bytes :=
  PutUint16 (tr_algo t) ++ PutUint32 (tr_chunksize t) ++ PutUint64 (tr_indexSize t).

(** The [Algorithm] interface, as far as the writer uses it. *)
Record Algorithm : Type := mkAlgorithm { Encode : bytes → result bytes }.

(** The underlying [io.Writer]: the bytes it has taken so far, and how many
    more it takes before it fails ([None]: it never fails). A write that
    does not fit takes what fits and reports an error. *)
Record Sink : Type := mkSink { sink_out : bytes; sink_room : option nat }.

Definition ErrShortWrite : error := ErrExternal "io" 1.

Definition sink_Write (s : Sink) (p : bytes) : Sink * (Z * option error) :=
  match sink_room s with
  | None => (mkSink (sink_out s ++ p) None, (Z.of_nat (length p), None))
  | Some room =>
      if (length p <=? room)%nat
      then (mkSink (sink_out s ++ p) (Some (room - length p)%nat),
            (Z.of_nat (length p), None))
      else (mkSink (sink_out s ++ take room p) (Some O),
            (Z.of_nat room, Some ErrShortWrite))
  end.

(** The [io.Reader] handed to [ReadFrom], as the script of what its
    successive [Read] calls deliver: a piece of data and the error returned
    with its last byte. A [Read] into a buffer smaller than the piece takes
    a buffer-full and leaves the rest for the next call; a reader whose
    script has run out reports [io.EOF]. *)
Abbreviation Reader := (list (bytes * option error)).

Definition reader_Read (r : Reader) (size : nat) : Reader * (bytes * option error) :=
  match r with
  | [] => ([], ([], Some EOF))
  | (d, e) :: rest =>
      if (length d <=? size)%nat then (rest, (d, e))
      else ((drop size d, e) :: rest, (take size d, None))
  end.

Record Writer : Type := mkWriter {
  rawW : Sink;
  chunkBuf : bytes;
  index : list record;
  rawOff : Z;
  zipOff : Z;
  w_trailer : trailer;
  algo : Algorithm;
  algoType : Z;
  headerWritten : bool
}.

Definition set_rawW (w : Writer) (s : Sink) : Writer :=
  mkWriter s (chunkBuf w) (index w) (rawOff w) (zipOff w) (w_trailer w)
           (algo w) (algoType w) (headerWritten w).

Definition set_chunkBuf (w : Writer) (b : bytes) : Writer :=
  mkWriter (rawW w) b (index w) (rawOff w) (zipOff w) (w_trailer w)
           (algo w) (algoType w) (headerWritten w).

Definition set_offsets (w : Writer) (raw zip : Z) : Writer :=
  mkWriter (rawW w) (chunkBuf w) (index w) raw zip (w_trailer w)
           (algo w) (algoType w) (headerWritten w).

Definition set_headerWritten (w : Writer) (b : bool) : Writer :=
  mkWriter (rawW w) (chunkBuf w) (index w) (rawOff w) (zipOff w) (w_trailer w)
           (algo w) (algoType w) b.

Definition set_indexSize (w : Writer) (n : Z) : Writer :=
  mkWriter (rawW w) (chunkBuf w) (index w) (rawOff w) (zipOff w)
           (mkTrailer (tr_algo (w_trailer w)) (tr_chunksize (w_trailer w)) n)
           (algo w) (algoType w) (headerWritten w).

Definition addRecordToIndex (w : Writer) : Writer :=
  mkWriter (rawW w) (chunkBuf w) (index w ++ [mkRecord (rawOff w) (zipOff w)])
           (rawOff w) (zipOff w) (w_trailer w) (algo w) (algoType w)
           (headerWritten w).

Definition flushBuffer (w : Writer) (data : bytes) : Writer * result unit :=
  if (Z.of_nat (length data) <=? 0)%Z then (w, Ok tt)
  else
    (* Add record with start offset of the current chunk. *)
    let w := addRecordToIndex w in
    (* Compress and flush the current chunk. *)
    match Encode (algo w) data with
    | Err e => (w, Err e)
    | Panic => (w, Panic)
    | Ok encData =>
        match sink_Write (rawW w) encData with
        | (s, (_, Some e)) => (set_rawW w s, Err e)
        | (s, (n, None)) =>
            let w := set_rawW w s in
            (set_offsets w (wrap_i64 (rawOff w + Z.of_nat (length data)))
                           (wrap_i64 (zipOff w + n)),
             Ok tt)
        end
    end.

Section Writer.

(** Declared outside the files at hand: the chunk size, the format version,
    the header layout and the registry of algorithms. *)
Variable maxChunkSize : nat.
Variable currentVersion : Z.
Variable makeHeader : Z → Z → bytes.
Variable AlgorithmFromType : Z → result Algorithm.

Definition writeHeaderIfNeeded (w : Writer) : Writer * result unit :=
  if headerWritten w then (w, Ok tt)
  else
    match sink_Write (rawW w) (makeHeader (algoType w) currentVersion) with
    | (s, (_, Some e)) => (set_rawW w s, Err e)
    | (s, (_, None)) =>
        let w := set_headerWritten (set_rawW w s) true in
        (set_offsets w (rawOff w) (wrap_i64 (zipOff w + headerSize)), Ok tt)
    end.

Definition is_EOF (e : error) : bool :=
  match e with
  | EOF => true
  | _ => false
  end.

(** The [for] loop of [ReadFrom]. [read] counts the bytes taken from [r].
    The loop runs until the reader or the writer side reports an error or
    [io.EOF]; [fuel] bounds the number of iterations, and [None] stands for
    a loop that has not ended within that bound. *)
Fixpoint ReadFrom_loop (fuel : nat) (w : Writer) (r : Reader) (read : Z)
  : option (Writer * Reader * (Z * result unit)) :=
  match fuel with
  | O => None
  | S fuel' =>
      let '(r', (buf, rerr)) := reader_Read r maxChunkSize in
      let read := wrap_i64 (read + Z.of_nat (length buf)) in
      match rerr with
      | Some e =>
          if is_EOF e then
            match flushBuffer w buf with
            | (w', Err we) =>
                if is_EOF we then Some (w', r', (read, Ok tt))
                else Some (w', r', (read, Err we))
            | (w', Panic) => Some (w', r', (read, Panic))
            | (w', Ok _) => Some (w', r', (read, Ok tt))
            end
          else Some (w, r', (read, Err e))
      | None =>
          match flushBuffer w buf with
          | (w', Err we) =>
              if is_EOF we then Some (w', r', (read, Ok tt))
              else Some (w', r', (read, Err we))
          | (w', Panic) => Some (w', r', (read, Panic))
          | (w', Ok _) => ReadFrom_loop fuel' w' r' read
          end
      end
  end.

(** Every iteration either ends the loop or uses up a scripted read or a
    buffer-full of one, so this many iterations are enough. *)
Definition reader_fuel (r : Reader) : nat :=
  S (length r + list_sum (map (λ de, length de.1) r)).

Definition ReadFrom (w : Writer) (r : Reader)
  : option (Writer * Reader * (Z * result unit)) :=
  match writeHeaderIfNeeded w with
  | (w', Err e) => Some (w', r, (0%Z, Err e))
  | (w', Panic) => Some (w', r, (0%Z, Panic))
  | (w', Ok _) => ReadFrom_loop (reader_fuel r) w' r 0%Z
  end.

(** The [for] loop of [Write]: append at most [maxChunkSize] bytes of [p] to
    the chunk buffer, stop when the buffer holds less than a chunk, else
    cut a chunk off its front and flush it. *)
Fixpoint Write_loop (fuel : nat) (w : Writer) (p : bytes)
  : option (Writer * result unit) :=
  match fuel with
  | O => None
  | S fuel' =>
      let n := Nat.min (length p) maxChunkSize in
      let w := set_chunkBuf w (chunkBuf w ++ take n p) in
      if (length (chunkBuf w) <? maxChunkSize)%nat then Some (w, Ok tt)
      else
        let chunk := take maxChunkSize (chunkBuf w) in
        let w := set_chunkBuf w (drop maxChunkSize (chunkBuf w)) in
        match flushBuffer w chunk with
        | (w', Ok _) => Write_loop fuel' w' (drop n p)
        | other => Some other
        end
  end.

Definition Write (w : Writer) (p : bytes) : option (Writer * (Z * result unit)) :=
  match writeHeaderIfNeeded w with
  | (w', Err e) => Some (w', (0%Z, Err e))
  | (w', Panic) => Some (w', (0%Z, Panic))
  | (w', Ok _) =>
      let written := Z.of_nat (length p) in
      match Write_loop (S (length p + length (chunkBuf w'))) w' p with
      | None => None
      | Some (w'', Ok _) => Some (w'', (written, Ok tt))
      | Some (w'', r) => Some (w'', (0%Z, r))
      end
  end.

Definition NewWriter (w : Sink) (algoType : Z) : result Writer :=
  let! algo := AlgorithmFromType algoType in
  Ok (mkWriter w [] [] 0 0 (mkTrailer 0 0 0) algo algoType false).

(** The index buffer of [Close]: [indexSize] zero bytes, then one record
    marshalled into each slot of [indexChunkSize] bytes. When the size
    computation has wrapped the slots do not fit and slicing panics. *)
Definition marshal_index (idx : list record) (indexSize : Z) : result bytes :=
  if (indexSize =? indexChunkSize * Z.of_nat (length idx))%Z
  then Ok (concat (map record_marshal idx))
  else Panic.

Definition Close (w : Writer) : Writer * result unit :=
  match writeHeaderIfNeeded w with
  | (w, Err e) => (w, Err e)
  | (w, Panic) => (w, Panic)
  | (w, Ok _) =>
      (* Write remaining bytes left in buffer and update index. *)
      match flushBuffer w (chunkBuf w) with
      | (w, Err e) => (w, Err e)
      | (w, Panic) => (w, Panic)
      | (w, Ok _) =>
          let w := addRecordToIndex w in
          let w := set_indexSize w
                     (wrap_u64 (wrap_i64 (indexChunkSize * Z.of_nat (length (index w))))) in
          match marshal_index (index w) (tr_indexSize (w_trailer w)) with
          | Err e => (w, Err e)
          | Panic => (w, Panic)
          | Ok indexBuf =>
              match sink_Write (rawW w) indexBuf with
              | (s, (n, Some e)) => (set_rawW w s, Err e)
              | (s, (n, None)) =>
                  let w := set_rawW w s in
                  if negb (wrap_u64 n =? tr_indexSize (w_trailer w))%Z then (w, Ok tt)
                  else
                    (* Write trailer buffer at the end of the stream. *)
                    match sink_Write (rawW w) (trailer_marshal (w_trailer w)) with
                    | (s, (_, Some e)) => (set_rawW w s, Err e)
                    | (s, (_, None)) => (set_rawW w s, Ok tt)
                    end
              end
          end
      end
  end.

End Writer.

End Compress.

(** * Notions used to state the properties *)

Import Store.

(** The persisted counter [stats/node-count], read as [NextID] reads it;
    0 before the first call. *)
Definition node_count (kv : KV) : Z :=
  match bkt_data kv stats_bucket !! "node-count"%string with
  | Some b => default 0%Z (Uint64 b)
  | None => 0%Z
  end.

(** The value stored under [stats/node-count], if any, has the eight bytes
    [NextID] reads. *)
Definition node_count_readable (kv : KV) : bool :=
  match bkt_data kv stats_bucket !! "node-count"%string with
  | Some b => (8 <=? length b)%nat
  | None => true
  end.

(** No operation of [NextID] on the [stats] bucket fails. *)
Definition stats_reliable (kv : KV) : Prop :=
  kv_fault kv (OpBucket stats_bucket) = None ∧
  kv_fault kv (OpGet stats_bucket "node-count") = None ∧
  kv_fault kv (OpPut stats_bucket "node-count") = None.

(** A run against one store: calls of [NextID] that return an id,
    interleaved with anything else that leaves the [stats] bucket alone (a
    restart of the process among them, which keeps the store as it is). *)
Inductive NextID_calls : KV → list Z → KV → Prop :=
  | calls_done kv : NextID_calls kv [] kv
  | calls_NextID kv kv1 kv2 id ids :
      NextID kv = (kv1, Ok id) →
      NextID_calls kv1 ids kv2 →
      NextID_calls kv (id :: ids) kv2
  | calls_other kv kv1 kv2 ids :
      bkt_data kv1 stats_bucket = bkt_data kv stats_bucket →
      kv_fault kv1 = kv_fault kv →
      NextID_calls kv1 ids kv2 →
      NextID_calls kv ids kv2.

(** A store whose counter has reached [v]. *)
Definition kv_with_count (v : Z) (fault : KVOp → option error) : KV :=
  mkKV {[ stats_bucket := {[ "node-count"%string := PutUint64 v ]} ]} fault.

(** A store on which only the [Put] of the counter fails. *)
Definition put_count_fails : KVOp → option error :=
  λ op, match op with
        | OpPut ["stats"%string] "node-count"%string => Some (ErrExternal "kv" 1)
        | _ => None
        end.

(** The checkpoints found under a bucket: its entries in key order, each
    one unmarshalled. *)
Definition checkpoints_under (ckp_Unmarshal : option bytes → result Checkpoint)
    (kv : KV) (bkt : Bucket) (l : list Checkpoint) : Prop :=
  Forall2 (λ entry ckp, ckp_Unmarshal (Some entry.2) = Ok ckp) (bkt_entries kv bkt) l.

(** Opening a bucket and iterating over it do not fail. *)
Definition reads_reliable (kv : KV) (bkt : Bucket) : Prop :=
  kv_fault kv (OpBucket bkt) = None ∧ kv_fault kv (OpForeach bkt) = None.

(** A node is stored in [stage/objects]: its serialized form is the entry
    under the base58 rendering of its hash. *)
Definition staged_object (B58String : bytes → string) (kv : KV) (a : Node) : Prop :=
  ∃ data, Marshal a = Ok data
          ∧ bkt_data kv stage_objects_bucket !! B58String (Hash a) = Some data.

(** A directory reflects a child when its child list binds the name of the
    child to the hash the child has now. *)
Definition reflects_child (dir child : Node) : Prop :=
  (Name child, Hash child) ∈ Children dir.

(** The cache answers the hash and the path of a node with that node. *)
Definition cached (B58String : bytes → string) (fs : FS) (a : Node) : Prop :=
  fs_index fs !! B58String (Hash a) = Some (nodePath a)
  ∧ fs_root fs !! nodePath a = Some a.

(** [p] comes right after [c] in a chain: it is what [c.Parent()] returned. *)
Definition next_in (chain : list Node) (c p : Node) : Prop :=
  ∃ i, chain !! i = Some c ∧ chain !! S i = Some p.

(** A string of ASCII characters only: on these [ToLower] is
    [strings.ToLower]. *)
Definition is_ascii (s : string) : Prop :=
  Forall (λ c, (N_of_ascii c < 128)%N) (list_ascii_of_string s).

Fixpoint has_slash (s : string) : bool :=
  match s with
  | EmptyString => false
  | String c s' => Ascii.eqb c slash || has_slash s'
  end.

(** The end of [Close], from [addRecordToIndex] on: the sentinel record,
    the index and the trailer. *)
Definition Close_finish (w : Compress.Writer) : Compress.Writer * result unit :=
  let w := Compress.addRecordToIndex w in
  let w := Compress.set_indexSize w
             (wrap_u64 (wrap_i64 (Compress.indexChunkSize
                                  * Z.of_nat (length (Compress.index w))))) in
  match Compress.marshal_index (Compress.index w)
          (Compress.tr_indexSize (Compress.w_trailer w)) with
  | Err e => (w, Err e)
  | Panic => (w, Panic)
  | Ok indexBuf =>
      match Compress.sink_Write (Compress.rawW w) indexBuf with
      | (s, (n, Some e)) => (Compress.set_rawW w s, Err e)
      | (s, (n, None)) =>
          let w := Compress.set_rawW w s in
          if negb (wrap_u64 n =? Compress.tr_indexSize (Compress.w_trailer w))%Z
          then (w, Ok tt)
          else
            match Compress.sink_Write (Compress.rawW w)
                    (Compress.trailer_marshal (Compress.w_trailer w)) with
            | (s, (_, Some e)) => (Compress.set_rawW w s, Err e)
            | (s, (_, None)) => (Compress.set_rawW w s, Ok tt)
            end
      end
  end.

(** Writers on which flushing cannot fail: the sink takes everything and
    the algorithm encodes every chunk. *)
Definition reliable (w : Compress.Writer) : Prop :=
  Compress.sink_room (Compress.rawW w) = None
  ∧ ∀ data, is_Ok (Compress.Encode (Compress.algo w) data).

(** Feeding an input through successive calls of [Write], one per piece,
    as long as they succeed. *)
Fixpoint Write_all (maxChunkSize : nat) (currentVersion : Z)
    (makeHeader : Z → Z → bytes) (w : Compress.Writer) (ps : list bytes)
  : option (Compress.Writer * result unit) :=
  match ps with
  | [] => Some (w, Ok tt)
  | p :: ps' =>
      match Compress.Write maxChunkSize currentVersion makeHeader w p with
      | None => None
      | Some (w', (_, Ok _)) => Write_all maxChunkSize currentVersion makeHeader w' ps'
      | Some (w', (_, Err e)) => Some (w', Err e)
      | Some (w', (_, Panic)) => Some (w', Panic)
      end
  end.

(** The two buckets [loadNode] reads can be opened and read at the key. *)
Definition objects_readable (kv : KV) (b58 : string) : Prop :=
  kv_fault kv (OpBucket objects_bucket) = None
  ∧ kv_fault kv (OpGet objects_bucket b58) = None
  ∧ kv_fault kv (OpBucket stage_objects_bucket) = None
  ∧ kv_fault kv (OpGet stage_objects_bucket b58) = None.

(** A key of the store read as a hexadecimal number, 0 if it is none. *)
Definition parsed (s : string) : Z :=
  match ParseUint16 s with
  | Ok v => v
  | _ => 0%Z
  end.

(** One link for every entry of every bucket [stage/checkpoints/<key>]
    whose [<key>] is an entry of [stage/checkpoints], in key order. *)
Definition staged_links (kv : KV) : list CheckpointLink :=
  flat_map
    (λ e1 : string * bytes,
       map (λ e2 : string * bytes, mkCheckpointLink (parsed e1.1) (parsed e2.1))
           (bkt_entries kv ["stage"; "checkpoints"; e1.1]%string))
    (bkt_entries kv stage_checkpoints_bucket).

(** The serialized form of a node, empty when it has none. *)
Definition marshalled (a : Node) : bytes :=
  match Marshal a with
  | Ok data => data
  | _ => []
  end.

(** A path that is in neither the trie nor one of the two trees. *)
Definition path_absent (fs : FS) (nodePath : string) : Prop :=
  fs_root fs !! nodePath = None
  ∧ getPath (fs_kv fs) (joinButLeaveLastDot ["tree/"; nodePath]%string) = Ok None
  ∧ getPath (fs_kv fs) (joinButLeaveLastDot ["stage/tree/"; nodePath]%string) = Ok None.

(** The chunks an input is cut into: [size] bytes each, the last one
    shorter when the length of the input is no multiple of [size]. *)
Fixpoint chunks_of (fuel size : nat) (l : bytes) : list bytes :=
  match fuel with
  | O => []
  | S fuel' =>
      match l with
      | [] => []
      | _ => take size l :: chunks_of fuel' size (drop size l)
      end
  end.

Definition chunks (size : nat) (l : bytes) : list bytes := chunks_of (length l) size l.

(** What the algorithm makes of a chunk, empty when it fails. *)
Definition encoded (a : Compress.Algorithm) (chunk : bytes) : bytes :=
  match Compress.Encode a chunk with
  | Ok enc => enc
  | _ => []
  end.

(** The index of a stream whose chunks start at the offsets [raw] and
    [zip]: one record per chunk with the offsets at which it starts, and a
    last record with the offsets behind the last chunk. *)
Fixpoint records_from (a : Compress.Algorithm) (raw zip : Z) (cs : list bytes)
  : list Compress.record :=
  match cs with
  | [] => [Compress.mkRecord raw zip]
  | c :: cs' =>
      Compress.mkRecord raw zip
      :: records_from a (wrap_i64 (raw + Z.of_nat (length c)))
                        (wrap_i64 (zip + Z.of_nat (length (encoded a c)))) cs'
  end.

(** Flushing chunks one after the other. *)
Fixpoint flush_all (w : Compress.Writer) (cs : list bytes) : Compress.Writer :=
  match cs with
  | [] => w
  | c :: cs' => flush_all (Compress.flushBuffer w c).1 cs'
  end.

(** What is left of a reader's script: its reads and their bytes. *)
Definition reader_size (r : Compress.Reader) : nat :=
  length r + list_sum (map (λ de, length de.1) r).

(** ** Instances of the collaborators, to run the code on *)

Module Fixture.

(** A hash rendered as the string of its bytes. *)
Definition B58String (h : bytes) : string := string_of_list_byte h.

(** [multihash.Cast] rejects nil and empty buffers. *)
Definition multihash_Cast (buf : option bytes) : result bytes :=
  match buf with
  | Some (b :: bs) => Ok (b :: bs)
  | _ => Err (ErrExternal "multihash" 1)
  end.

Definition change_code (c : ChangeType) : Z :=
  match c with
  | ChangeAdd => 1
  | ChangeModify => 2
  | ChangeRemove => 3
  | ChangeMove => 4
  end.

Definition ckp_ToProto (ckp : Checkpoint) : result WireCheckpoint :=
  Ok (mkWireCheckpoint (ckp_idLink ckp) (ckp_index ckp) (ckp_hash ckp)
                       (change_code (ckp_change ckp)) (ckp_author ckp)).

(** A checkpoint on the wire: [idLink] and [index], eight bytes each. *)
Definition ckp_Marshal (pckp : WireCheckpoint) : result bytes :=
  Ok (PutUint64 (GetIdLink pckp) ++ PutUint64 (GetIndex pckp)).

(** The empty message decodes to the zero checkpoint, as protobuf does. *)
Definition ckp_Unmarshal (data : option bytes) : result Checkpoint :=
  match default [] data with
  | [] => Ok (mkCheckpoint 0 0 [] ChangeAdd "")
  | b =>
      match Uint64 b, Uint64 (drop 8 b) with
      | Some idLink, Some index => Ok (mkCheckpoint idLink index [] ChangeAdd "")
      | _, _ => Err (ErrExternal "proto" 1)
      end
  end.

Definition ckp (idLink index : Z) : Checkpoint :=
  mkCheckpoint idLink index [] ChangeAdd "".

Definition ckp_data (idLink index : Z) : bytes :=
  PutUint64 idLink ++ PutUint64 index.

(** Nodes on the wire: the node codec knows the nodes of [known] by their
    serialized form. *)
Definition type_code (t : NodeType) : Z :=
  match t with
  | NodeTypeFile => 1
  | NodeTypeDirectory => 2
  | NodeTypeCommit => 3
  end.

Definition proto_Unmarshal (known : list Node) (data : bytes) : result Node :=
  match List.find (λ n, match Marshal n with
                        | Ok d => bool_decide (d = data)
                        | _ => false
                        end) known with
  | Some n => Ok n
  | None => Err (ErrExternal "proto" 2)
  end.

Definition wire_GetType (n : Node) : Z := type_code (GetType n).

Definition FromProto (kind : NodeType) (pnd : Node) : result Node := Ok pnd.

Definition hash_of (s : string) : bytes := list_byte_of_string s.

(** The root directory before [/x.txt] was added to it: no children. *)
Definition root_dir : Node :=
  mkNode NodeTypeDirectory "/" (hash_of "Qmroot0") "/"
         (Ok (list_byte_of_string "dir:/")) (Ok None) [] [] [].

(** A file [/x.txt] whose parent is [root_dir]. *)
Definition file_x : Node :=
  mkNode NodeTypeFile "x.txt" (hash_of "Qm111") "/x.txt"
         (Ok (list_byte_of_string "file:/x.txt")) (Ok (Some root_dir)) [] [] [].

(** The commit [HEAD] points to, and a commit with another root. *)
Definition commit_0 : Node :=
  mkNode NodeTypeCommit "" (hash_of "Qmcommit0") "/.commit0"
         (Ok (list_byte_of_string "commit:0")) (Ok None) []
         (hash_of "Qmroot0") [].

Definition commit_1 : Node :=
  mkNode NodeTypeCommit "" (hash_of "Qmcommit1") "/.commit1"
         (Ok (list_byte_of_string "commit:1")) (Ok None) []
         (hash_of "Qmroot1") [].

Definition known_nodes : list Node := [commit_0; commit_1; root_dir; file_x].

Definition NodeByHash :=
  Store.NodeByHash B58String Node (proto_Unmarshal known_nodes)
    wire_GetType 1 2 3 FromProto.
Definition StageNode := Store.StageNode B58String.
Definition StageCheckpoint := Store.StageCheckpoint ckp_ToProto ckp_Marshal.
Definition LastCheckpoint := Store.LastCheckpoint ckp_Unmarshal.
Definition History := Store.History ckp_Unmarshal.
Definition SubmitCommit :=
  Store.SubmitCommit B58String multihash_Cast Node
    (proto_Unmarshal known_nodes) wire_GetType 1 2 3 FromProto.

(** A store with [HEAD] at [commit_0] and [/x.txt] staged. *)
Definition kv_staged : KV :=
  mkKV {[ refs_bucket := {[ "head"%string := Hash commit_0 ]};
          objects_bucket :=
            {[ B58String (Hash commit_0) := list_byte_of_string "commit:0" ]};
          stage_objects_bucket :=
            {[ B58String (Hash file_x) := list_byte_of_string "file:/x.txt" ]};
          ["stage"; "tree"]%string := {[ "x.txt"%string := Hash file_x ]} ]}
       no_fault.

(** Checkpoints of node 7: index 1 committed, indices 3 and 2 staged. *)
Definition kv_history : KV :=
  mkKV {[ ["checkpoints"; "7"]%string := {[ "1"%string := ckp_data 7 1 ]};
          ["stage"; "checkpoints"; "7"]%string :=
            {[ "3"%string := ckp_data 7 3; "2"%string := ckp_data 7 2 ]} ]}
       no_fault.

(** Node 7 has staged checkpoints only. *)
Definition kv_staged_history : KV :=
  mkKV {[ ["stage"; "checkpoints"; "7"]%string :=
            {[ "1"%string := ckp_data 7 1 ]} ]}
       no_fault.

(** [SubmitCommit] of [commit_1] on a fresh handle over [kv_staged]. *)
Definition submitted : (FS * Node) * result unit :=
  SubmitCommit (NewFilesystem kv_staged) commit_1.

Definition loadNode :=
  Store.loadNode B58String Node (proto_Unmarshal known_nodes) wire_GetType 1 2 3 FromProto.
Definition ResolveRef :=
  Store.ResolveRef B58String multihash_Cast Node (proto_Unmarshal known_nodes)
    wire_GetType 1 2 3 FromProto.
Definition Head :=
  Store.Head B58String multihash_Cast Node (proto_Unmarshal known_nodes)
    wire_GetType 1 2 3 FromProto.
Definition ResolveNode :=
  Store.ResolveNode B58String Node (proto_Unmarshal known_nodes) wire_GetType 1 2 3
    FromProto.
Definition ResolveFile :=
  Store.ResolveFile B58String Node (proto_Unmarshal known_nodes) wire_GetType 1 2 3
    FromProto.
Definition ResolveDirectory :=
  Store.ResolveDirectory B58String Node (proto_Unmarshal known_nodes) wire_GetType 1 2 3
    FromProto.
Definition FileByHash :=
  Store.FileByHash B58String Node (proto_Unmarshal known_nodes) wire_GetType 1 2 3
    FromProto.
Definition DirectoryByHash :=
  Store.DirectoryByHash B58String Node (proto_Unmarshal known_nodes) wire_GetType 1 2 3
    FromProto.
Definition CommitByHash :=
  Store.CommitByHash B58String Node (proto_Unmarshal known_nodes) wire_GetType 1 2 3
    FromProto.

(** Node ids of the fixture: the length of the name. *)
Definition ID (nd : Node) : Z := Z.of_nat (String.length (Name nd)).

Definition HistoryByPath :=
  Store.HistoryByPath B58String Node (proto_Unmarshal known_nodes) wire_GetType 1 2 3
    FromProto ckp_Unmarshal ID.

(** The root directory after [/x.txt] was added to it, with the hash
    [commit_1] has as its root, and [/x.txt] with that root as parent. *)
Definition root_dir_1 : Node :=
  mkNode NodeTypeDirectory "/" (hash_of "Qmroot1") "/"
         (Ok (list_byte_of_string "dir:/ x.txt")) (Ok None)
         [("x.txt"%string, hash_of "Qm111")] [] [].

Definition file_x_1 : Node :=
  mkNode NodeTypeFile "x.txt" (hash_of "Qm111") "/x.txt"
         (Ok (list_byte_of_string "file:/x.txt")) (Ok (Some root_dir_1)) [] [] [].

(** [kv_staged] with two checkpoints of node 7 staged as the layout has
    them, and the key [7] in [stage/checkpoints] that leads to them. *)
Definition kv_staged_checkpoints : KV :=
  mkKV (<[ stage_checkpoints_bucket := {[ "7"%string := ckp_data 7 2 ]} ]>
          (<[ ["stage"; "checkpoints"; "7"]%string :=
                {[ "1"%string := ckp_data 7 1; "2"%string := ckp_data 7 2 ]} ]>
             (kv_data kv_staged)))
       no_fault.

(** [StageNode] of [file_x] on a fresh handle over the empty store. *)
Definition staged_x : FS * result unit := StageNode (NewFilesystem empty_kv) file_x.

End Fixture.

Module WriterFixture.

Import Compress.

(** 64 KiB chunks, format version 1, the header as magic, algorithm and
    version, and one algorithm, number 0, that stores chunks as they are. *)
Definition maxChunkSize : nat := 64 * 1024.
Definition currentVersion : Z := 1.

Definition makeHeader (algoType version : Z) : bytes :=
  list_byte_of_string "brig" ++ PutUint16 algoType ++ PutUint16 version.

Definition AlgoNone : Algorithm := mkAlgorithm (λ data, Ok data).

Definition AlgorithmFromType (algoType : Z) : result Algorithm :=
  if (algoType =? 0)%Z then Ok AlgoNone else Err (ErrExternal "compress" 1).

Definition NewWriter := Compress.NewWriter AlgorithmFromType.
Definition Close := Compress.Close currentVersion makeHeader.
Definition Write := Compress.Write maxChunkSize currentVersion makeHeader.
Definition ReadFrom := Compress.ReadFrom maxChunkSize currentVersion makeHeader.

(** A writer into an empty sink that never fails. *)
Definition fresh : Writer :=
  mkWriter (mkSink [] None) [] [] 0 0 (mkTrailer 0 0 0) AlgoNone 0 false.

(** The stream that comes out when the fresh writer is fed through
    [Write], or through [ReadFrom], and then closed. *)
Definition output_via_Write (p : bytes) : option bytes :=
  match Write fresh p with
  | Some (w, _) => Some (sink_out (rawW (Close w).1))
  | None => None
  end.

Definition output_via_ReadFrom (r : Reader) : option bytes :=
  match ReadFrom fresh r with
  | Some (w, _, _) => Some (sink_out (rawW (Close w).1))
  | None => None
  end.

End WriterFixture.

(** * Properties *)

Section BytesFacts.
Local Open Scope Z_scope.

Lemma Z_of_byte_of_Z z : Z_of_byte (byte_of_Z z) = z mod 256.
Proof.
  unfold Z_of_byte, byte_of_Z.
  assert (H : 0 <= z mod 256 < 256) by (apply Z.mod_pos_bound; lia).
  destruct (Byte.of_N (Z.to_N (z mod 256))) as [b|] eqn:E.
  - apply Byte.to_of_N in E. rewrite E. lia.
  - apply Byte.of_N_None_iff in E. lia.
Qed.

Lemma testbit_above_u64 v n : 0 <= v < 2 ^ 64 → 64 <= n → Z.testbit v n = false.
Proof.
  intros Hv Hn. destruct (Z.eq_dec v 0) as [->|]; [apply Z.bits_0|].
  apply Z.bits_above_log2; [lia|].
  assert (Z.log2 v < 64) by (apply Z.log2_lt_pow2; lia). lia.
Qed.

(** Reading back what [PutUint64] wrote gives the number written. *)
Lemma Uint64_PutUint64 v : 0 <= v < 2 ^ 64 → Uint64 (PutUint64 v) = Some v.
Proof.
  intros Hv. unfold PutUint64, Uint64. f_equal.
  rewrite !Z_of_byte_of_Z.
  change 256 with (2 ^ 8).
  apply Z.bits_inj'. intros n Hn.
  rewrite !Z.lor_spec, !Z.shiftl_spec by lia.
  rewrite !Z.testbit_mod_pow2 by lia.
  assert (Hterm : ∀ k, 0 <= k →
            (n - k <? 8) && Z.testbit (Z.shiftr v k) (n - k)
            = (k <=? n) && (n <? k + 8) && Z.testbit v n).
  { intros k Hk. destruct (Z.leb_spec k n).
    - rewrite Z.shiftr_spec by lia. replace (n - k + k) with n by lia.
      destruct (Z.ltb_spec (n - k) 8), (Z.ltb_spec n (k + 8)); simpl; auto; lia.
    - rewrite Z.testbit_neg_r by lia. simpl. apply andb_false_r. }
  rewrite !Hterm by lia.
  replace (n <? 8) with ((0 <=? n) && (n <? 0 + 8))
    by (destruct (Z.leb_spec 0 n); [reflexivity|lia]).
  destruct (Z.testbit v n) eqn:Eb; rewrite ?andb_false_r; [|reflexivity].
  rewrite !andb_true_r.
  destruct (Z_lt_dec n 64) as [Hlt|Hge];
    [|rewrite (testbit_above_u64 v n) in Eb by lia; discriminate].
  assert (Hn8 : n < 8 ∨ 8 <= n < 16 ∨ 16 <= n < 24 ∨ 24 <= n < 32 ∨
                32 <= n < 40 ∨ 40 <= n < 48 ∨ 48 <= n < 56 ∨ 56 <= n < 64) by lia.
  repeat (destruct Hn8 as [Hn8|Hn8]);
    repeat match goal with
    | |- context [(?a <=? ?b)] =>
        first [ rewrite (proj2 (Z.leb_le a b)) by lia
              | rewrite (proj2 (Z.leb_gt a b)) by lia ]
    | |- context [(?a <? ?b)] =>
        first [ rewrite (proj2 (Z.ltb_lt a b)) by lia
              | rewrite (proj2 (Z.ltb_ge a b)) by lia ]
    end; reflexivity.
Qed.

Lemma PutUint64_length v : length (PutUint64 v) = 8%nat.
Proof. reflexivity. Qed.

End BytesFacts.

(** ** The store: what [Put] changes *)

Lemma bkt_Put_inv kv bkt key value kv' r :
  bkt_Put kv bkt key value = (kv', r) →
  (r = Ok tt ∧ kv_fault kv (OpPut bkt key) = None ∧
   kv' = mkKV (<[bkt := <[key := value]> (bkt_data kv bkt)]> (kv_data kv)) (kv_fault kv))
  ∨ (∃ e, r = Err e ∧ kv_fault kv (OpPut bkt key) = Some e ∧ kv' = kv).
Proof.
  unfold bkt_Put. destruct (kv_fault kv (OpPut bkt key)) as [e|] eqn:E;
    intros [= <- <-]; [right; eauto | left; auto].
Qed.

Lemma bkt_Put_fault kv bkt key value kv' r :
  bkt_Put kv bkt key value = (kv', r) → kv_fault kv' = kv_fault kv.
Proof. intros H. apply bkt_Put_inv in H as [(_ & _ & ->)|(e & _ & _ & ->)]; reflexivity. Qed.

Lemma bkt_Put_data kv bkt key value kv' :
  bkt_Put kv bkt key value = (kv', Ok tt) →
  ∀ b, bkt_data kv' b =
       if decide (b = bkt) then <[key := value]> (bkt_data kv bkt) else bkt_data kv b.
Proof.
  intros H b. apply bkt_Put_inv in H as [(_ & _ & ->)|(e & [=] & _)].
  unfold bkt_data at 1. simpl. case_decide as Hb.
  - subst. by rewrite lookup_insert_eq.
  - by rewrite lookup_insert_ne.
Qed.

Lemma bkt_Put_failed kv bkt key value kv' r :
  bkt_Put kv bkt key value = (kv', r) → r ≠ Ok tt → kv' = kv.
Proof. intros H Hr. apply bkt_Put_inv in H as [(? & _)|(e & _ & _ & ->)]; [done|reflexivity]. Qed.

(** ** [NextID] *)

Section NextIDFacts.
Local Open Scope Z_scope.

Lemma Uint64_nonneg b c : Uint64 b = Some c → 0 <= c.
Proof.
  unfold Uint64.
  do 8 (destruct b as [|? b]; [discriminate|]). intros [= <-].
  repeat (apply Z.lor_nonneg; split);
    try apply Z.shiftl_nonneg; unfold Z_of_byte; lia.
Qed.

Lemma node_count_nonneg kv : 0 <= node_count kv.
Proof.
  unfold node_count. destruct (bkt_data kv stats_bucket !! _) as [b|]; [|lia].
  destruct (Uint64 b) as [c|] eqn:E; simpl; [|lia]. by eapply Uint64_nonneg.
Qed.

(** One call on a store whose [stats] bucket works: the id is the stored
    counter plus one (modulo 2^64), and that id is what gets stored. *)
Lemma NextID_step kv :
  stats_reliable kv → node_count_readable kv = true →
  ∃ kv', NextID kv = (kv', Ok (wrap_u64 (node_count kv + 1)))
    ∧ bkt_data kv' stats_bucket
      = <["node-count"%string := PutUint64 (wrap_u64 (node_count kv + 1))]>
          (bkt_data kv stats_bucket)
    ∧ kv_fault kv' = kv_fault kv.
Proof.
  intros (Hb & Hg & Hp) Hr.
  unfold NextID, kv_Bucket, bkt_Get, faulty. rewrite Hb, Hg.
  unfold node_count, node_count_readable in *.
  destruct (bkt_data kv stats_bucket !! "node-count"%string) as [b|] eqn:E.
  - destruct (Uint64 b) as [c|] eqn:Eu.
    2:{ exfalso. apply Nat.leb_le in Hr.
        do 8 (destruct b as [|? b]; [simpl in Hr; lia|]). discriminate. }
    simpl. unfold bkt_Put. rewrite Hp. eexists. split; [reflexivity|].
    split; [|reflexivity]. unfold bkt_data at 1. simpl. by rewrite lookup_insert_eq.
  - simpl. unfold bkt_Put. rewrite Hp. eexists. split; [reflexivity|].
    split; [|reflexivity]. unfold bkt_data at 1. simpl. by rewrite lookup_insert_eq.
Qed.

Lemma node_count_after_put kv' (m : gmap string bytes) v :
  0 <= v < 2 ^ 64 →
  bkt_data kv' stats_bucket = <["node-count"%string := PutUint64 v]> m →
  node_count kv' = v ∧ node_count_readable kv' = true.
Proof.
  intros Hv Hd. unfold node_count, node_count_readable.
  rewrite Hd, lookup_insert_eq, Uint64_PutUint64 by done. done.
Qed.

Lemma ids_from_sorted c start n :
  StronglySorted Z.lt (map (λ i : nat, c + Z.of_nat i) (seq start n)).
Proof.
  revert start. induction n as [|n IH]; intros start; simpl; constructor; [apply IH|].
  apply List.Forall_forall. intros x Hx. apply in_map_iff in Hx as (i & <- & Hi).
  apply in_seq in Hi. lia.
Qed.

(** The ids of a run are the successors of the counter the run started
    from, as long as the counter does not reach 2^64. *)
Lemma NextID_calls_ids kv ids kv' :
  NextID_calls kv ids kv' →
  stats_reliable kv → node_count_readable kv = true →
  node_count kv + Z.of_nat (length ids) < 2 ^ 64 →
  ids = map (λ i : nat, node_count kv + Z.of_nat i) (seq 1 (length ids))
  ∧ node_count kv' = node_count kv + Z.of_nat (length ids).
Proof.
  induction 1 as [kv|kv kv1 kv2 id ids Hcall Hrest IH|kv kv1 kv2 ids Hd Hf Hrest IH];
    intros Hrel Hread Hbound.
  - simpl. split; [reflexivity|lia].
  - pose proof (node_count_nonneg kv) as Hc0.
    destruct (NextID_step kv Hrel Hread) as (kv1' & Hstep & Hdata & Hfault).
    rewrite Hcall in Hstep. injection Hstep as <- ->.
    simpl length in *.
    assert (Hw : wrap_u64 (node_count kv + 1) = node_count kv + 1).
    { unfold wrap_u64. apply Z.mod_small. lia. }
    rewrite Hw in *.
    destruct (node_count_after_put kv1 _ (node_count kv + 1) ltac:(lia) Hdata)
      as [Hc1 Hr1].
    destruct IH as [Hids Hfinal].
    + unfold stats_reliable in *. by rewrite Hfault.
    + done.
    + lia.
    + split; [|lia]. simpl. f_equal.
      rewrite Hids at 1. rewrite <- (seq_shift (length ids) 1), map_map.
      apply map_ext. intros i. lia.
  - assert (Hc : node_count kv1 = node_count kv) by (unfold node_count; by rewrite Hd).
    rewrite <- Hc. apply IH.
    + unfold stats_reliable in *. by rewrite Hf.
    + unfold node_count_readable in *. by rewrite Hd.
    + lia.
Qed.

(** C3, as amended: while the counter stays below 2^64 and the store takes
    the writes of the counter, the ids returned by the calls of [NextID]
    against one store (a restart in between included) are strictly
    increasing, every one of them is above the counter the run started from,
    and the persisted counter does not decrease. *)
Theorem NextID_strictly_monotone kv ids kv' :
  stats_reliable kv → node_count_readable kv = true →
  NextID_calls kv ids kv' →
  node_count kv + Z.of_nat (length ids) < 2 ^ 64 →
  StronglySorted Z.lt ids
  ∧ Forall (λ id, node_count kv < id <= node_count kv') ids
  ∧ node_count kv <= node_count kv'.
Proof.
  intros Hrel Hread Hrun Hbound.
  destruct (NextID_calls_ids _ _ _ Hrun Hrel Hread Hbound) as [Hids Hfinal].
  split; [|split].
  - rewrite Hids. apply ids_from_sorted.
  - rewrite Hids, Hfinal. apply List.Forall_forall. intros x Hx.
    apply in_map_iff in Hx as (i & <- & Hi). apply in_seq in Hi. lia.
  - lia.
Qed.

(** A run of two calls on a fresh store, with a restart in between. *)
Lemma NextID_strictly_monotone_witness :
  StronglySorted Z.lt [1; 2]
  ∧ Forall (λ id, node_count empty_kv < id <= node_count (kv_with_count 2 no_fault)) [1; 2]
  ∧ node_count empty_kv <= node_count (kv_with_count 2 no_fault).
Proof.
  apply (NextID_strictly_monotone empty_kv [1; 2] (kv_with_count 2 no_fault)).
  - repeat split.
  - reflexivity.
  - apply (calls_NextID _ (kv_with_count 1 no_fault)); [vm_compute; reflexivity|].
    apply (calls_other _ (kv_with_count 1 no_fault)); [reflexivity|reflexivity|].
    apply (calls_NextID _ (kv_with_count 2 no_fault)); [vm_compute; reflexivity|].
    apply calls_done.
  - vm_compute. reflexivity.
Defined.

(** C3 as stated fails where the counter wraps: from 2^64-2 the next two
    calls return 2^64-1 and then 0, and the persisted counter drops to 0. *)
Lemma NextID_wraps_counterexample :
  NextID_calls (kv_with_count (2 ^ 64 - 2) no_fault) [2 ^ 64 - 1; 0]
               (kv_with_count 0 no_fault)
  ∧ ¬ StronglySorted Z.lt [2 ^ 64 - 1; 0]
  ∧ node_count (kv_with_count 0 no_fault)
    < node_count (kv_with_count (2 ^ 64 - 2) no_fault).
Proof.
  split; [|split].
  - apply (calls_NextID _ (kv_with_count (2 ^ 64 - 1) no_fault));
      [vm_compute; reflexivity|].
    apply (calls_NextID _ (kv_with_count 0 no_fault)); [vm_compute; reflexivity|].
    apply calls_done.
  - intros H. inversion H as [|? ? _ Hall]; subst.
    inversion Hall as [|? ? Hlt _]; subst. vm_compute in Hlt. discriminate.
  - vm_compute. reflexivity.
Qed.

(** C10: when the [Put] of the new counter fails, [NextID] returns the id 0
    and no error, and the store is as it was. *)
Theorem NextID_Put_error_returns_zero kv e :
  kv_fault kv (OpBucket stats_bucket) = None →
  kv_fault kv (OpGet stats_bucket "node-count") = None →
  node_count_readable kv = true →
  kv_fault kv (OpPut stats_bucket "node-count") = Some e →
  NextID kv = (kv, Ok 0).
Proof.
  intros Hb Hg Hr Hp.
  unfold NextID, kv_Bucket, bkt_Get, faulty. rewrite Hb, Hg.
  unfold node_count_readable in Hr.
  destruct (bkt_data kv stats_bucket !! "node-count"%string) as [b|] eqn:E.
  - destruct (Uint64 b) as [c|] eqn:Eu.
    2:{ exfalso. apply Nat.leb_le in Hr.
        do 8 (destruct b as [|? b]; [simpl in Hr; lia|]). discriminate. }
    simpl. unfold bkt_Put. by rewrite Hp.
  - simpl. unfold bkt_Put. by rewrite Hp.
Qed.

Lemma NextID_Put_error_witness :
  NextID (kv_with_count 5 put_count_fails) = (kv_with_count 5 put_count_fails, Ok 0).
Proof.
  apply (NextID_Put_error_returns_zero _ (ErrExternal "kv" 1)); reflexivity.
Defined.

End NextIDFacts.

(** ** Checkpoints *)

#[local] Instance History_le_trans : Transitive History_le.
Proof. intros a b c. unfold History_le. lia. Qed.

#[local] Instance History_le_total : Total History_le.
Proof. intros a b. unfold History_le. lia. Qed.

Section CheckpointFacts.

Variable ckp_ToProto : Checkpoint → result WireCheckpoint.
Variable ckp_Marshal : WireCheckpoint → result bytes.
Variable ckp_Unmarshal : option bytes → result Checkpoint.

Abbreviation History := (Store.History ckp_Unmarshal).
Abbreviation History_loop := (Store.History_loop ckp_Unmarshal).
Abbreviation History_fn := (Store.History_fn ckp_Unmarshal).
Abbreviation found_under := (checkpoints_under ckp_Unmarshal).

(** Iterating with the closure of [History] succeeds exactly when every
    entry unmarshals, and then appends the checkpoints in entry order. *)
Lemma foreach_History_fn entries h0 h1 :
  foreach_entries History_fn entries h0 = (h1, Ok tt)
  ↔ ∃ l, Forall2 (λ entry ckp, ckp_Unmarshal (Some entry.2) = Ok ckp) entries l
         ∧ h1 = h0 ++ l.
Proof.
  revert h0. induction entries as [|[k v] entries IH]; intros h0; simpl.
  - split.
    + intros [= <-]. exists []. split; [constructor|by rewrite app_nil_r].
    + intros (l & Hl & ->). inversion Hl; subst. by rewrite app_nil_r.
  - unfold Store.History_fn at 1.
    destruct (ckp_Unmarshal (Some v)) as [c|e|] eqn:E.
    + rewrite IH. split.
      * intros (l & Hl & ->). exists (c :: l). split; [by constructor|].
        by rewrite <- app_assoc.
      * intros (l & Hl & ->). inversion Hl as [|? c' ? l' Hc Hl']; subst.
        simpl in Hc. rewrite E in Hc. injection Hc as <-.
        exists l'. split; [done|]. by rewrite <- app_assoc.
    + split; [discriminate|]. intros (l & Hl & _).
      inversion Hl as [|? c' ? l' Hc Hl']; subst. simpl in Hc. congruence.
    + split; [discriminate|]. intros (l & Hl & _).
      inversion Hl as [|? c' ? l' Hc Hl']; subst. simpl in Hc. congruence.
Qed.

(** One round of the loop of [History]. *)
Lemma History_loop_cons kv bktPath rest h0 h :
  History_loop kv (bktPath :: rest) h0 = Ok h
  ↔ reads_reliable kv bktPath
    ∧ ∃ l, found_under kv bktPath l ∧ History_loop kv rest (h0 ++ l) = Ok h.
Proof.
  simpl. unfold kv_Bucket, faulty, bkt_Foreach, reads_reliable, checkpoints_under.
  destruct (kv_fault kv (OpBucket bktPath)) as [e|]; simpl.
  { split; [discriminate|]. by intros [[[=] _] _]. }
  destruct (kv_fault kv (OpForeach bktPath)) as [e|]; simpl.
  { split; [discriminate|]. by intros [[_ [=]] _]. }
  destruct (foreach_entries History_fn (bkt_entries kv bktPath) h0)
    as [h1 [[]|e|]] eqn:E.
  - apply foreach_History_fn in E as (l & Hl & ->). split.
    + intros H. split; [done|]. by exists l.
    + intros (_ & l' & Hl' & H).
      assert (l' = l) as ->; [|done].
      clear -Hl Hl'. revert l' Hl'.
      induction Hl as [|x c xs l Hc _ IH]; intros l' Hl'; inversion Hl'; subst; [done|].
      f_equal; [congruence|by apply IH].
  - split; [discriminate|]. intros (_ & l & Hl & _).
    assert (foreach_entries History_fn (bkt_entries kv bktPath) h0 = (h0 ++ l, Ok tt))
      as Hok by (apply foreach_History_fn; eauto).
    congruence.
  - split; [discriminate|]. intros (_ & l & Hl & _).
    assert (foreach_entries History_fn (bkt_entries kv bktPath) h0 = (h0 ++ l, Ok tt))
      as Hok by (apply foreach_History_fn; eauto).
    congruence.
Qed.

Lemma bkt_entries_empty kv bkt : bkt_data kv bkt = ∅ → bkt_entries kv bkt = [].
Proof. intros H. unfold bkt_entries. rewrite H, map_to_list_empty. reflexivity. Qed.

(** What [History] returns, in terms of the two buckets it reads. *)
Lemma History_inv kv IDLink h :
  History kv IDLink = Ok h
  ↔ reads_reliable kv ["checkpoints"%string; FormatUint16 IDLink]
    ∧ reads_reliable kv ["stage"%string; "checkpoints"%string; FormatUint16 IDLink]
    ∧ ∃ l1 l2,
        found_under kv ["checkpoints"%string; FormatUint16 IDLink] l1
        ∧ found_under kv ["stage"%string; "checkpoints"%string; FormatUint16 IDLink] l2
        ∧ h = sort_History (l1 ++ l2).
Proof.
  unfold Store.History.
  destruct (History_loop kv _ []) as [h0|e|] eqn:E; simpl.
  - apply History_loop_cons in E as (Hr1 & l1 & Hl1 & E).
    apply History_loop_cons in E as (Hr2 & l2 & Hl2 & E).
    simpl in E. injection E as <-. split.
    + intros [= <-]. eauto 10.
    + intros (_ & _ & l1' & l2' & Hl1' & Hl2' & ->).
      assert (Hdet : ∀ (es : list (string * bytes)) a b,
                 Forall2 (λ entry ckp, ckp_Unmarshal (Some entry.2) = Ok ckp) es a →
                 Forall2 (λ entry ckp, ckp_Unmarshal (Some entry.2) = Ok ckp) es b →
                 a = b).
      { intros es a b Ha. revert b.
        induction Ha as [|x c xs l Hc _ IH]; intros b Hb; inversion Hb; subst; [done|].
        f_equal; [congruence|by apply IH]. }
      by rewrite (Hdet _ _ _ Hl1 Hl1'), (Hdet _ _ _ Hl2 Hl2').
  - split; [discriminate|].
    intros (Hr1 & Hr2 & l1 & l2 & Hl1 & Hl2 & _).
    assert (History_loop kv
              [["checkpoints"%string; FormatUint16 IDLink];
               ["stage"%string; "checkpoints"%string; FormatUint16 IDLink]] []
            = Ok (l1 ++ l2)) as Hok; [|congruence].
    apply History_loop_cons. split; [done|]. exists l1. split; [done|].
    apply History_loop_cons. split; [done|]. exists l2. split; [done|]. reflexivity.
  - split; [discriminate|].
    intros (Hr1 & Hr2 & l1 & l2 & Hl1 & Hl2 & _).
    assert (History_loop kv
              [["checkpoints"%string; FormatUint16 IDLink];
               ["stage"%string; "checkpoints"%string; FormatUint16 IDLink]] []
            = Ok (l1 ++ l2)) as Hok; [|congruence].
    apply History_loop_cons. split; [done|]. exists l1. split; [done|].
    apply History_loop_cons. split; [done|]. exists l2. split; [done|]. reflexivity.
Qed.

(** C6: what [History] returns holds the checkpoints found under
    [checkpoints/<hex>] and under [stage/checkpoints/<hex>], all of them and
    nothing else, in ascending order of [index]; it returns them whenever the
    two buckets can be read and their entries unmarshal, and for an id
    without stored checkpoints it returns the empty history and no error. *)
Theorem History_merged_sorted kv IDLink :
  let committed := ["checkpoints"%string; FormatUint16 IDLink] in
  let staged := ["stage"%string; "checkpoints"%string; FormatUint16 IDLink] in
  (∀ h, History kv IDLink = Ok h →
     ∃ l1 l2, found_under kv committed l1 ∧ found_under kv staged l2
              ∧ h ≡ₚ l1 ++ l2 ∧ StronglySorted History_le h)
  ∧ (reads_reliable kv committed → reads_reliable kv staged →
     (∀ l1 l2, found_under kv committed l1 → found_under kv staged l2 →
               is_Ok (History kv IDLink))
     ∧ (bkt_data kv committed = ∅ → bkt_data kv staged = ∅ →
        History kv IDLink = Ok [])).
Proof.
  intros committed staged. split; [|intros Hr1 Hr2; split].
  - intros h Hh. apply History_inv in Hh as (_ & _ & l1 & l2 & Hl1 & Hl2 & ->).
    exists l1, l2. repeat split; [done|done| |].
    + apply merge_sort_Permutation.
    + apply StronglySorted_merge_sort; apply _.
  - intros l1 l2 Hl1 Hl2. exists (sort_History (l1 ++ l2)).
    apply History_inv. eauto 10.
  - intros He1 He2. apply History_inv. split; [done|]. split; [done|].
    exists [], []. unfold checkpoints_under.
    subst committed staged. rewrite !bkt_entries_empty by done.
    repeat split; constructor.
Qed.

End CheckpointFacts.

(** The history of node 7 of the fixture: one committed and two staged
    checkpoints come back in the order 1, 2, 3. *)
Lemma History_merged_sorted_witness :
  Fixture.History Fixture.kv_history 7 = Ok [Fixture.ckp 7 1; Fixture.ckp 7 2; Fixture.ckp 7 3]
  ∧ StronglySorted History_le [Fixture.ckp 7 1; Fixture.ckp 7 2; Fixture.ckp 7 3]
  ∧ Fixture.History empty_kv 7 = Ok [].
Proof.
  pose proof (History_merged_sorted Fixture.ckp_Unmarshal Fixture.kv_history 7) as [H1 _].
  pose proof (History_merged_sorted Fixture.ckp_Unmarshal empty_kv 7) as [_ H2].
  assert (E : Fixture.History Fixture.kv_history 7
              = Ok [Fixture.ckp 7 1; Fixture.ckp 7 2; Fixture.ckp 7 3])
    by (vm_compute; reflexivity).
  split; [exact E|]. split.
  - destruct (H1 _ E) as (l1 & l2 & _ & _ & _ & Hs). exact Hs.
  - apply H2; repeat split.
Defined.

(** [LastCheckpoint] depends on the store through the bucket
    [checkpoints/<hex>] alone: stores that agree on it, and on which
    operations fail, give the same answer, whatever they have staged. *)
Lemma LastCheckpoint_first_bucket_only ckp_Unmarshal kv kv' IDLink :
  kv_fault kv' = kv_fault kv →
  bkt_data kv' ["checkpoints"%string; FormatUint16 IDLink]
  = bkt_data kv ["checkpoints"%string; FormatUint16 IDLink] →
  LastCheckpoint ckp_Unmarshal kv' IDLink = LastCheckpoint ckp_Unmarshal kv IDLink.
Proof.
  intros Hf Hd.
  unfold LastCheckpoint, LastCheckpoint_loop, kv_Bucket, bkt_Last, faulty, bkt_entries.
  rewrite Hf. destruct (kv_fault kv (OpBucket _)); simpl; [done|].
  by rewrite Hd.
Qed.

(** C5, on the code: node 7 has one staged checkpoint and none committed.
    [LastCheckpoint] unmarshals the nil it got from [checkpoints/7] and
    returns the zero checkpoint; the staged checkpoint, which [Last] finds
    in [stage/checkpoints/7], is not looked at. On the empty store the answer
    is the same zero checkpoint, not the error [No last checkpoint]. *)
Theorem LastCheckpoint_skips_stage :
  bkt_Last Fixture.kv_staged_history ["checkpoints"; "7"]%string = Ok None
  ∧ bkt_Last Fixture.kv_staged_history ["stage"; "checkpoints"; "7"]%string
    = Ok (Some (Fixture.ckp_data 7 1))
  ∧ Fixture.ckp_Unmarshal (Some (Fixture.ckp_data 7 1)) = Ok (Fixture.ckp 7 1)
  ∧ Fixture.LastCheckpoint Fixture.kv_staged_history 7 = Ok (Fixture.ckp 0 0)
  ∧ Fixture.LastCheckpoint empty_kv 7 = Ok (Fixture.ckp 0 0).
Proof. repeat split; vm_compute; reflexivity. Qed.

(** Where [StageCheckpoint] writes: one entry of the bucket
    [stage/checkpoints], under the hexadecimal [idLink] alone. *)
Lemma StageCheckpoint_writes ckp_ToProto ckp_Marshal kv ckp kv' :
  StageCheckpoint ckp_ToProto ckp_Marshal kv ckp = (kv', Ok tt) →
  ∃ pckp data,
    ckp_ToProto ckp = Ok pckp ∧ ckp_Marshal pckp = Ok data ∧
    ∀ b, bkt_data kv' b =
         if decide (b = stage_checkpoints_bucket)
         then <[FormatUint16 (GetIdLink pckp) := data]> (bkt_data kv b)
         else bkt_data kv b.
Proof.
  unfold StageCheckpoint.
  destruct (ckp_ToProto ckp) as [pckp|e|] eqn:Ep; [|by intros [=]..].
  destruct (ckp_Marshal pckp) as [data|e|] eqn:Em; [|by intros [=]..].
  unfold kv_Bucket, faulty.
  destruct (kv_fault kv (OpBucket stage_checkpoints_bucket)); simpl;
    [intros [=]|].
  intros H. exists pckp, data. split; [done|]. split; [done|].
  intros b. rewrite (bkt_Put_data _ _ _ _ _ H b). by case_decide; subst.
Qed.

(** C4, on the code: staging the checkpoints (7, 1) and (7, 2) on an empty
    store leaves one entry, [stage/checkpoints/7], holding the second
    checkpoint; the bucket [stage/checkpoints/7] has no entry under [1] or
    [2], and the first checkpoint is gone. *)
Theorem StageCheckpoint_overwrites_same_idLink :
  let kv1 := mkKV {[ stage_checkpoints_bucket :=
                       {[ "7"%string := Fixture.ckp_data 7 1 ]} ]} no_fault in
  let kv2 := mkKV {[ stage_checkpoints_bucket :=
                       {[ "7"%string := Fixture.ckp_data 7 2 ]} ]} no_fault in
  Fixture.StageCheckpoint empty_kv (Fixture.ckp 7 1) = (kv1, Ok tt)
  ∧ Fixture.StageCheckpoint kv1 (Fixture.ckp 7 2) = (kv2, Ok tt)
  ∧ bkt_entries kv2 stage_checkpoints_bucket = [("7"%string, Fixture.ckp_data 7 2)]
  ∧ bkt_entries kv2 ["stage"; "checkpoints"; "7"]%string = [].
Proof. repeat split; vm_compute; reflexivity. Qed.

(** ** Commits *)

Section CommitFacts.

Variable B58String : bytes → string.
Variable multihash_Cast : option bytes → result bytes.
Variable WireNode : Type.
Variable proto_Unmarshal : bytes → result WireNode.
Variable wire_GetType : WireNode → Z.
Variables NodeType_FILE NodeType_DIRECTORY NodeType_COMMIT : Z.
Variable FromProto : NodeType → WireNode → result Node.

Abbreviation NodeByHash :=
  (Store.NodeByHash B58String WireNode proto_Unmarshal wire_GetType
     NodeType_FILE NodeType_DIRECTORY NodeType_COMMIT FromProto).
Abbreviation ResolveRef :=
  (Store.ResolveRef B58String multihash_Cast WireNode proto_Unmarshal wire_GetType
     NodeType_FILE NodeType_DIRECTORY NodeType_COMMIT FromProto).
Abbreviation Head :=
  (Store.Head B58String multihash_Cast WireNode proto_Unmarshal wire_GetType
     NodeType_FILE NodeType_DIRECTORY NodeType_COMMIT FromProto).
Abbreviation SubmitCommit :=
  (Store.SubmitCommit B58String multihash_Cast WireNode proto_Unmarshal wire_GetType
     NodeType_FILE NodeType_DIRECTORY NodeType_COMMIT FromProto).

(** Resolving a node touches the cache of the handle, never the store. *)
Lemma NodeByHash_kv fs hash : fs_kv (NodeByHash fs hash).1 = fs_kv fs.
Proof.
  unfold Store.NodeByHash.
  destruct (fs_index fs !! B58String hash ≫= _); [reflexivity|].
  destruct (loadNode _ _ _ _ _ _ _ _ _ _); reflexivity.
Qed.

Lemma ResolveRef_kv fs refname : fs_kv (ResolveRef fs refname).1 = fs_kv fs.
Proof.
  unfold Store.ResolveRef.
  destruct (rbind _ _); [apply NodeByHash_kv|reflexivity..].
Qed.

Lemma Head_kv fs : fs_kv (Head fs).1 = fs_kv fs.
Proof.
  unfold Store.Head. pose proof (ResolveRef_kv fs "HEAD") as H.
  destruct (ResolveRef fs "HEAD") as [fs' [nd|e|]]; simpl in *; [|done..].
  by case_decide.
Qed.

(** [SaveRef] writes one entry of the [refs] bucket, under the lower-cased
    name. *)
Lemma SaveRef_writes kv refname nd kv' :
  SaveRef kv refname nd = (kv', Ok tt) →
  ∀ b, bkt_data kv' b =
       if decide (b = refs_bucket)
       then <[ToLower refname := Hash nd]> (bkt_data kv refs_bucket)
       else bkt_data kv b.
Proof.
  unfold SaveRef, kv_Bucket, faulty.
  destruct (kv_fault kv (OpBucket refs_bucket)); simpl; [intros [=]|].
  intros H b. apply (bkt_Put_data _ _ _ _ _ H).
Qed.

(** What a successful [SubmitCommit] does to the store: the write of
    [SaveRef], nothing else. *)
Lemma SubmitCommit_store fs cm fs' cm' :
  SubmitCommit fs cm = ((fs', cm'), Ok tt) →
  SaveRef (fs_kv fs) "HEAD" cm' = (fs_kv fs', Ok tt).
Proof.
  unfold Store.SubmitCommit. pose proof (Head_kv fs) as Hkv.
  destruct (Head fs) as [fs1 [head|e|]]; simpl in Hkv; [|intros [=]..].
  case_decide; [intros [=]|]. rewrite Hkv.
  destruct (kv_Bucket (fs_kv fs) stage_checkpoints_bucket) as [ckBkt|e|];
    [|intros [=]..].
  destruct (bkt_Foreach _ ckBkt histList_fn []) as [histList [[]|e|]];
    [|intros [=]..].
  destruct (changeset_loop _ histList _) as [cs [[]|e|]]; [|intros [=]..].
  destruct (SaveRef _ _ _) as [kv' r] eqn:Es.
  intros [= <- <- ->]. exact Es.
Qed.

(** C9: a successful [SubmitCommit] leaves every bucket other than [refs]
    with the entries it had (the buckets of objects, tree and checkpoints
    and the stage namespaces among them), and changes the [refs] bucket by
    the one entry of HEAD, stored under the lower-cased name. *)
Theorem SubmitCommit_only_writes_HEAD fs cm fs' cm' :
  SubmitCommit fs cm = ((fs', cm'), Ok tt) →
  (∀ b, b ≠ refs_bucket → bkt_data (fs_kv fs') b = bkt_data (fs_kv fs) b)
  ∧ bkt_data (fs_kv fs') refs_bucket
    = <["head"%string := Hash cm']> (bkt_data (fs_kv fs) refs_bucket).
Proof.
  intros H. apply SubmitCommit_store in H.
  pose proof (SaveRef_writes _ _ _ _ H) as Hw. split.
  - intros b Hb. rewrite Hw. by case_decide.
  - rewrite Hw. by case_decide.
Qed.

End CommitFacts.

Lemma SubmitCommit_only_writes_HEAD_witness :
  let kv' := fs_kv Fixture.submitted.1.1 in
  (∀ b, b ≠ refs_bucket → bkt_data kv' b = bkt_data Fixture.kv_staged b)
  ∧ bkt_data kv' refs_bucket
    = <["head"%string := Hash Fixture.commit_1]> (bkt_data Fixture.kv_staged refs_bucket).
Proof.
  apply (SubmitCommit_only_writes_HEAD Fixture.B58String Fixture.multihash_Cast Node
           (Fixture.proto_Unmarshal Fixture.known_nodes) Fixture.wire_GetType 1 2 3
           Fixture.FromProto (NewFilesystem Fixture.kv_staged) Fixture.commit_1
           Fixture.submitted.1.1 Fixture.submitted.1.2).
  vm_compute. reflexivity.
Defined.

(** C1, on the code: [/x.txt] is staged and HEAD is at a commit with
    another root. [SubmitCommit] succeeds and moves HEAD; the staged object
    and the staged tree entry are where they were, and the buckets of
    committed objects and of the committed tree have not received them. *)
Theorem SubmitCommit_leaves_stage :
  let kv' := fs_kv Fixture.submitted.1.1 in
  Fixture.submitted.2 = Ok tt
  ∧ bkt_data kv' refs_bucket !! "head"%string = Some (Hash Fixture.commit_1)
  ∧ bkt_data kv' stage_objects_bucket !! Fixture.B58String (Hash Fixture.file_x)
    = Some (list_byte_of_string "file:/x.txt")
  ∧ bkt_data kv' objects_bucket !! Fixture.B58String (Hash Fixture.file_x) = None
  ∧ bkt_data kv' ["stage"; "tree"]%string !! "x.txt"%string = Some (Hash Fixture.file_x)
  ∧ bkt_data kv' ["tree"]%string !! "x.txt"%string = None.
Proof. repeat split; vm_compute; reflexivity. Qed.

(** ** Staging a node *)

(** Induction along the parent chain of a node. *)
Lemma Node_parent_ind (P : Node → Prop) :
  (∀ n, (∀ p, Parent n = Ok (Some p) → P p) → P n) → ∀ n, P n.
Proof.
  intros Hstep. fix IH 1. intros n. apply Hstep.
  destruct n as [t nm h pth m par ch r cs]. simpl.
  destruct par as [[q|]|e|]; intros p Hp; try discriminate.
  injection Hp as <-. apply IH.
Qed.

Lemma parent_chain_unfold n :
  parent_chain n = n :: match Parent n with
                        | Ok (Some p) => parent_chain p
                        | _ => []
                        end.
Proof. destruct n; reflexivity. Qed.

(** No element that [Split] yields contains a slash. *)
Lemma Split_no_slash s : Forall (λ c, has_slash c = false) (Split s).
Proof.
  induction s as [|c s IH]; simpl.
  - repeat constructor.
  - destruct (Ascii.eqb c slash) eqn:E.
    + constructor; [reflexivity|exact IH].
    + destruct (Split s) as [|x xs]; [repeat constructor; simpl; by rewrite E|].
      inversion IH as [|? ? Hx Hxs]; subst.
      constructor; [simpl; by rewrite E|exact Hxs].
Qed.

Lemma Forall_removelast {A} (P : A → Prop) (l : list A) :
  Forall P l → Forall P (removelast l).
Proof.
  induction 1 as [|x l Hx Hl IH]; simpl; [constructor|].
  destruct l; [constructor|]. by constructor.
Qed.

(** [putPath] never writes into the bucket that [StageNode] calls
    [stage/objects]: the name of that bucket contains a slash. *)
Lemma putPath_stage_objects kv path data kv' r :
  putPath kv path data = (kv', r) →
  bkt_data kv' stage_objects_bucket = bkt_data kv stage_objects_bucket.
Proof.
  unfold putPath, kv_Bucket, faulty.
  destruct (kv_fault kv (OpBucket _)); [by intros [= <- _]|].
  intros H. apply bkt_Put_inv in H as [(_ & _ & ->)|(e & _ & _ & ->)]; [|done].
  unfold bkt_data at 1. simpl. rewrite lookup_insert_ne; [done|].
  intros Heq.
  pose proof (Forall_removelast _ _ (Split_no_slash path)) as Hns.
  rewrite Heq in Hns. inversion Hns as [|? ? Hx _]; subst. discriminate.
Qed.

(** A map after a run of inserts, one per element of a list. *)
Lemma foldl_insert_notin {A V} (key : A → string) (val : A → V) (l : list A)
    (m : gmap string V) k :
  k ∉ map key l →
  foldl (λ m a, <[key a := val a]> m) m l !! k = m !! k.
Proof.
  revert m. induction l as [|x l IH]; intros m Hk; simpl; [done|].
  simpl in Hk. apply not_elem_of_cons in Hk as [Hx Hl].
  rewrite IH by done. by rewrite lookup_insert_ne.
Qed.

Lemma foldl_insert_lookup {A V} (key : A → string) (val : A → V) (l : list A)
    (m : gmap string V) a :
  NoDup (map key l) → a ∈ l →
  foldl (λ m a, <[key a := val a]> m) m l !! key a = Some (val a).
Proof.
  revert m. induction l as [|x l IH]; intros m Hnd Ha; simpl.
  - by apply elem_of_nil in Ha.
  - simpl in Hnd. apply NoDup_cons in Hnd as [Hx Hnd].
    apply elem_of_cons in Ha as [->|Ha]; [|by apply IH].
    rewrite foldl_insert_notin by done. apply lookup_insert_eq.
Qed.

Section StageFacts.

Variable B58String : bytes → string.

Abbreviation StageNode := (Store.StageNode B58String).
Abbreviation staged := (staged_object B58String).

(** The steps of one successful call of [StageNode]. *)
Lemma StageNode_inv fs nd fs' :
  StageNode fs nd = (fs', Ok tt) →
  GetType nd ≠ NodeTypeCommit
  ∧ ∃ data kv1 hashPath kv2,
      Marshal nd = Ok data
      ∧ bkt_Put (fs_kv fs) stage_objects_bucket (B58String (Hash nd)) data = (kv1, Ok tt)
      ∧ putPath kv1 hashPath (Hash nd) = (kv2, Ok tt)
      ∧ ((Parent nd = Ok None
          ∧ fs' = index_insert (set_kv fs kv2) (B58String (Hash nd)) (nodePath nd) nd)
         ∨ (∃ par, Parent nd = Ok (Some par)
                   ∧ StageNode (index_insert (set_kv fs kv2) (B58String (Hash nd))
                                             (nodePath nd) nd) par
                     = (fs', Ok tt))).
Proof.
  destruct nd as [t nm h pth m par ch r cs]. simpl.
  case_decide as Ht; [intros [=]|].
  unfold kv_Bucket, faulty.
  destruct (kv_fault (fs_kv fs) (OpBucket stage_objects_bucket)); simpl; [intros [=]|].
  destruct m as [data|e|]; [|intros [=]..].
  destruct (bkt_Put (fs_kv fs) stage_objects_bucket (B58String h) data)
    as [kv1 [[]|e|]] eqn:Eput; [|intros [=]..].
  match goal with
  | |- context [putPath kv1 ?p h] =>
      destruct (putPath kv1 p h) as [kv2 [[]|e|]] eqn:Epath; [|intros [=]..];
      intros H; split; [done|]; exists data, kv1, p, kv2
  end.
  split; [done|]. split; [done|]. split; [done|].
  destruct par as [[q|]|e|]; try (by inversion H).
  - right. by exists q.
  - left. split; [done|]. by injection H as <-.
Qed.

(** What a successful [StageNode] leaves in [stage/objects]: every node of
    the parent chain passed the commit check, the chain ends at a node
    without parent, and every key either holds what it held or holds the
    serialized form of a node of the chain that has this key. *)
Lemma StageNode_objects nd :
  ∀ fs fs', StageNode fs nd = (fs', Ok tt) →
    Forall (λ a, GetType a ≠ NodeTypeCommit) (parent_chain nd)
    ∧ (∃ root, last (parent_chain nd) = Some root ∧ Parent root = Ok None)
    ∧ ∀ k, bkt_data (fs_kv fs') stage_objects_bucket !! k
           = bkt_data (fs_kv fs) stage_objects_bucket !! k
           ∨ ∃ a data, a ∈ parent_chain nd ∧ B58String (Hash a) = k
                       ∧ Marshal a = Ok data
                       ∧ bkt_data (fs_kv fs') stage_objects_bucket !! k = Some data.
Proof.
  induction nd as [nd IH] using Node_parent_ind. intros fs fs' H.
  apply StageNode_inv in H
    as (Ht & data & kv1 & hashPath & kv2 & Hm & Hput & Hpath & Hpar).
  pose proof (bkt_Put_data _ _ _ _ _ Hput stage_objects_bucket) as Hd1.
  rewrite decide_True in Hd1 by done.
  pose proof (putPath_stage_objects _ _ _ _ _ Hpath) as Hd2.
  rewrite (parent_chain_unfold nd).
  destruct Hpar as [[Hnil ->]|(par & Hsome & Hrec)].
  - rewrite Hnil. simpl. split; [by repeat constructor|].
    split; [by exists nd|].
    intros k. rewrite Hd2, Hd1.
    destruct (decide (k = B58String (Hash nd))) as [->|Hk].
    + right. exists nd, data. rewrite lookup_insert_eq.
      repeat split; [apply list_elem_of_here|done..].
    + left. by rewrite lookup_insert_ne.
  - rewrite Hsome.
    destruct (IH par Hsome _ _ Hrec) as (Hall & (root & Hlast & Hroot) & Hkeys).
    simpl in Hkeys. rewrite Hd2, Hd1 in Hkeys.
    split; [by constructor|]. split.
    { exists root. split; [|done].
      rewrite (parent_chain_unfold par) in Hlast |- *. exact Hlast. }
    intros k. destruct (Hkeys k) as [Hsame|(a & d & Ha & Hk & Hma & Hv)].
    + rewrite Hsame.
      destruct (decide (k = B58String (Hash nd))) as [->|Hk].
      * right. exists nd, data. rewrite lookup_insert_eq.
        repeat split; [apply list_elem_of_here|done..].
      * left. by rewrite lookup_insert_ne.
    + right. exists a, d. repeat split; [by apply list_elem_of_further|done..].
Qed.

Lemma NoDup_map_inj {A B} (f : A → B) (l : list A) x y :
  NoDup (map f l) → x ∈ l → y ∈ l → f x = f y → x = y.
Proof.
  induction l as [|z l IH]; simpl; intros Hnd Hx Hy Hf.
  - by apply elem_of_nil in Hx.
  - apply NoDup_cons in Hnd as [Hz Hnd].
    apply elem_of_cons in Hx as [->|Hx]; apply elem_of_cons in Hy as [->|Hy].
    + done.
    + exfalso. apply Hz. rewrite Hf. apply list_elem_of_In, in_map, list_elem_of_In, Hy.
    + exfalso. apply Hz. rewrite <- Hf. apply list_elem_of_In, in_map, list_elem_of_In, Hx.
    + by apply IH.
Qed.

(** The traces a successful [StageNode] leaves: one entry of
    [stage/objects], one of the trie and one of the index per node of the
    parent chain, written in chain order. *)
Lemma StageNode_effect nd :
  ∀ fs fs', StageNode fs nd = (fs', Ok tt) →
    let chain := parent_chain nd in
    Forall (λ a, Marshal a = Ok (marshalled a)) chain
    ∧ bkt_data (fs_kv fs') stage_objects_bucket
      = foldl (λ m a, <[B58String (Hash a) := marshalled a]> m)
              (bkt_data (fs_kv fs) stage_objects_bucket) chain
    ∧ fs_root fs' = foldl (λ m a, <[nodePath a := a]> m) (fs_root fs) chain
    ∧ fs_index fs'
      = foldl (λ m a, <[B58String (Hash a) := nodePath a]> m) (fs_index fs) chain
    ∧ kv_fault (fs_kv fs') = kv_fault (fs_kv fs).
Proof.
  induction nd as [nd IH] using Node_parent_ind. intros fs fs' H.
  apply StageNode_inv in H
    as (Ht & data & kv1 & hashPath & kv2 & Hm & Hput & Hpath & Hpar).
  pose proof (bkt_Put_data _ _ _ _ _ Hput) as Hd1.
  pose proof (bkt_Put_fault _ _ _ _ _ _ Hput) as Hf1.
  pose proof (putPath_stage_objects _ _ _ _ _ Hpath) as Hd2.
  assert (Hf2 : kv_fault kv2 = kv_fault kv1).
  { revert Hpath. unfold putPath, kv_Bucket, faulty.
    destruct (kv_fault kv1 (OpBucket _)); [by intros [= <- _]|]. apply bkt_Put_fault. }
  assert (Hmd : marshalled nd = data) by (unfold marshalled; by rewrite Hm).
  rewrite (parent_chain_unfold nd).
  destruct Hpar as [[Hnil ->]|(par & Hsome & Hrec)].
  - rewrite Hnil. simpl. rewrite Hd2, Hd1, decide_True, Hmd by done.
    repeat split; [|congruence]. repeat constructor. congruence.
  - rewrite Hsome.
    destruct (IH par Hsome _ _ Hrec) as (Hall & Hobj & Hroot & Hidx & Hf).
    simpl in Hobj, Hroot, Hidx, Hf. rewrite Hd2, Hd1, decide_True in Hobj by done.
    simpl. rewrite Hmd. repeat split; [|done..|congruence].
    constructor; [congruence|done].
Qed.


End StageFacts.


(** * Properties of the compression writer *)

Import Compress.

Section WriterFacts.

Variable maxChunkSize : nat.
Variable currentVersion : Z.
Variable makeHeader : Z → Z → bytes.
Variable AlgorithmFromType : Z → result Algorithm.

Abbreviation writeHeaderIfNeeded := (Compress.writeHeaderIfNeeded currentVersion makeHeader).
Abbreviation ReadFrom_loop := (Compress.ReadFrom_loop maxChunkSize).
Abbreviation ReadFrom := (Compress.ReadFrom maxChunkSize currentVersion makeHeader).
Abbreviation Write_loop := (Compress.Write_loop maxChunkSize).
Abbreviation Write := (Compress.Write maxChunkSize currentVersion makeHeader).
Abbreviation NewWriter := (Compress.NewWriter AlgorithmFromType).
Abbreviation Close := (Compress.Close currentVersion makeHeader).
Abbreviation Writes := (Write_all maxChunkSize currentVersion makeHeader).

(** C8: closing a writer that was never written to emits the header, an
    index of one record, the sentinel at raw offset 0 and compressed offset
    [headerSize], and the trailer, in this order; nothing else, and no
    chunk, is written. *)
Theorem Close_without_Write sink algoType w :
  NewWriter sink algoType = Ok w →
  sink_room sink = None →
  ∃ w', Close w = (w', Ok tt)
        ∧ sink_out (rawW w')
          = sink_out sink ++ makeHeader algoType currentVersion
            ++ record_marshal (mkRecord 0 headerSize)
            ++ trailer_marshal (mkTrailer 0 0 indexChunkSize)
        ∧ index w' = [mkRecord 0 headerSize].
Proof.
  unfold Compress.NewWriter. destruct (AlgorithmFromType algoType) as [a|e|]; simpl; [|done..].
  intros [= <-] Hroom.
  unfold Compress.Close, Compress.writeHeaderIfNeeded, sink_Write. simpl. rewrite Hroom. simpl.
  eexists. split; [reflexivity|]. simpl. split; [|reflexivity].
  by rewrite <- !app_assoc.
Qed.

Lemma set_chunkBuf_id w : set_chunkBuf w (chunkBuf w) = w.
Proof. by destruct w. Qed.

Lemma set_chunkBuf_nil w : chunkBuf w = [] → set_chunkBuf w [] = w.
Proof. intros <-. apply set_chunkBuf_id. Qed.

Lemma set_chunkBuf_twice w b b' : set_chunkBuf (set_chunkBuf w b) b' = set_chunkBuf w b'.
Proof. reflexivity. Qed.

(** [flushBuffer] does not look at the chunk buffer. *)
Lemma flushBuffer_set_chunkBuf w b data :
  flushBuffer (set_chunkBuf w b) data
  = (set_chunkBuf (flushBuffer w data).1 b, (flushBuffer w data).2).
Proof.
  unfold flushBuffer. destruct (Z.of_nat (length data) <=? 0)%Z; [reflexivity|].
  simpl. destruct (Encode (algo w) data) as [enc|e|]; [|reflexivity..].
  destruct (sink_Write (rawW w) enc) as [s [n [e|]]]; reflexivity.
Qed.

Lemma flushBuffer_reliable w data :
  reliable w →
  ∃ w', flushBuffer w data = (w', Ok tt)
        ∧ reliable w' ∧ chunkBuf w' = chunkBuf w
        ∧ headerWritten w' = headerWritten w.
Proof.
  intros [Hroom Henc]. unfold flushBuffer.
  destruct (Z.of_nat (length data) <=? 0)%Z; [by eexists|].
  simpl. destruct (Henc data) as [enc ->].
  unfold sink_Write. rewrite Hroom. simpl.
  eexists. split; [reflexivity|]. by repeat split.
Qed.

Lemma flushBuffer_nil w : flushBuffer w [] = (w, Ok tt).
Proof. reflexivity. Qed.

Hypothesis maxChunkSize_pos : 0 < maxChunkSize.

(** One round of each loop on an input longer than a chunk. *)
Lemma ReadFrom_loop_chunk fuel w input e read w3 :
  maxChunkSize < length input →
  flushBuffer w (take maxChunkSize input) = (w3, Ok tt) →
  ReadFrom_loop (S fuel) w [(input, e)] read
  = ReadFrom_loop fuel w3 [(drop maxChunkSize input, e)]
      (wrap_i64 (read + Z.of_nat maxChunkSize)).
Proof using Type*.
  intros Hlong Hfl. cbn [Compress.ReadFrom_loop reader_Read].
  rewrite (proj2 (Nat.leb_gt _ _) Hlong), Hfl.
  by rewrite length_take, Nat.min_l by lia.
Qed.

Lemma Write_loop_chunk fuel w p w3 :
  chunkBuf w = [] → maxChunkSize ≤ length p →
  flushBuffer w (take maxChunkSize p) = (w3, Ok tt) →
  Write_loop (S fuel) w p = Write_loop fuel w3 (drop maxChunkSize p).
Proof using Type*.
  intros Hbuf Hlong Hfl. cbn [Compress.Write_loop].
  rewrite Hbuf, app_nil_l, Nat.min_r by lia.
  cbn [chunkBuf set_chunkBuf].
  rewrite (proj2 (Nat.ltb_ge _ _)) by (rewrite length_take; lia).
  rewrite take_take, Nat.min_id.
  rewrite (drop_ge (take _ _)) by (rewrite length_take; lia).
  by rewrite set_chunkBuf_twice, (set_chunkBuf_nil w Hbuf), Hfl.
Qed.

(** The last round: what is left fits into the buffer. *)
Lemma ReadFrom_loop_last fuel w input e read w3 :
  e = None ∨ e = Some EOF →
  length input ≤ maxChunkSize → 2 ≤ fuel →
  flushBuffer w input = (w3, Ok tt) →
  ∃ r' cnt, ReadFrom_loop fuel w [(input, e)] read = Some (w3, r', (cnt, Ok tt)).
Proof using Type*.
  intros He Hshort Hfuel Hfl.
  destruct fuel as [|[|fuel]]; [lia..|].
  cbn [Compress.ReadFrom_loop reader_Read].
  rewrite (proj2 (Nat.leb_le _ _) Hshort).
  destruct He as [->| ->]; cbn [is_EOF]; rewrite Hfl; [|eauto].
  cbn [Compress.ReadFrom_loop reader_Read is_EOF length].
  rewrite flushBuffer_nil. eauto.
Qed.

Lemma Write_loop_short fuel w p :
  chunkBuf w = [] → length p < maxChunkSize →
  Write_loop (S fuel) w p = Some (set_chunkBuf w p, Ok tt).
Proof using Type*.
  intros Hbuf Hshort. cbn [Compress.Write_loop].
  rewrite Hbuf, app_nil_l, Nat.min_l, firstn_all by lia.
  cbn [chunkBuf set_chunkBuf].
  by rewrite (proj2 (Nat.ltb_lt _ _) Hshort).
Qed.

(** The two loops on the same input, from the same state with an empty
    chunk buffer: both end without error, and flushing what [Write] left
    in the chunk buffer gives the state [ReadFrom] ended in. *)
Lemma loops_agree e (He : e = None ∨ e = Some EOF) n :
  ∀ input w fuel1 fuel2 read,
    length input ≤ n → n + 2 ≤ fuel1 → n + 1 ≤ fuel2 →
    reliable w → chunkBuf w = [] →
    ∃ w1 r' cnt w2 w2',
      ReadFrom_loop fuel1 w [(input, e)] read = Some (w1, r', (cnt, Ok tt))
      ∧ Write_loop fuel2 w input = Some (w2, Ok tt)
      ∧ flushBuffer w2 (chunkBuf w2) = (w2', Ok tt)
      ∧ set_chunkBuf w2' [] = w1
      ∧ headerWritten w1 = headerWritten w.
Proof using Type*.
  induction n as [|n IH]; intros input w fuel1 fuel2 read Hlen Hf1 Hf2 Hrel Hbuf;
    (destruct (Nat.lt_ge_cases maxChunkSize (length input)) as [Hlong|Hshort];
     [|try clear IH]).
  - lia.
  - (* the input fits into the buffer *)
    destruct (flushBuffer_reliable w input Hrel) as (w3 & Hfl & Hrel3 & Hbuf3 & Hhdr3).
    destruct (ReadFrom_loop_last fuel1 w input e read w3 He Hshort ltac:(lia) Hfl)
      as (r' & cnt & Hread).
    destruct fuel2 as [|fuel2]; [lia|].
    exists w3, r', cnt, (set_chunkBuf w input), (set_chunkBuf w3 input).
    assert (length input = 0) as Hnil by lia.
    rewrite Write_loop_short by (done || lia).
    repeat split; [done| | |done].
    + cbn [chunkBuf set_chunkBuf]. by rewrite flushBuffer_set_chunkBuf, Hfl.
    + rewrite set_chunkBuf_twice. apply set_chunkBuf_nil. congruence.
  - (* more than a chunk left: both loops flush the first chunk *)
    destruct fuel1 as [|fuel1]; [lia|]. destruct fuel2 as [|fuel2]; [lia|].
    destruct (flushBuffer_reliable w (take maxChunkSize input) Hrel)
      as (w3 & Hfl & Hrel3 & Hbuf3 & Hhdr3).
    rewrite (ReadFrom_loop_chunk _ _ _ _ _ _ Hlong Hfl).
    rewrite (Write_loop_chunk fuel2 w input w3 Hbuf ltac:(lia) Hfl).
    destruct (IH (drop maxChunkSize input) w3 fuel1 fuel2
                 (wrap_i64 (read + Z.of_nat maxChunkSize)))
      as (w1 & r' & cnt & w2 & w2' & H1 & H2 & H3 & H4 & H5);
      [rewrite length_drop; lia|lia|lia|done|congruence|].
    exists w1, r', cnt, w2, w2'. repeat split; [done..|congruence].
  - (* the rest fits into the buffer: one last read *)
    destruct (flushBuffer_reliable w input Hrel) as (w3 & Hfl & Hrel3 & Hbuf3 & Hhdr3).
    destruct (ReadFrom_loop_last fuel1 w input e read w3 He Hshort ltac:(lia) Hfl)
      as (r' & cnt & Hread).
    destruct fuel2 as [|[|fuel2]]; [lia..|].
    destruct (Nat.eq_dec (length input) maxChunkSize) as [Heq|Hne].
    + (* exactly a chunk: [Write] flushes it and leaves nothing *)
      assert (Hfl' : flushBuffer w (take maxChunkSize input) = (w3, Ok tt))
        by (by rewrite take_ge by lia).
      rewrite (Write_loop_chunk (S fuel2) w input w3 Hbuf ltac:(lia) Hfl').
      rewrite Write_loop_short by (rewrite ?length_drop; (congruence || lia)).
      rewrite drop_ge by lia.
      rewrite (set_chunkBuf_nil w3) by congruence.
      exists w3, r', cnt, w3, w3. repeat split; [done| | |done].
      * by rewrite Hbuf3, Hbuf.
      * apply set_chunkBuf_nil. congruence.
    + (* less than a chunk: [Write] keeps it in the buffer *)
      rewrite Write_loop_short by (done || lia).
      exists w3, r', cnt, (set_chunkBuf w input), (set_chunkBuf w3 input).
      repeat split; [done| | |done].
      * cbn [chunkBuf set_chunkBuf]. by rewrite flushBuffer_set_chunkBuf, Hfl.
      * rewrite set_chunkBuf_twice. apply set_chunkBuf_nil. congruence.
Qed.

Lemma flushBuffer_headerWritten w data :
  headerWritten (flushBuffer w data).1 = headerWritten w.
Proof.
  unfold flushBuffer. destruct (Z.of_nat (length data) <=? 0)%Z; [reflexivity|].
  simpl. destruct (Encode (algo w) data) as [enc|e|]; [|reflexivity..].
  destruct (sink_Write (rawW w) enc) as [s [n [e|]]]; reflexivity.
Qed.

(** [Close] is the pending header, the flush of the chunk buffer and the
    closing records. *)
Lemma Close_eq w :
  Close w =
  match writeHeaderIfNeeded w with
  | (w, Err e) => (w, Err e)
  | (w, Panic) => (w, Panic)
  | (w, Ok _) =>
      match flushBuffer w (chunkBuf w) with
      | (w, Err e) => (w, Err e)
      | (w, Panic) => (w, Panic)
      | (w, Ok _) => Close_finish w
      end
  end.
Proof. reflexivity. Qed.

(** The closing records do not depend on the chunk buffer. *)
Lemma Close_finish_set_chunkBuf w b :
  Close_finish (set_chunkBuf w b)
  = (set_chunkBuf (Close_finish w).1 b, (Close_finish w).2).
Proof.
  unfold Close_finish. cbn [addRecordToIndex set_indexSize set_chunkBuf index
    w_trailer tr_indexSize rawW chunkBuf rawOff zipOff algo algoType headerWritten].
  destruct (marshal_index _ _) as [indexBuf|e|]; [|reflexivity..].
  destruct (sink_Write (rawW w) indexBuf) as [s [n [e|]]]; [reflexivity|].
  cbn [set_rawW w_trailer tr_indexSize rawW].
  destruct (negb _); [reflexivity|].
  destruct (sink_Write s _) as [s' [n' [e|]]]; reflexivity.
Qed.

(** Appending to a filled chunk buffer is writing buffer and input at once. *)
Lemma Write_loop_merge n :
  ∀ w p f f', reliable w → length p + length (chunkBuf w) ≤ n → n < f → n < f' →
    ∃ w', Write_loop f w p = Some (w', Ok tt)
          ∧ Write_loop f' (set_chunkBuf w []) (chunkBuf w ++ p) = Some (w', Ok tt)
          ∧ reliable w' ∧ headerWritten w' = headerWritten w.
Proof using Type*.
  induction n as [n IH] using lt_wf_ind. intros w p f f' Hrel Hn Hf Hf'.
  destruct f as [|f]; [lia|]. destruct f' as [|f']; [lia|].
  cbn [Compress.Write_loop chunkBuf set_chunkBuf]. rewrite app_nil_l.
  set (b := chunkBuf w) in *.
  destruct (Nat.lt_ge_cases (length (b ++ p)) maxChunkSize) as [Hshort|Hlong].
  - rewrite length_app in Hshort.
    rewrite (Nat.min_l (length p)) by lia. rewrite (Nat.min_l (length (b ++ p)))
      by (rewrite length_app; lia).
    rewrite !firstn_all.
    rewrite !(proj2 (Nat.ltb_lt _ _)) by (rewrite length_app; lia).
    exists (set_chunkBuf w (b ++ p)). repeat split; apply Hrel.
  - assert (Hpre : take maxChunkSize (b ++ take (length p `min` maxChunkSize) p)
                   = take maxChunkSize (b ++ p)
                 ∧ maxChunkSize ≤ length (b ++ take (length p `min` maxChunkSize) p)).
    { rewrite length_app in Hlong.
      destruct (Nat.le_ge_cases (length p) maxChunkSize) as [Hp|Hp].
      - rewrite Nat.min_l, firstn_all by lia. split; [done|]. rewrite length_app. lia.
      - rewrite Nat.min_r by lia. split.
        + rewrite !take_app. f_equal. rewrite take_take. f_equal. lia.
        + rewrite length_app, length_take. lia. }
    destruct Hpre as [Hchunk Hlen].
    rewrite (proj2 (Nat.ltb_ge _ _) Hlen).
    rewrite (Nat.min_r (length (b ++ p))) by lia.
    rewrite (proj2 (Nat.ltb_ge _ _)) by (rewrite length_take; lia).
    rewrite take_take, Nat.min_id.
    rewrite (drop_ge (take _ (b ++ p))) by (rewrite length_take; lia).
    rewrite Hchunk, !flushBuffer_set_chunkBuf.
    destruct (flushBuffer_reliable w (take maxChunkSize (b ++ p)) Hrel)
      as (w3 & Hfl & Hrel3 & Hbuf3 & Hhdr3).
    rewrite Hfl. cbn [fst snd].
    set (r := drop maxChunkSize (b ++ take (length p `min` maxChunkSize) p)).
    set (q := drop (length p `min` maxChunkSize) p).
    assert (Hrq : r ++ q = drop maxChunkSize (b ++ p)).
    { subst r q.
      transitivity (drop maxChunkSize
                      ((b ++ take (length p `min` maxChunkSize) p)
                       ++ drop (length p `min` maxChunkSize) p)).
      - symmetry. by apply drop_app_le.
      - by rewrite <- app_assoc, take_drop. }
    assert (Hm : length q + length r < n).
    { pose proof (f_equal length Hrq) as Hl.
      rewrite length_app, length_drop, length_app in Hl.
      rewrite length_app in Hlong. lia. }
    destruct (IH (length q + length r) Hm (set_chunkBuf w3 r) q f f')
      as (w' & H1 & H2 & Hrel' & Hhdr'); [done|simpl; lia|lia|lia|].
    exists w'. cbn [chunkBuf set_chunkBuf] in H2. rewrite Hrq in H2.
    repeat split; [done|done|apply Hrel'|apply Hrel'|]. simpl in Hhdr'. congruence.
Qed.

(** Writing an input and then more is writing both at once. *)
Lemma Write_loop_app_short n T w p :
  reliable w → chunkBuf w = [] → length T ≤ n → length T < maxChunkSize →
  ∃ wk w',
    Write_loop (S n) w T = Some (wk, Ok tt)
    ∧ reliable wk ∧ headerWritten wk = headerWritten w
    ∧ Write_loop (S (length p + length (chunkBuf wk))) wk p = Some (w', Ok tt)
    ∧ Write_loop (S (n + length p)) w (T ++ p) = Some (w', Ok tt)
    ∧ reliable w' ∧ headerWritten w' = headerWritten w.
Proof using Type*.
  intros Hrel Hbuf Hlen Hshort.
  rewrite (Write_loop_short n w T Hbuf Hshort).
  destruct (Write_loop_merge (length p + length T) (set_chunkBuf w T) p
              (S (length p + length T)) (S (n + length p)))
    as (w' & H1 & H2 & Hrel' & Hhdr'); [done|simpl; lia|lia|lia|].
  exists (set_chunkBuf w T), w'.
  rewrite set_chunkBuf_twice, (set_chunkBuf_nil w Hbuf) in H2.
  change (chunkBuf (set_chunkBuf w T)) with T in *.
  split; [done|]. split; [done|]. split; [done|]. split; [done|].
  split; [done|]. split; [done|]. exact Hhdr'.
Qed.

Lemma Write_loop_app n :
  ∀ T w p, reliable w → chunkBuf w = [] → length T ≤ n →
    ∃ wk w',
      Write_loop (S n) w T = Some (wk, Ok tt)
      ∧ reliable wk ∧ headerWritten wk = headerWritten w
      ∧ Write_loop (S (length p + length (chunkBuf wk))) wk p = Some (w', Ok tt)
      ∧ Write_loop (S (n + length p)) w (T ++ p) = Some (w', Ok tt)
      ∧ reliable w' ∧ headerWritten w' = headerWritten w.
Proof using Type*.
  induction n as [|n IH]; intros T w p Hrel Hbuf Hlen.
  { apply Write_loop_app_short; [done..|lia]. }
  destruct (Nat.lt_ge_cases (length T) maxChunkSize) as [Hshort|Hlong].
  { by apply Write_loop_app_short. }
  destruct (flushBuffer_reliable w (take maxChunkSize T) Hrel)
    as (w3 & Hfl & Hrel3 & Hbuf3 & Hhdr3).
  rewrite (Write_loop_chunk (S n) w T w3 Hbuf Hlong Hfl).
  assert (Hfl' : flushBuffer w (take maxChunkSize (T ++ p)) = (w3, Ok tt))
    by (by rewrite take_app_le by lia).
  rewrite (Write_loop_chunk (S n + length p) w (T ++ p) w3
             Hbuf ltac:(rewrite length_app; lia) Hfl').
  rewrite drop_app_le by lia.
  destruct (IH (drop maxChunkSize T) w3 p Hrel3 ltac:(congruence)
               ltac:(rewrite length_drop; lia))
    as (wk & w' & H1 & Hrelk & Hhdrk & H2 & H3 & Hrel' & Hhdr').
  exists wk, w'.
  split; [done|]. split; [done|]. split; [congruence|]. split; [done|].
  split; [done|]. split; [done|]. congruence.
Qed.

Section Feed.

Variable w0 : Writer.
Hypothesis w0_reliable : reliable w0.
Hypothesis w0_chunkBuf : chunkBuf w0 = [].
Hypothesis w0_header : headerWritten w0 = true.

(** Successive calls of [Write] leave the writer where one [Write] of the
    concatenated pieces leaves it. *)
Lemma Write_all_concat ps :
  ∀ T wk,
    Write_loop (S (length T)) w0 T = Some (wk, Ok tt) →
    ∃ w2, Writes wk ps = Some (w2, Ok tt)
          ∧ Write_loop (S (length (T ++ concat ps))) w0 (T ++ concat ps)
            = Some (w2, Ok tt).
Proof using Type*.
  induction ps as [|p ps IH]; intros T wk HT.
  - exists wk. simpl. by rewrite app_nil_r.
  - destruct (Write_loop_app (length T) T w0 p w0_reliable w0_chunkBuf ltac:(lia))
      as (wk' & w' & H1 & Hrelk & Hhdrk & H2 & H3 & Hrel' & Hhdr').
    rewrite HT in H1. injection H1 as <-.
    destruct (IH (T ++ p) w') as (w2 & Hall & Hloop).
    { by rewrite length_app. }
    exists w2. cbn [Write_all concat]. rewrite app_assoc. split; [|done].
    unfold Compress.Write, Compress.writeHeaderIfNeeded.
    rewrite Hhdrk, w0_header, H2. exact Hall.
Qed.

End Feed.

Lemma Close_after_header w wh :
  writeHeaderIfNeeded w = (wh, Ok tt) → headerWritten wh = true →
  Close w = Close wh.
Proof.
  intros Hw Hh. rewrite !Close_eq, Hw.
  unfold Compress.writeHeaderIfNeeded. by rewrite Hh.
Qed.

(** C7, as amended: on a fresh writer whose sink and algorithm do not fail,
    feeding an input through [ReadFrom] from a reader that fills the buffer
    of [maxChunkSize] bytes on every read until the input is used up, and
    feeding the same input through calls of [Write], in pieces of any
    sizes, leave after [Close] the same output stream, the same index and
    the same result. *)
Theorem ReadFrom_matches_Write_on_full_reads sink algoType w input e writes :
  NewWriter sink algoType = Ok w →
  sink_room sink = None →
  (∀ data, is_Ok (Encode (algo w) data)) →
  e = None ∨ e = Some EOF →
  concat writes = input →
  ∃ w1 r' cnt w2,
    ReadFrom w [(input, e)] = Some (w1, r', (cnt, Ok tt))
    ∧ Writes w writes = Some (w2, Ok tt)
    ∧ rawW (Close w1).1 = rawW (Close w2).1
    ∧ index (Close w1).1 = index (Close w2).1
    ∧ (Close w1).2 = (Close w2).2.
Proof using Type*.
  unfold Compress.NewWriter.
  destruct (AlgorithmFromType algoType) as [a|err|]; simpl; [|done..].
  intros [= <-] Hroom Henc He Hcat. simpl in Henc.
  set (w := mkWriter sink [] [] 0 0 (mkTrailer 0 0 0) a algoType false).
  destruct (writeHeaderIfNeeded w) as [wh rh] eqn:Ehdr.
  assert (rh = Ok tt ∧ reliable wh ∧ chunkBuf wh = [] ∧ headerWritten wh = true)
    as (-> & Hrel & Hbuf & Hhdr).
  { revert Ehdr. unfold Compress.writeHeaderIfNeeded, sink_Write. simpl.
    rewrite Hroom. intros [= <- <-]. by repeat split. }
  (* the reader side and one [Write] of the whole input *)
  destruct (loops_agree e He (length input) input wh
              (reader_fuel [(input, e)]) (S (length input)) 0%Z)
    as (w1 & r' & cnt & ws & ws' & H1 & H2 & H3 & H4 & H5);
    [lia|unfold reader_fuel; simpl; lia|lia|done|done|].
  assert (Hclose : rawW (Close w1).1 = rawW (Close ws).1
                   ∧ index (Close w1).1 = index (Close ws).1
                   ∧ (Close w1).2 = (Close ws).2).
  { assert (Hh2 : headerWritten ws = true).
    { rewrite <- (flushBuffer_headerWritten ws (chunkBuf ws)), H3. simpl.
      subst w1. simpl in H5. congruence. }
    assert (Hh1 : headerWritten w1 = true) by congruence.
    rewrite !Close_eq. unfold Compress.writeHeaderIfNeeded. rewrite Hh1, Hh2, H3.
    subst w1. cbn [chunkBuf set_chunkBuf]. rewrite flushBuffer_nil.
    rewrite Close_finish_set_chunkBuf. by destruct (Close_finish ws'). }
  (* the successive calls of [Write] *)
  assert (Hwrites : ∃ w2, Writes w writes = Some (w2, Ok tt) ∧ Close w2 = Close ws).
  { destruct writes as [|p ps].
    - simpl in Hcat. subst input. exists w. split; [done|].
      rewrite (Close_after_header w wh Ehdr Hhdr). f_equal.
      rewrite (Write_loop_short) in H2 by (done || simpl; lia).
      injection H2 as <-. symmetry. by apply set_chunkBuf_nil.
    - destruct (Write_all_concat wh Hrel Hbuf Hhdr (p :: ps) [] wh) as (w2 & Hall & Hloop).
      { rewrite (Write_loop_short) by (done || simpl; lia).
        by rewrite set_chunkBuf_nil. }
      rewrite app_nil_l, Hcat, H2 in Hloop. injection Hloop as <-.
      exists ws. split; [|done].
      revert Hall. cbn [Write_all]. unfold Compress.Write. rewrite Ehdr.
      unfold Compress.writeHeaderIfNeeded. by rewrite Hhdr. }
  destruct Hwrites as (w2 & Hall & Hsame).
  exists w1, r', cnt, w2. unfold Compress.ReadFrom. rewrite Ehdr, H1, Hsame.
  by repeat split; try apply Hclose.
Qed.

End WriterFacts.

Lemma Close_without_Write_witness :
  ∃ w', WriterFixture.Close WriterFixture.fresh = (w', Ok tt)
        ∧ sink_out (rawW w')
          = [] ++ WriterFixture.makeHeader 0 WriterFixture.currentVersion
            ++ record_marshal (mkRecord 0 headerSize)
            ++ trailer_marshal (mkTrailer 0 0 indexChunkSize)
        ∧ index w' = [mkRecord 0 headerSize].
Proof.
  apply (Close_without_Write WriterFixture.currentVersion WriterFixture.makeHeader
           WriterFixture.AlgorithmFromType (mkSink [] None) 0 WriterFixture.fresh);
    reflexivity.
Defined.

Lemma ReadFrom_matches_Write_witness :
  ∃ w1 r' cnt w2,
    WriterFixture.ReadFrom WriterFixture.fresh [(list_byte_of_string "abc", None)]
    = Some (w1, r', (cnt, Ok tt))
    ∧ Write_all WriterFixture.maxChunkSize WriterFixture.currentVersion
        WriterFixture.makeHeader WriterFixture.fresh
        [list_byte_of_string "a"; list_byte_of_string "bc"]
      = Some (w2, Ok tt)
    ∧ rawW (WriterFixture.Close w1).1 = rawW (WriterFixture.Close w2).1
    ∧ index (WriterFixture.Close w1).1 = index (WriterFixture.Close w2).1
    ∧ (WriterFixture.Close w1).2 = (WriterFixture.Close w2).2.
Proof.
  apply (ReadFrom_matches_Write_on_full_reads WriterFixture.maxChunkSize
           WriterFixture.currentVersion WriterFixture.makeHeader
           WriterFixture.AlgorithmFromType
           ltac:(unfold WriterFixture.maxChunkSize; lia)
           (mkSink [] None) 0 WriterFixture.fresh
           (list_byte_of_string "abc") None
           [list_byte_of_string "a"; list_byte_of_string "bc"]).
  - reflexivity.
  - reflexivity.
  - intros data. by exists data.
  - by left.
  - reflexivity.
Defined.

(** C7 as stated fails for a reader that delivers short reads: the input
    [ab] read as [a] and then [b] makes two chunks and an index of three
    records, where [Write] makes one chunk and an index of two. *)
Lemma ReadFrom_short_reads_counterexample :
  WriterFixture.output_via_ReadFrom
    [(list_byte_of_string "a", None); (list_byte_of_string "b", None)]
  ≠ WriterFixture.output_via_Write (list_byte_of_string "a" ++ list_byte_of_string "b").
Proof.
  intros H. apply (f_equal (fmap (M := option) length)) in H.
  vm_compute in H. discriminate.
Qed.

(** * Further properties of the store *)

(** ** Metadata *)

(** X1. A value put under a metadata key is what [MetadataGet] returns for that
    key afterwards; the other keys, and every other bucket, keep what they
    had. *)
Theorem MetadataPut_MetadataGet kv key value kv' :
  MetadataPut kv key value = (kv', Ok tt) →
  (∀ key', kv_fault kv (OpGet ["metadata"%string] key') = None →
     MetadataGet kv' key'
     = Ok (if decide (key' = key) then Some value
           else bkt_data kv ["metadata"%string] !! key'))
  ∧ (∀ b, b ≠ ["metadata"%string] → bkt_data kv' b = bkt_data kv b).
Proof.
  unfold MetadataPut, MetadataGet, kv_Bucket, bkt_Get, faulty.
  destruct (kv_fault kv (OpBucket ["metadata"%string])) eqn:Eb; [intros [=]|].
  intros H. pose proof (bkt_Put_fault _ _ _ _ _ _ H) as Hf.
  pose proof (bkt_Put_data _ _ _ _ _ H) as Hd. split.
  - intros key' Hg. rewrite Hf, Eb. simpl. rewrite Hg.
    rewrite Hd, decide_True by done. f_equal.
    case_decide as Hk; [subst; apply lookup_insert_eq|by apply lookup_insert_ne].
  - intros b Hb. rewrite Hd. by case_decide.
Qed.

Lemma MetadataPut_MetadataGet_witness :
  MetadataGet
    (mkKV {[ ["metadata"%string] := {[ "id"%string := list_byte_of_string "alice" ]} ]}
          no_fault) "id"
  = Ok (Some (list_byte_of_string "alice")).
Proof.
  destruct (MetadataPut_MetadataGet empty_kv "id" (list_byte_of_string "alice")
              (mkKV {[ ["metadata"%string] :=
                         {[ "id"%string := list_byte_of_string "alice" ]} ]} no_fault))
    as [Hget _]; [vm_compute; reflexivity|].
  rewrite (Hget "id"%string); [|reflexivity]. by rewrite decide_True.
Defined.

(** ** [NextID]: what it touches *)

Section NextIDMore.
Local Open Scope Z_scope.

(** X2. Whatever its outcome, [NextID] leaves every bucket but [stats] and every
    key of [stats] but [node-count] as they were; an id other than 0 that it
    returns is the counter it has persisted. *)
Theorem NextID_touches_only_node_count kv kv' r :
  NextID kv = (kv', r) →
  (∀ b, b ≠ stats_bucket → bkt_data kv' b = bkt_data kv b)
  ∧ (∀ k, k ≠ "node-count"%string →
       bkt_data kv' stats_bucket !! k = bkt_data kv stats_bucket !! k)
  ∧ (∀ id, r = Ok id → id ≠ 0 → node_count kv' = id).
Proof.
  unfold NextID, kv_Bucket, bkt_Get, faulty.
  destruct (kv_fault kv (OpBucket stats_bucket)); [by intros [= <- <-]|].
  destruct (kv_fault kv (OpGet stats_bucket "node-count")); [by intros [= <- <-]|].
  simpl.
  set (cnt := match bkt_data kv stats_bucket !! "node-count"%string with
              | Some b => (λ c, wrap_u64 (c + 1)) <$> Uint64 b
              | None => Some 1
              end).
  assert (Hcnt : ∀ c, cnt = Some c → 0 <= c < 2 ^ 64).
  { subst cnt. intros c. destruct (bkt_data kv stats_bucket !! _) as [b|].
    - destruct (Uint64 b); simpl; [|discriminate]. intros [= <-].
      unfold wrap_u64. apply Z.mod_pos_bound. lia.
    - intros [= <-]. lia. }
  destruct cnt as [c|]; [|by intros [= <- <-]].
  destruct (bkt_Put kv stats_bucket "node-count" (PutUint64 c)) as [kv1 rp] eqn:Eput.
  apply bkt_Put_inv in Eput as [(-> & _ & ->)|(e & -> & _ & ->)].
  - intros [= <- <-]. repeat split.
    + intros b Hb. unfold bkt_data at 1. simpl. by rewrite lookup_insert_ne.
    + intros k Hk. unfold bkt_data at 1. simpl.
      rewrite lookup_insert_eq. simpl. by rewrite lookup_insert_ne.
    + intros id [= <-] _. unfold node_count, bkt_data at 1. simpl.
      rewrite lookup_insert_eq. simpl. rewrite lookup_insert_eq.
      by rewrite Uint64_PutUint64 by auto.
  - intros [= <- <-]. repeat split. intros id [= <-] Hid. done.
Qed.

End NextIDMore.

Lemma NextID_touches_only_node_count_witness :
  node_count (kv_with_count 6 no_fault) = 6%Z.
Proof.
  destruct (NextID_touches_only_node_count (kv_with_count 5 no_fault)
              (kv_with_count 6 no_fault) (Ok 6%Z)) as (_ & _ & H);
    [vm_compute; reflexivity|].
  apply H; [reflexivity|discriminate].
Defined.

(** ** Nodes and references *)

Section NodeFacts.

Variable B58String : bytes → string.
Variable multihash_Cast : option bytes → result bytes.
Variable WireNode : Type.
Variable proto_Unmarshal : bytes → result WireNode.
Variable wire_GetType : WireNode → Z.
Variables NodeType_FILE NodeType_DIRECTORY NodeType_COMMIT : Z.
Variable FromProto : NodeType → WireNode → result Node.

Abbreviation unmarshalNode :=
  (Store.unmarshalNode WireNode proto_Unmarshal wire_GetType
     NodeType_FILE NodeType_DIRECTORY NodeType_COMMIT FromProto).
Abbreviation loadNode :=
  (Store.loadNode B58String WireNode proto_Unmarshal wire_GetType
     NodeType_FILE NodeType_DIRECTORY NodeType_COMMIT FromProto).
Abbreviation NodeByHash :=
  (Store.NodeByHash B58String WireNode proto_Unmarshal wire_GetType
     NodeType_FILE NodeType_DIRECTORY NodeType_COMMIT FromProto).
Abbreviation ResolveRef :=
  (Store.ResolveRef B58String multihash_Cast WireNode proto_Unmarshal wire_GetType
     NodeType_FILE NodeType_DIRECTORY NodeType_COMMIT FromProto).
Abbreviation Head :=
  (Store.Head B58String multihash_Cast WireNode proto_Unmarshal wire_GetType
     NodeType_FILE NodeType_DIRECTORY NodeType_COMMIT FromProto).
Abbreviation SubmitCommit :=
  (Store.SubmitCommit B58String multihash_Cast WireNode proto_Unmarshal wire_GetType
     NodeType_FILE NodeType_DIRECTORY NodeType_COMMIT FromProto).
Abbreviation FileByHash :=
  (Store.FileByHash B58String WireNode proto_Unmarshal wire_GetType
     NodeType_FILE NodeType_DIRECTORY NodeType_COMMIT FromProto).
Abbreviation DirectoryByHash :=
  (Store.DirectoryByHash B58String WireNode proto_Unmarshal wire_GetType
     NodeType_FILE NodeType_DIRECTORY NodeType_COMMIT FromProto).
Abbreviation CommitByHash :=
  (Store.CommitByHash B58String WireNode proto_Unmarshal wire_GetType
     NodeType_FILE NodeType_DIRECTORY NodeType_COMMIT FromProto).

(** X3. [loadNode] takes the committed object when there is one, whatever is
    staged under the same hash; it takes the staged object when nothing is
    committed; and it fails with [ErrNoHashFound], naming both buckets, when
    the hash is in neither. *)
Theorem loadNode_committed_first kv hash :
  objects_readable kv (B58String hash) →
  loadNode kv hash =
  match bkt_data kv objects_bucket !! B58String hash,
        bkt_data kv stage_objects_bucket !! B58String hash with
  | Some d, _ => unmarshalNode d
  | None, Some d => unmarshalNode d
  | None, None => Err (ErrNoHashFound (B58String hash) "objects and stage/objects")
  end.
Proof.
  intros (H1 & H2 & H3 & H4).
  unfold Store.loadNode, loadNode_probe, kv_Bucket, bkt_Get, faulty.
  rewrite H1. simpl. rewrite H2. simpl.
  destruct (bkt_data kv objects_bucket !! B58String hash); [reflexivity|].
  rewrite H3. simpl. rewrite H4. simpl.
  destruct (bkt_data kv stage_objects_bucket !! B58String hash); reflexivity.
Qed.

(** X4. A node that [NodeByHash] has returned once is returned again for the
    same hash from the cache: the store is not asked, whatever it holds by
    then, and the handle stays as it is. *)
Theorem NodeByHash_cached fs hash fs' nd :
  NodeByHash fs hash = (fs', Ok nd) →
  ∀ kv, NodeByHash (set_kv fs' kv) hash = (set_kv fs' kv, Ok nd).
Proof.
  unfold Store.NodeByHash.
  destruct (fs_index fs !! B58String hash ≫= _) as [nd0|] eqn:Ec.
  - intros [= <- <-] kv. unfold set_kv. cbn [fs_index fs_root fs_kv]. by rewrite Ec.
  - destruct (loadNode (fs_kv fs) hash) as [nd1|e|]; [|by intros [=]..].
    intros [= <- <-] kv. unfold set_kv, index_insert.
    cbn [fs_index fs_root fs_kv]. rewrite lookup_insert_eq. simpl.
    by rewrite lookup_insert_eq.
Qed.

(** X5. A hash that is neither cached nor stored makes [NodeByHash] fail with
    [ErrNoHashFound], and the handle stays as it is. *)
Theorem NodeByHash_unknown fs hash :
  objects_readable (fs_kv fs) (B58String hash) →
  fs_index fs !! B58String hash = None →
  bkt_data (fs_kv fs) objects_bucket !! B58String hash = None →
  bkt_data (fs_kv fs) stage_objects_bucket !! B58String hash = None →
  NodeByHash fs hash
  = (fs, Err (ErrNoHashFound (B58String hash) "objects and stage/objects")).
Proof.
  intros (H1 & H2 & H3 & H4) Hi Ho Hs. unfold Store.NodeByHash. rewrite Hi. simpl.
  unfold Store.loadNode, loadNode_probe, kv_Bucket, bkt_Get, faulty.
  rewrite H1. simpl. rewrite H2. simpl. rewrite Ho.
  rewrite H3. simpl. rewrite H4. simpl. by rewrite Hs.
Qed.

(** X6. For a hash that [NodeByHash] resolves, the accessor of the node's type
    returns the node and the two others fail with [ErrBadNode]; all three
    leave the handle as [NodeByHash] does. *)
Theorem typed_accessors fs hash fs' nd :
  NodeByHash fs hash = (fs', Ok nd) →
  FileByHash fs hash
  = (fs', if decide (GetType nd = NodeTypeFile) then Ok nd else Err ErrBadNode)
  ∧ DirectoryByHash fs hash
    = (fs', if decide (GetType nd = NodeTypeDirectory) then Ok nd else Err ErrBadNode)
  ∧ CommitByHash fs hash
    = (fs', if decide (GetType nd = NodeTypeCommit) then Ok nd else Err ErrBadNode)
  ∧ (match GetType nd with
     | NodeTypeFile => FileByHash fs hash
     | NodeTypeDirectory => DirectoryByHash fs hash
     | NodeTypeCommit => CommitByHash fs hash
     end = (fs', Ok nd)).
Proof.
  intros H. unfold Store.FileByHash, Store.DirectoryByHash, Store.CommitByHash, assert_type.
  rewrite H. repeat split; try (by case_decide).
  destruct (GetType nd); by rewrite decide_True.
Qed.

(** X7. What [SaveRef] stored under a name of ASCII characters, [ResolveRef]
    finds under that name in any spelling of upper and lower case of its
    letters: it hands the stored hash to [multihash.Cast] and resolves the
    result. *)
Theorem SaveRef_ResolveRef fs refname nd kv' name :
  is_ascii refname → is_ascii name →
  SaveRef (fs_kv fs) refname nd = (kv', Ok tt) →
  ToLower name = ToLower refname →
  kv_fault (fs_kv fs) (OpGet refs_bucket (ToLower refname)) = None →
  ResolveRef (set_kv fs kv') name =
  match multihash_Cast (Some (Hash nd)) with
  | Ok mh => NodeByHash (set_kv fs kv') mh
  | Err e => (set_kv fs kv', Err e)
  | Panic => (set_kv fs kv', Panic)
  end.
Proof.
  intros _ _ Hs Hn Hg. pose proof (SaveRef_writes _ _ _ _ Hs refs_bucket) as Hd.
  rewrite decide_True in Hd by done.
  unfold SaveRef, kv_Bucket, faulty in Hs.
  destruct (kv_fault (fs_kv fs) (OpBucket refs_bucket)) eqn:Eb; [by inversion Hs|].
  simpl in Hs. pose proof (bkt_Put_fault _ _ _ _ _ _ Hs) as Hf.
  unfold Store.ResolveRef, kv_Bucket, bkt_Get, faulty. simpl fs_kv.
  rewrite Hf, Eb. simpl. rewrite Hn, Hg, Hd, lookup_insert_eq. reflexivity.
Qed.

End NodeFacts.

(** ** Commits, continued *)

Lemma foreach_histList_fn entries histList :
  foreach_entries histList_fn entries histList
  = (histList ++ map (λ e : string * bytes, ["stage"; "checkpoints"; e.1]%string) entries,
     Ok tt).
Proof.
  revert histList. induction entries as [|[k v] entries IH]; intros histList; simpl.
  - by rewrite app_nil_r.
  - rewrite IH. by rewrite <- app_assoc.
Qed.

Lemma foreach_changeset_fn IDLink entries cs cs' :
  foreach_entries (changeset_fn IDLink) entries cs = (cs', Ok tt) →
  cs' = cs ++ map (λ e : string * bytes, mkCheckpointLink IDLink (parsed e.1)) entries.
Proof.
  revert cs. induction entries as [|[k v] entries IH]; intros cs; simpl.
  - intros [= <-]. by rewrite app_nil_r.
  - unfold changeset_fn at 1, parsed at 1.
    destruct (ParseUint16 k) as [index|e|]; [|intros [=]..].
    intros H. rewrite (IH _ H). by rewrite <- app_assoc.
Qed.

Lemma changeset_loop_links kv (keys : list (string * bytes)) cs cs' :
  changeset_loop kv (map (λ e : string * bytes, ["stage"; "checkpoints"; e.1]%string) keys) cs
  = (cs', Ok tt) →
  cs' = cs ++ flat_map
                (λ e1 : string * bytes,
                   map (λ e2 : string * bytes,
                          mkCheckpointLink (parsed e1.1) (parsed e2.1))
                       (bkt_entries kv ["stage"; "checkpoints"; e1.1]%string))
                keys.
Proof.
  revert cs. induction keys as [|[k v] keys IH]; intros cs; simpl.
  - intros [= <-]. by rewrite app_nil_r.
  - unfold parsed at 1.
    destruct (ParseUint16 k) as [IDLink|e|]; [|intros [=]..].
    unfold kv_Bucket, faulty, bkt_Foreach.
    destruct (kv_fault kv (OpBucket _)); [intros [=]|].
    destruct (kv_fault kv (OpForeach _)); [intros [=]|].
    destruct (foreach_entries (changeset_fn IDLink) _ cs) as [cs1 [[]|e|]] eqn:E;
      [|intros [=]..].
    apply foreach_changeset_fn in E as ->.
    intros H. rewrite (IH _ H). by rewrite <- app_assoc.
Qed.

Lemma foreach_changeset_fn_extends IDLink entries cs cs' r :
  foreach_entries (changeset_fn IDLink) entries cs = (cs', r) →
  ∃ extra, cs' = cs ++ extra.
Proof.
  revert cs. induction entries as [|[k v] entries IH]; intros cs; simpl.
  - intros [= <- _]. exists []. by rewrite app_nil_r.
  - unfold changeset_fn at 1.
    destruct (ParseUint16 k) as [index|e|];
      [|intros [= <- _]; exists []; by rewrite app_nil_r..].
    intros H. destruct (IH _ H) as [extra ->]. eexists. by rewrite <- app_assoc.
Qed.

Lemma changeset_loop_extends kv histList cs cs' r :
  changeset_loop kv histList cs = (cs', r) → ∃ extra, cs' = cs ++ extra.
Proof.
  revert cs. induction histList as [|histKey histList IH]; intros cs; simpl.
  - intros [= <- _]. exists []. by rewrite app_nil_r.
  - destruct (ParseUint16 _) as [IDLink|e|];
      [|intros [= <- _]; exists []; by rewrite app_nil_r..].
    unfold kv_Bucket, faulty, bkt_Foreach.
    destruct (kv_fault kv (OpBucket _));
      [intros [= <- _]; exists []; by rewrite app_nil_r|].
    destruct (kv_fault kv (OpForeach _));
      [intros [= <- _]; exists []; by rewrite app_nil_r|].
    destruct (foreach_entries (changeset_fn IDLink) _ cs) as [cs1 r1] eqn:E.
    apply foreach_changeset_fn_extends in E as [extra ->].
    destruct r1 as [[]|e|]; [|intros [= <- _]; eauto..].
    intros H. destruct (IH _ H) as [extra' ->]. eexists. by rewrite <- app_assoc.
Qed.

Lemma set_changeset_id cm : set_changeset cm (changeset cm) = cm.
Proof. by destruct cm. Qed.

Section CommitMore.

Variable B58String : bytes → string.
Variable multihash_Cast : option bytes → result bytes.
Variable WireNode : Type.
Variable proto_Unmarshal : bytes → result WireNode.
Variable wire_GetType : WireNode → Z.
Variables NodeType_FILE NodeType_DIRECTORY NodeType_COMMIT : Z.
Variable FromProto : NodeType → WireNode → result Node.

Abbreviation NodeByHash :=
  (Store.NodeByHash B58String WireNode proto_Unmarshal wire_GetType
     NodeType_FILE NodeType_DIRECTORY NodeType_COMMIT FromProto).
Abbreviation Head :=
  (Store.Head B58String multihash_Cast WireNode proto_Unmarshal wire_GetType
     NodeType_FILE NodeType_DIRECTORY NodeType_COMMIT FromProto).
Abbreviation SubmitCommit :=
  (Store.SubmitCommit B58String multihash_Cast WireNode proto_Unmarshal wire_GetType
     NodeType_FILE NodeType_DIRECTORY NodeType_COMMIT FromProto).

(** The steps of [SubmitCommit] up to the write of HEAD. *)
Lemma SubmitCommit_inv fs cm fs' cm' r :
  SubmitCommit fs cm = ((fs', cm'), r) →
  (r ≠ Ok tt ∧ fs_kv fs' = fs_kv fs
   ∧ ∃ extra, cm' = set_changeset cm (changeset cm ++ extra))
  ∨ (∃ fs1 head,
       Head fs = (fs1, Ok head) ∧ Root cm ≠ Root head
       ∧ cm' = set_changeset cm (changeset cm ++ staged_links (fs_kv fs))
       ∧ SaveRef (fs_kv fs) "HEAD" cm' = (fs_kv fs', r)
       ∧ fs' = set_kv fs1 (fs_kv fs')).
Proof.
  unfold Store.SubmitCommit. pose proof (Head_kv B58String multihash_Cast WireNode
    proto_Unmarshal wire_GetType NodeType_FILE NodeType_DIRECTORY NodeType_COMMIT
    FromProto fs) as Hkv.
  assert (Hcm : cm = set_changeset cm (changeset cm ++ []))
    by (by rewrite app_nil_r, set_changeset_id).
  destruct (Head fs) as [fs1 [head|e|]] eqn:EH; simpl in Hkv;
    [|intros [= <- <- <-]; left; eauto..].
  case_decide as Hroot; [intros [= <- <- <-]; left; eauto|].
  rewrite Hkv.
  unfold kv_Bucket, faulty at 1.
  destruct (kv_fault (fs_kv fs) (OpBucket stage_checkpoints_bucket));
    [intros [= <- <- <-]; left; eauto|].
  unfold bkt_Foreach at 1.
  destruct (kv_fault (fs_kv fs) (OpForeach stage_checkpoints_bucket));
    [intros [= <- <- <-]; left; eauto|].
  rewrite foreach_histList_fn, app_nil_l.
  destruct (changeset_loop _ _ _) as [cs rl] eqn:El.
  destruct rl as [[]|e|];
    [|pose proof (changeset_loop_extends _ _ _ _ _ El) as [extra ->];
      intros [= <- <- <-]; left; eauto..].
  apply changeset_loop_links in El as ->.
  destruct (SaveRef _ _ _) as [kv' rs] eqn:Es.
  intros [= <- <- <-]. right. exists fs1, head. simpl. by repeat split.
Qed.

Lemma SaveRef_failed kv refname nd kv' r :
  SaveRef kv refname nd = (kv', r) → r ≠ Ok tt → kv' = kv.
Proof.
  unfold SaveRef, kv_Bucket, faulty.
  destruct (kv_fault kv (OpBucket refs_bucket)); simpl; [by intros [= <- _]|].
  apply bkt_Put_failed.
Qed.

(** X8. A [SubmitCommit] that fails, with [ErrNoChange] or any other error, has
    changed nothing in the store: HEAD and every bucket are as before. *)
Theorem SubmitCommit_failure_keeps_store fs cm fs' cm' r :
  SubmitCommit fs cm = ((fs', cm'), r) → r ≠ Ok tt → fs_kv fs' = fs_kv fs.
Proof.
  intros H Hr.
  apply SubmitCommit_inv in H as [(_ & Hkv & _)|(fs1 & head & _ & _ & _ & Hs & _)];
    [done|].
  by apply SaveRef_failed in Hs.
Qed.

(** X9. [SubmitCommit] changes the commit it is given in its changeset only, and
    only by appending; when it succeeds, what it has appended is one link
    for every entry of the buckets [stage/checkpoints/<key>] named by the
    entries of [stage/checkpoints], in key order. *)
Theorem SubmitCommit_changeset fs cm fs' cm' r :
  SubmitCommit fs cm = ((fs', cm'), r) →
  (∃ extra, cm' = set_changeset cm (changeset cm ++ extra))
  ∧ (r = Ok tt →
     cm' = set_changeset cm (changeset cm ++ staged_links (fs_kv fs))).
Proof.
  intros H.
  apply SubmitCommit_inv in H as [(Hr & _ & Hx)|(fs1 & head & _ & _ & -> & _ & _)].
  - split; [done|]. intros ->. done.
  - split; [eauto|done].
Qed.

(** X10. [SubmitCommit] does not store the commit: after it has succeeded, HEAD
    names a hash that, unless the commit is cached or was stored by other
    means, is in no bucket, so that [Head], and with it the next
    [SubmitCommit], fails with [ErrNoHashFound]. *)
Theorem SubmitCommit_then_Head fs cm fs' cm' :
  SubmitCommit fs cm = ((fs', cm'), Ok tt) →
  multihash_Cast (Some (Hash cm')) = Ok (Hash cm') →
  kv_fault (fs_kv fs) (OpGet refs_bucket "head") = None →
  objects_readable (fs_kv fs) (B58String (Hash cm')) →
  fs_index fs' !! B58String (Hash cm') = None →
  bkt_data (fs_kv fs) objects_bucket !! B58String (Hash cm') = None →
  bkt_data (fs_kv fs) stage_objects_bucket !! B58String (Hash cm') = None →
  let missing := ErrNoHashFound (B58String (Hash cm')) "objects and stage/objects" in
  Head fs' = (fs', Err missing)
  ∧ ∀ cm2, SubmitCommit fs' cm2 = ((fs', cm2), Err missing).
Proof.
  intros H Hcast Hget (Hr1 & Hr2 & Hr3 & Hr4) Hidx Hobj Hstage missing.
  apply SubmitCommit_inv in H as [(Hr & _)|(fs1 & head & _ & _ & _ & Hs & Hfs')];
    [done|].
  pose proof (SaveRef_writes _ _ _ _ Hs) as Hd.
  assert (Hf : kv_fault (fs_kv fs') = kv_fault (fs_kv fs)).
  { revert Hs. unfold SaveRef, kv_Bucket, faulty.
    destruct (kv_fault (fs_kv fs) (OpBucket refs_bucket)); simpl; [intros [=]|].
    apply bkt_Put_fault. }
  assert (Hbkt : kv_fault (fs_kv fs) (OpBucket refs_bucket) = None).
  { revert Hs. unfold SaveRef, kv_Bucket, faulty.
    by destruct (kv_fault (fs_kv fs) (OpBucket refs_bucket)); simpl; [intros [=]|]. }
  assert (HH : Head fs' = (fs', Err missing)).
  { unfold Store.Head, Store.ResolveRef, kv_Bucket, bkt_Get, faulty.
    change (ToLower "HEAD") with "head"%string.
    rewrite Hf, Hbkt. simpl. rewrite Hget, Hd, decide_True by done.
    simpl. rewrite lookup_insert_eq, Hcast.
    unfold Store.NodeByHash. rewrite Hidx. simpl.
    unfold Store.loadNode, loadNode_probe, kv_Bucket, bkt_Get, faulty.
    rewrite Hf, Hr1. simpl. rewrite Hr2. simpl.
    rewrite (Hd objects_bucket), decide_False, Hobj by done.
    rewrite Hr3. simpl. rewrite Hr4. simpl.
    by rewrite (Hd stage_objects_bucket), decide_False, Hstage by done. }
  split; [exact HH|]. intros cm2. unfold Store.SubmitCommit. by rewrite HH.
Qed.

End CommitMore.

(** ** Staging and resolving *)

Section StageMore.

Variable B58String : bytes → string.
Variable WireNode : Type.
Variable proto_Unmarshal : bytes → result WireNode.
Variable wire_GetType : WireNode → Z.
Variables NodeType_FILE NodeType_DIRECTORY NodeType_COMMIT : Z.
Variable FromProto : NodeType → WireNode → result Node.

Abbreviation StageNode := (Store.StageNode B58String).
Abbreviation unmarshalNode :=
  (Store.unmarshalNode WireNode proto_Unmarshal wire_GetType
     NodeType_FILE NodeType_DIRECTORY NodeType_COMMIT FromProto).
Abbreviation loadNode :=
  (Store.loadNode B58String WireNode proto_Unmarshal wire_GetType
     NodeType_FILE NodeType_DIRECTORY NodeType_COMMIT FromProto).
Abbreviation NodeByHash :=
  (Store.NodeByHash B58String WireNode proto_Unmarshal wire_GetType
     NodeType_FILE NodeType_DIRECTORY NodeType_COMMIT FromProto).
Abbreviation ResolveNode :=
  (Store.ResolveNode B58String WireNode proto_Unmarshal wire_GetType
     NodeType_FILE NodeType_DIRECTORY NodeType_COMMIT FromProto).
Abbreviation ResolveFile :=
  (Store.ResolveFile B58String WireNode proto_Unmarshal wire_GetType
     NodeType_FILE NodeType_DIRECTORY NodeType_COMMIT FromProto).

(** X11. After a successful [StageNode], every node of the parent chain is
    answered from the cache, with no access to the store: [NodeByHash]
    returns it for its hash and [ResolveNode] for its path ([ResolveFile]
    too when it is a file), provided the paths of the chain differ from
    each other and so do its hashes. *)
Theorem StageNode_then_resolve fs nd fs' :
  StageNode fs nd = (fs', Ok tt) →
  NoDup (map nodePath (parent_chain nd)) →
  NoDup (map (λ a, B58String (Hash a)) (parent_chain nd)) →
  ∀ a kv, a ∈ parent_chain nd →
    NodeByHash (set_kv fs' kv) (Hash a) = (set_kv fs' kv, Ok a)
    ∧ ResolveNode (set_kv fs' kv) (nodePath a) = (set_kv fs' kv, Ok (Some a))
    ∧ (GetType a = NodeTypeFile →
       ResolveFile (set_kv fs' kv) (nodePath a) = (set_kv fs' kv, Ok (Some a))).
Proof.
  intros H Hpaths Hhashes a kv Ha.
  destruct (StageNode_effect B58String nd fs fs' H) as (_ & _ & Hroot & Hidx & _).
  assert (Hr : fs_root fs' !! nodePath a = Some a).
  { rewrite Hroot. by apply (foldl_insert_lookup nodePath (λ a, a)). }
  assert (Hi : fs_index fs' !! B58String (Hash a) = Some (nodePath a)).
  { rewrite Hidx.
    by apply (foldl_insert_lookup (λ a, B58String (Hash a)) nodePath). }
  assert (HR : ResolveNode (set_kv fs' kv) (nodePath a) = (set_kv fs' kv, Ok (Some a))).
  { unfold Store.ResolveNode. simpl. by rewrite Hr. }
  split; [|split; [exact HR|]].
  - unfold Store.NodeByHash. simpl. rewrite Hi. simpl. by rewrite Hr.
  - intros Ht. unfold Store.ResolveFile, assert_type_opt. rewrite HR.
    by rewrite decide_True.
Qed.

(** X12. What a successful [StageNode] has staged can be loaded from the
    store, by a handle that has nothing cached for one: if the hashes of
    the chain differ from each other, nothing is committed under the hash
    of a chain node, and unmarshalling is the inverse of marshalling for
    it, then [stage/objects] holds the serialized node under its hash and
    [loadNode] returns the node. *)
Theorem StageNode_then_loadNode fs nd fs' a :
  StageNode fs nd = (fs', Ok tt) →
  NoDup (map (λ a, B58String (Hash a)) (parent_chain nd)) →
  a ∈ parent_chain nd →
  objects_readable (fs_kv fs') (B58String (Hash a)) →
  bkt_data (fs_kv fs') objects_bucket !! B58String (Hash a) = None →
  unmarshalNode (marshalled a) = Ok a →
  bkt_data (fs_kv fs') stage_objects_bucket !! B58String (Hash a)
  = Some (marshalled a)
  ∧ loadNode (fs_kv fs') (Hash a) = Ok a.
Proof.
  intros H Hhashes Ha (H1 & H2 & H3 & H4) Hobj Hcodec.
  destruct (StageNode_effect B58String nd fs fs' H) as (_ & Hst & _).
  assert (Hs : bkt_data (fs_kv fs') stage_objects_bucket !! B58String (Hash a)
               = Some (marshalled a)).
  { rewrite Hst.
    by apply (foldl_insert_lookup (λ a, B58String (Hash a)) marshalled). }
  split; [exact Hs|].
  unfold Store.loadNode, loadNode_probe, kv_Bucket, bkt_Get, faulty.
  rewrite H1. simpl. rewrite H2. simpl. rewrite Hobj.
  rewrite H3. simpl. rewrite H4. simpl. by rewrite Hs.
Qed.

End StageMore.

Section ResolveMore.

Variable B58String : bytes → string.
Variable WireNode : Type.
Variable proto_Unmarshal : bytes → result WireNode.
Variable wire_GetType : WireNode → Z.
Variables NodeType_FILE NodeType_DIRECTORY NodeType_COMMIT : Z.
Variable FromProto : NodeType → WireNode → result Node.
Variable ckp_ToProto : Checkpoint → result WireCheckpoint.
Variable ckp_Marshal : WireCheckpoint → result bytes.
Variable ckp_Unmarshal : option bytes → result Checkpoint.
Variable ID : Node → Z.

Abbreviation NodeByHash :=
  (Store.NodeByHash B58String WireNode proto_Unmarshal wire_GetType
     NodeType_FILE NodeType_DIRECTORY NodeType_COMMIT FromProto).
Abbreviation ResolveNode :=
  (Store.ResolveNode B58String WireNode proto_Unmarshal wire_GetType
     NodeType_FILE NodeType_DIRECTORY NodeType_COMMIT FromProto).
Abbreviation ResolveFile :=
  (Store.ResolveFile B58String WireNode proto_Unmarshal wire_GetType
     NodeType_FILE NodeType_DIRECTORY NodeType_COMMIT FromProto).
Abbreviation ResolveDirectory :=
  (Store.ResolveDirectory B58String WireNode proto_Unmarshal wire_GetType
     NodeType_FILE NodeType_DIRECTORY NodeType_COMMIT FromProto).
Abbreviation HistoryByPath :=
  (Store.HistoryByPath B58String WireNode proto_Unmarshal wire_GetType
     NodeType_FILE NodeType_DIRECTORY NodeType_COMMIT FromProto ckp_Unmarshal ID).

(** X13. A path that is nowhere resolves to nil without error, through
    [ResolveNode] and [ResolveFile], and through [ResolveDirectory] when
    the path it makes of it, cleaned and with a dot appended, is nowhere
    either; the handle stays as it is. *)
Theorem Resolve_absent_is_nil fs p :
  path_absent fs p →
  path_absent fs (appendDot (path_Clean p)) →
  ResolveNode fs p = (fs, Ok None)
  ∧ ResolveFile fs p = (fs, Ok None)
  ∧ ResolveDirectory fs p = (fs, Ok None).
Proof.
  assert (H : ∀ q, path_absent fs q → ResolveNode fs q = (fs, Ok None)).
  { intros q (Hc & Ht & Hs). unfold Store.ResolveNode, ResolveNode_probe.
    by rewrite Hc, Ht, Hs. }
  intros Ha Hd. split; [by apply H|]. split.
  - unfold Store.ResolveFile, assert_type_opt. by rewrite (H _ Ha).
  - unfold Store.ResolveDirectory, assert_type_opt. by rewrite (H _ Hd).
Qed.

(** X14. [HistoryByPath] of a path that is nowhere does not return: it calls
    [ID()] on the nil that [ResolveNode] gave it. *)
Theorem HistoryByPath_absent_panics fs p :
  path_absent fs p → HistoryByPath fs p = (fs, Panic).
Proof.
  intros (Hc & Ht & Hs).
  unfold Store.HistoryByPath, Store.ResolveNode, ResolveNode_probe.
  by rewrite Hc, Ht, Hs.
Qed.

(** ** Checkpoints, continued *)

(** [History] and [LastCheckpoint] read the store through the buckets
    [checkpoints/<hex>] and [stage/checkpoints/<hex>] only. *)
Lemma History_loop_ext kv kv' btkPaths :
  kv_fault kv' = kv_fault kv →
  Forall (λ b, bkt_data kv' b = bkt_data kv b) btkPaths →
  ∀ history, Store.History_loop ckp_Unmarshal kv' btkPaths history
             = Store.History_loop ckp_Unmarshal kv btkPaths history.
Proof.
  intros Hf. induction 1 as [|b bs Hb _ IH]; intros history; simpl; [done|].
  unfold kv_Bucket, faulty. rewrite Hf.
  destruct (kv_fault kv (OpBucket b)); simpl; [done|].
  unfold bkt_Foreach, bkt_entries. rewrite Hf, Hb.
  destruct (kv_fault kv (OpForeach b)); [done|].
  destruct (foreach_entries _ _ _) as [h [[]|e|]]; [apply IH|done..].
Qed.

Lemma History_ext kv kv' IDLink :
  kv_fault kv' = kv_fault kv →
  (∀ b, b ≠ stage_checkpoints_bucket → bkt_data kv' b = bkt_data kv b) →
  Store.History ckp_Unmarshal kv' IDLink = Store.History ckp_Unmarshal kv IDLink.
Proof.
  intros Hf Hd. unfold Store.History.
  rewrite (History_loop_ext kv kv'); [done|done|].
  repeat constructor; apply Hd; unfold stage_checkpoints_bucket; congruence.
Qed.

(** X15. A checkpoint staged with [StageCheckpoint] does not show in the history
    of any node: [History] and [LastCheckpoint] answer after the call as
    they did before it. *)
Theorem StageCheckpoint_not_in_History kv ckp kv' r IDLink :
  Store.StageCheckpoint ckp_ToProto ckp_Marshal kv ckp = (kv', r) →
  Store.History ckp_Unmarshal kv' IDLink = Store.History ckp_Unmarshal kv IDLink
  ∧ Store.LastCheckpoint ckp_Unmarshal kv' IDLink
    = Store.LastCheckpoint ckp_Unmarshal kv IDLink.
Proof.
  intros H.
  assert (Hf : kv_fault kv' = kv_fault kv
               ∧ ∀ b, b ≠ stage_checkpoints_bucket → bkt_data kv' b = bkt_data kv b).
  { revert H. unfold Store.StageCheckpoint.
    destruct (ckp_ToProto ckp) as [pckp|e|]; [|by intros [= <- _]..].
    destruct (ckp_Marshal pckp) as [data|e|]; [|by intros [= <- _]..].
    unfold kv_Bucket, faulty.
    destruct (kv_fault kv (OpBucket stage_checkpoints_bucket)); simpl;
      [by intros [= <- _]|].
    intros H. split; [by eapply bkt_Put_fault|].
    intros b Hb. apply bkt_Put_inv in H as [(_ & _ & ->)|(e & _ & _ & ->)]; [|done].
    unfold bkt_data at 1. simpl. by rewrite lookup_insert_ne. }
  destruct Hf as [Hf Hd]. split.
  - by apply History_ext.
  - apply LastCheckpoint_first_bucket_only; [done|]. by apply Hd.
Qed.

End ResolveMore.

(** ** Paths: the trailing dot *)

Lemma substring_all s : substring 0 (String.length s) s = s.
Proof. induction s as [|c s IH]; simpl; [done|]. by rewrite IH. Qed.

Lemma substring_append_r s t :
  substring (String.length s) (String.length t) (String.append s t) = t.
Proof. induction s as [|c s IH]; simpl; [apply substring_all|exact IH]. Qed.

Lemma string_length_append s t :
  String.length (String.append s t) = String.length s + String.length t.
Proof. induction s as [|c s IH]; simpl; [done|]. by rewrite IH. Qed.

Lemma string_append_assoc s t u :
  String.append (String.append s t) u = String.append s (String.append t u).
Proof.
  induction s as [|c s IH]; [reflexivity|].
  change (String c (String.append (String.append s t) u)
          = String c (String.append s (String.append t u))).
  by rewrite IH.
Qed.

Lemma substring_split s : ∀ n m, n + m = String.length s →
  s = String.append (substring 0 n s) (substring n m s).
Proof.
  induction s as [|c s IH]; intros n m H; simpl in H.
  - by destruct n, m.
  - destruct n as [|n]; simpl.
    + simpl in H. subst m. simpl. by rewrite substring_all.
    + change (String c s
              = String c (String.append (substring 0 n s) (substring n m s))).
      f_equal. apply IH. lia.
Qed.

Lemma HasSuffix_append s t : HasSuffix (String.append s t) t = true.
Proof.
  unfold HasSuffix. rewrite string_length_append.
  replace (String.length s + String.length t - String.length t) with (String.length s)
    by lia.
  rewrite substring_append_r, String.eqb_refl, andb_true_r.
  apply Nat.leb_le. lia.
Qed.

Lemma HasSuffix_inv s t : HasSuffix s t = true → ∃ q, s = String.append q t.
Proof.
  unfold HasSuffix. intros H. apply andb_true_iff in H as [Hle Heq].
  apply Nat.leb_le in Hle. apply String.eqb_eq in Heq.
  exists (substring 0 (String.length s - String.length t) s).
  rewrite <- Heq at 2. apply substring_split. lia.
Qed.

(** X16. What [appendDot] returns ends in [/.], and the dot survives the join
    with a prefix: the path that [ResolveDirectory] hands to [ResolveNode],
    and that [ResolveNode] joins with [tree/] or [stage/tree/], still ends
    in [/.] although [path.Join] has cleaned the dot away in between. *)
Theorem directory_lookup_keeps_dot :
  (∀ p, HasSuffix (appendDot p) "/." = true)
  ∧ (∀ prefix dirpath,
       HasSuffix (joinButLeaveLastDot [prefix; appendDot (path_Clean dirpath)]) "/."
       = true).
Proof.
  assert (H : ∀ p, HasSuffix (appendDot p) "/." = true).
  { intros p. unfold appendDot. destruct (HasSuffix p "/") eqn:Hs.
    - apply HasSuffix_inv in Hs as [q ->]. rewrite string_append_assoc.
      apply HasSuffix_append.
    - apply HasSuffix_append. }
  split; [exact H|]. intros prefix dirpath. unfold joinButLeaveLastDot.
  cbn [List.last]. rewrite H. apply H.
Qed.

(** * Further properties of the writer *)

Lemma chunks_of_fuel size l : 0 < size →
  ∀ fuel, length l ≤ fuel → chunks_of fuel size l = chunks size l.
Proof.
  intros Hs. unfold chunks.
  induction l as [l IH] using (induction_ltof1 _ (@length byte)). unfold ltof in IH.
  intros fuel Hf. destruct l as [|x l]; [by destruct fuel|].
  destruct fuel as [|fuel]; [simpl in Hf; lia|].
  cbn [chunks_of length]. f_equal.
  assert (Hd : length (drop size (x :: l)) < length (x :: l))
    by (rewrite length_drop; simpl; lia).
  rewrite (IH _ Hd fuel) by (simpl in *; lia).
  rewrite (IH _ Hd (length l)) by (simpl in *; lia). reflexivity.
Qed.

Lemma chunks_short size l : 0 < size → l ≠ [] → length l ≤ size → chunks size l = [l].
Proof.
  intros Hs Hl Hlen. unfold chunks. destruct l as [|x l]; [done|].
  cbn [length chunks_of]. rewrite take_ge, drop_ge by done.
  by destruct (length l).
Qed.

Lemma chunks_long size l : 0 < size → size ≤ length l →
  chunks size l = take size l :: chunks size (drop size l).
Proof.
  intros Hs Hlen. unfold chunks at 1. destruct l as [|x l]; [simpl in Hlen; lia|].
  cbn [length chunks_of]. f_equal. apply chunks_of_fuel; [done|].
  rewrite length_drop. simpl. lia.
Qed.

Lemma chunks_concat size l : 0 < size → concat (chunks size l) = l.
Proof.
  intros Hs. induction l as [l IH] using (induction_ltof1 _ (@length byte)).
  unfold ltof in IH. destruct (decide (l = [])) as [->|Hl]; [done|].
  destruct (Nat.le_gt_cases size (length l)) as [Hlong|Hshort].
  - rewrite chunks_long by done. simpl. rewrite IH, take_drop; [done|].
    rewrite length_drop. destruct l; [done|simpl in *; lia].
  - rewrite chunks_short by (done || lia). simpl. by rewrite app_nil_r.
Qed.

Lemma chunks_nonempty size l : 0 < size → Forall (λ c, c ≠ []) (chunks size l).
Proof.
  intros Hs. induction l as [l IH] using (induction_ltof1 _ (@length byte)).
  unfold ltof in IH. destruct (decide (l = [])) as [->|Hl]; [constructor|].
  destruct (Nat.le_gt_cases size (length l)) as [Hlong|Hshort].
  - rewrite chunks_long by done. constructor.
    + intros Ht. apply (f_equal length) in Ht. rewrite length_take in Ht.
      simpl in Ht. lia.
    + apply IH. rewrite length_drop. destruct l; [done|simpl in *; lia].
  - rewrite chunks_short by (done || lia). by repeat constructor.
Qed.

(** One flush of a chunk that is not empty, on a writer that cannot fail. *)
Lemma flushBuffer_chunk w c :
  reliable w → c ≠ [] →
  flushBuffer w c
  = (mkWriter (mkSink (sink_out (rawW w) ++ encoded (algo w) c) None) (chunkBuf w)
              (index w ++ [mkRecord (rawOff w) (zipOff w)])
              (wrap_i64 (rawOff w + Z.of_nat (length c)))
              (wrap_i64 (zipOff w + Z.of_nat (length (encoded (algo w) c))))
              (w_trailer w) (algo w) (algoType w) (headerWritten w),
     Ok tt).
Proof.
  intros [Hroom Henc] Hc. unfold flushBuffer, encoded.
  destruct c as [|x c]; [done|].
  replace (Z.of_nat (length (x :: c)) <=? 0)%Z with false
    by (symmetry; apply Z.leb_gt; simpl; lia).
  unfold addRecordToIndex, sink_Write, set_offsets, set_rawW.
  cbn [algo rawW]. destruct (Henc (x :: c)) as [enc ->].
  rewrite Hroom. reflexivity.
Qed.

(** Flushing a list of chunks appends their encodings to the output and
    their start offsets to the index. *)
Lemma flush_all_spec cs :
  ∀ w, reliable w → Forall (λ c, c ≠ []) cs →
    let w' := flush_all w cs in
    sink_out (rawW w') = sink_out (rawW w) ++ concat (map (encoded (algo w)) cs)
    ∧ index w' ++ [mkRecord (rawOff w') (zipOff w')]
      = index w ++ records_from (algo w) (rawOff w) (zipOff w) cs
    ∧ reliable w' ∧ algo w' = algo w ∧ algoType w' = algoType w
    ∧ w_trailer w' = w_trailer w ∧ chunkBuf w' = chunkBuf w
    ∧ headerWritten w' = headerWritten w.
Proof.
  induction cs as [|c cs IH]; intros w Hrel Hne; simpl.
  - rewrite app_nil_r. by repeat split; try apply Hrel.
  - inversion Hne as [|? ? Hc Hcs]; subst.
    rewrite (flushBuffer_chunk w c Hrel Hc). cbn [fst].
    set (w1 := mkWriter _ _ _ _ _ _ _ _ _).
    assert (Hrel1 : reliable w1) by (split; [reflexivity|apply Hrel]).
    destruct (IH w1 Hrel1 Hcs) as (Hout & Hidx & Hrel' & Ha & Ht & Htr & Hb & Hh).
    cbn [w1 rawW sink_out index rawOff zipOff algo algoType w_trailer chunkBuf
         headerWritten] in *.
    repeat split; try done; try apply Hrel'.
    + by rewrite Hout, <- app_assoc.
    + by rewrite Hidx, <- app_assoc.
Qed.

Lemma index_marshal_length idx :
  Z.of_nat (length (concat (map record_marshal idx)))
  = (indexChunkSize * Z.of_nat (length idx))%Z.
Proof.
  induction idx as [|r idx IH]; [reflexivity|].
  cbn [map concat]. rewrite length_app, Nat2Z.inj_add, IH.
  unfold record_marshal, indexChunkSize. rewrite length_app, !PutUint64_length.
  cbn [length]. lia.
Qed.

(** The end of [Close] on a reliable writer whose index fits: the sentinel
    record joins the index, the index and the trailer go out. *)
Lemma Close_finish_reliable w idx :
  reliable w →
  index w ++ [mkRecord (rawOff w) (zipOff w)] = idx →
  (indexChunkSize * Z.of_nat (length idx) < 2 ^ 63)%Z →
  let tr := mkTrailer (tr_algo (w_trailer w)) (tr_chunksize (w_trailer w))
                      (indexChunkSize * Z.of_nat (length idx)) in
  Close_finish w
  = (mkWriter (mkSink (sink_out (rawW w) ++ concat (map record_marshal idx)
                       ++ trailer_marshal tr) None)
              (chunkBuf w) idx (rawOff w) (zipOff w) tr
              (algo w) (algoType w) (headerWritten w), Ok tt).
Proof.
  intros [Hroom _] Hidx Hfit tr.
  assert (Hw : wrap_u64 (wrap_i64 (indexChunkSize * Z.of_nat (length idx)))
               = (indexChunkSize * Z.of_nat (length idx))%Z).
  { unfold wrap_u64, wrap_i64, indexChunkSize in *.
    rewrite (Z.mod_small (_ + 2 ^ 63)) by lia.
    rewrite Z.mod_small by lia. lia. }
  unfold Close_finish.
  cbn [addRecordToIndex set_indexSize set_rawW index w_trailer tr_indexSize rawW
       tr_algo tr_chunksize].
  rewrite Hidx, Hw. unfold marshal_index. rewrite Z.eqb_refl.
  unfold sink_Write at 1. rewrite Hroom.
  cbn [addRecordToIndex set_indexSize set_rawW index w_trailer tr_indexSize rawW
       tr_algo tr_chunksize].
  assert (Hw2 : wrap_u64 (indexChunkSize * Z.of_nat (length idx))
                = (indexChunkSize * Z.of_nat (length idx))%Z).
  { unfold wrap_u64, indexChunkSize in *. rewrite Z.mod_small; lia. }
  rewrite index_marshal_length, Hw2, Z.eqb_refl. cbn [negb].
  unfold sink_Write. cbn [sink_room sink_out].
  cbn [addRecordToIndex set_indexSize set_rawW index w_trailer tr_indexSize rawW
       tr_algo tr_chunksize chunkBuf rawOff zipOff algo algoType headerWritten].
  subst tr. unfold set_rawW, set_indexSize, addRecordToIndex.
  cbn [index w_trailer tr_indexSize rawW tr_algo tr_chunksize chunkBuf rawOff
       zipOff algo algoType headerWritten].
  by rewrite Hidx, <- app_assoc.
Qed.

Lemma records_from_length a cs : ∀ raw zip,
  length (records_from a raw zip cs) = S (length cs).
Proof. induction cs as [|c cs IH]; intros raw zip; simpl; [done|]. by rewrite IH. Qed.

Lemma wrap_i64_small x : (- 2 ^ 63 <= x < 2 ^ 63)%Z → wrap_i64 x = x.
Proof. intros H. unfold wrap_i64. rewrite Z.mod_small; lia. Qed.

(** Without wrap-around the records hold the running sums of the chunk
    lengths. *)
Lemma records_from_lookup a cs : ∀ i c raw zip,
  cs !! i = Some c →
  (0 <= raw)%Z → (0 <= zip)%Z →
  (raw + Z.of_nat (length (concat cs)) < 2 ^ 63)%Z →
  (zip + Z.of_nat (length (concat (map (encoded a) cs))) < 2 ^ 63)%Z →
  let at_ n := mkRecord (raw + Z.of_nat (length (concat (take n cs))))
                        (zip + Z.of_nat (length (concat (map (encoded a) (take n cs))))) in
  records_from a raw zip cs !! i = Some (at_ i)
  ∧ records_from a raw zip cs !! S i = Some (at_ (S i)).
Proof.
  induction cs as [|c0 cs IH]; intros i c raw zip Hc Hr Hz Hrs Hzs; [done|].
  cbv zeta in IH |- *. cbn [map concat] in Hrs, Hzs. rewrite !length_app in Hrs, Hzs.
  assert (Hstep : ∀ n, records_from a raw zip (c0 :: cs) !! S n
            = records_from a (raw + Z.of_nat (length c0))
                (zip + Z.of_nat (length (encoded a c0))) cs !! n).
  { intros n. cbn [records_from]. rewrite !wrap_i64_small by lia. done. }
  assert (Hshift : ∀ n,
    mkRecord (raw + Z.of_nat (length c0) + Z.of_nat (length (concat (take n cs))))
             (zip + Z.of_nat (length (encoded a c0))
              + Z.of_nat (length (concat (map (encoded a) (take n cs)))))
    = mkRecord (raw + Z.of_nat (length (concat (take (S n) (c0 :: cs)))))
               (zip + Z.of_nat (length (concat (map (encoded a)
                                                    (take (S n) (c0 :: cs))))))).
  { intros n. cbn [take map concat]. rewrite !length_app. f_equal; lia. }
  destruct i as [|i].
  - split.
    + cbn [records_from take map concat length]. simpl. f_equal. f_equal; lia.
    + rewrite Hstep, <- Hshift. destruct cs; simpl; f_equal; f_equal; lia.
  - simpl in Hc. rewrite !Hstep, <- !Hshift.
    apply (IH i c); try done; lia.
Qed.

(** Chunk [i] of an input is the [size] bytes from offset [i * size]. *)
Lemma chunks_lookup size l i c : 0 < size →
  chunks size l !! i = Some c →
  c = take size (drop (i * size) l)
  ∧ length (concat (take i (chunks size l))) = i * size.
Proof.
  intros Hs. revert l c. induction i as [|i IH]; intros l c Hc.
  - destruct (Nat.lt_ge_cases (length l) size) as [Hshort|Hlong].
    + destruct (decide (l = [])) as [->|Hne]; [done|].
      rewrite chunks_short in Hc by (done || lia). injection Hc as <-.
      simpl. split; [|done]. symmetry. apply take_ge. lia.
    + rewrite chunks_long in Hc by done. by injection Hc as <-.
  - destruct (Nat.lt_ge_cases (length l) size) as [Hshort|Hlong].
    + destruct (decide (l = [])) as [->|Hne]; [done|].
      rewrite chunks_short in Hc by (done || lia). done.
    + rewrite chunks_long in Hc |- * by done. simpl in Hc |- *.
      destruct (IH _ _ Hc) as [-> Hl]. split.
      * by rewrite drop_drop.
      * rewrite length_app, Hl, length_take. lia.
Qed.

Section WriterMore.

Variable maxChunkSize : nat.
Variable currentVersion : Z.
Variable makeHeader : Z → Z → bytes.
Variable AlgorithmFromType : Z → result Algorithm.
Hypothesis maxChunkSize_pos : 0 < maxChunkSize.

Abbreviation writeHeaderIfNeeded := (Compress.writeHeaderIfNeeded currentVersion makeHeader).
Abbreviation ReadFrom_loop := (Compress.ReadFrom_loop maxChunkSize).
Abbreviation ReadFrom := (Compress.ReadFrom maxChunkSize currentVersion makeHeader).
Abbreviation Write_loop := (Compress.Write_loop maxChunkSize).
Abbreviation Write := (Compress.Write maxChunkSize currentVersion makeHeader).
Abbreviation NewWriter := (Compress.NewWriter AlgorithmFromType).
Abbreviation Close := (Compress.Close currentVersion makeHeader).
Abbreviation Writes := (Write_all maxChunkSize currentVersion makeHeader).

(** [Write] of an input into an empty chunk buffer flushes the full chunks
    and keeps the rest: flushing what it kept gives the state after
    flushing all chunks of the input. *)
Lemma Write_loop_flush_all n :
  ∀ input w, reliable w → chunkBuf w = [] → length input ≤ n →
    ∃ ws, Write_loop (S n) w input = Some (ws, Ok tt)
          ∧ (flushBuffer ws (chunkBuf ws)).2 = Ok tt
          ∧ (flushBuffer ws (chunkBuf ws)).1
            = set_chunkBuf (flush_all w (chunks maxChunkSize input)) (chunkBuf ws).
Proof using Type*.
  induction n as [|n IH]; intros input w Hrel Hbuf Hlen.
  - destruct input; [|simpl in Hlen; lia].
    rewrite (Write_loop_short maxChunkSize maxChunkSize_pos) by (done || simpl; lia).
    eexists. split; [reflexivity|]. cbn [chunkBuf set_chunkBuf]. done.
  - destruct (Nat.lt_ge_cases (length input) maxChunkSize) as [Hshort|Hlong].
    + rewrite (Write_loop_short maxChunkSize maxChunkSize_pos) by done.
      eexists. split; [reflexivity|].
      change (chunkBuf (set_chunkBuf w input)) with input.
      rewrite flushBuffer_set_chunkBuf. cbn [fst snd].
      destruct (decide (input = [])) as [->|Hne]; [done|].
      rewrite chunks_short by (done || lia). simpl.
      destruct (flushBuffer_reliable w input Hrel) as (w3 & -> & _). done.
    + destruct (flushBuffer_reliable w (take maxChunkSize input) Hrel)
        as (w3 & Hfl & Hrel3 & Hbuf3 & Hhdr3).
      rewrite (Write_loop_chunk maxChunkSize maxChunkSize_pos (S n) w input w3
                 Hbuf Hlong Hfl).
      destruct (IH (drop maxChunkSize input) w3 Hrel3 ltac:(congruence)
                   ltac:(rewrite length_drop; lia)) as (ws & H1 & H2 & H3).
      exists ws. split; [done|]. split; [done|].
      rewrite chunks_long by done. simpl. by rewrite Hfl.
Qed.

(** The calls of [Write] for the pieces of an input, seen from [Close]:
    they leave the writer where one [Write] of the input leaves it. *)
Lemma Writes_then_Close w wh writes :
  writeHeaderIfNeeded w = (wh, Ok tt) →
  reliable wh → chunkBuf wh = [] → headerWritten wh = true →
  ∃ w2 ws, Writes w writes = Some (w2, Ok tt)
           ∧ Write_loop (S (length (concat writes))) wh (concat writes)
             = Some (ws, Ok tt)
           ∧ Close w2 = Close ws.
Proof using Type*.
  intros Ehdr Hrel Hbuf Hhdr.
  destruct (Write_loop_flush_all (length (concat writes)) (concat writes) wh
              Hrel Hbuf ltac:(lia)) as (ws & Hws & _).
  destruct writes as [|p ps].
  - exists w, ws. split; [done|]. split; [done|].
    rewrite (Close_after_header _ _ w wh Ehdr Hhdr). f_equal.
    rewrite (Write_loop_short maxChunkSize maxChunkSize_pos) in Hws by (done || simpl; lia).
    injection Hws as <-. symmetry. by apply set_chunkBuf_nil.
  - destruct (Write_all_concat maxChunkSize currentVersion makeHeader maxChunkSize_pos
                wh Hrel Hbuf Hhdr (p :: ps) [] wh) as (w2 & Hall & Hloop).
    { rewrite (Write_loop_short maxChunkSize maxChunkSize_pos) by (done || simpl; lia).
      by rewrite set_chunkBuf_nil. }
    rewrite app_nil_l, Hws in Hloop. injection Hloop as <-.
    exists ws, ws. split; [|done].
    revert Hall. cbn [Write_all]. unfold Compress.Write. rewrite Ehdr.
    unfold Compress.writeHeaderIfNeeded. by rewrite Hhdr.
Qed.

(** What a run of the writer gives: [NewWriter], calls of [Write] for the
    pieces of an input, [Close]. *)
Lemma Writes_Close_run sink ty w writes :
  NewWriter sink ty = Ok w →
  sink_room sink = None →
  (∀ data, is_Ok (Encode (algo w) data)) →
  let cs := chunks maxChunkSize (concat writes) in
  let idx := records_from (algo w) 0 (wrap_i64 (0 + headerSize)) cs in
  (indexChunkSize * Z.of_nat (length idx) < 2 ^ 63)%Z →
  ∃ w2 w3,
    Writes w writes = Some (w2, Ok tt)
    ∧ Close w2 = (w3, Ok tt)
    ∧ index w3 = idx
    ∧ length idx = S (length cs)
    ∧ sink_out (rawW w3)
      = sink_out sink ++ makeHeader ty currentVersion
        ++ concat (map (encoded (algo w)) cs)
        ++ concat (map record_marshal idx)
        ++ trailer_marshal (mkTrailer 0 0 (indexChunkSize * Z.of_nat (length idx))).
Proof using Type*.
  unfold Compress.NewWriter.
  destruct (AlgorithmFromType ty) as [a|err|]; simpl; [|done..].
  intros [= <-] Hroom Henc Hfit. simpl in Henc, Hfit.
  set (w := mkWriter sink [] [] 0 0 (mkTrailer 0 0 0) a ty false).
  set (cs := chunks maxChunkSize (concat writes)) in *.
  set (idx := records_from a 0 (wrap_i64 (0 + headerSize)) cs) in *.
  set (wh := mkWriter (mkSink (sink_out sink ++ makeHeader ty currentVersion) None)
                      [] [] 0 (wrap_i64 (0 + headerSize)) (mkTrailer 0 0 0)
                      a ty true).
  assert (Ehdr : writeHeaderIfNeeded w = (wh, Ok tt)).
  { unfold Compress.writeHeaderIfNeeded, sink_Write. simpl. by rewrite Hroom. }
  assert (Hrel : reliable wh) by (split; [reflexivity|exact Henc]).
  destruct (Writes_then_Close w wh writes Ehdr Hrel eq_refl eq_refl)
    as (w2 & ws & Hall & Hws & Hclose).
  destruct (Write_loop_flush_all (length (concat writes)) (concat writes) wh
              Hrel eq_refl ltac:(lia)) as (ws' & Hws' & Hfl2 & Hfl1).
  rewrite Hws in Hws'. injection Hws' as <-.
  destruct (flush_all_spec cs wh Hrel (chunks_nonempty _ _ maxChunkSize_pos))
    as (Hout & Hidx & Hrelc & Ha & Ht & Htr & Hb & Hh).
  fold cs in Hfl1. set (wc := flush_all wh cs) in *.
  cbn [wh rawW sink_out index rawOff zipOff algo app] in Hout, Hidx.
  fold idx in Hidx.
  assert (Hlen : length idx = S (length cs)).
  { clear. subst idx. generalize 0%Z (wrap_i64 (0 + headerSize)).
    induction cs as [|c cs IH]; intros raw zip; simpl; [done|]. by rewrite IH. }
  assert (Hhs : headerWritten ws = true).
  { rewrite <- (flushBuffer_headerWritten ws (chunkBuf ws)), Hfl1.
    cbn [set_chunkBuf headerWritten]. rewrite Hh. reflexivity. }
  pose proof (Close_finish_reliable wc idx Hrelc Hidx Hfit) as Hfin.
  cbn zeta in Hfin. rewrite Htr in Hfin. cbn [wh w_trailer tr_algo tr_chunksize] in Hfin.
  exists w2, (set_chunkBuf (Close_finish wc).1 (chunkBuf ws)).
  split; [exact Hall|]. rewrite Hclose, Close_eq.
  unfold Compress.writeHeaderIfNeeded. rewrite Hhs.
  destruct (flushBuffer ws (chunkBuf ws)) as [wf rf] eqn:Ef. simpl in Hfl1, Hfl2.
  subst rf wf. rewrite Close_finish_set_chunkBuf, Hfin. cbn [fst snd].
  split; [reflexivity|]. split; [reflexivity|]. split; [exact Hlen|].
  cbn [set_chunkBuf rawW sink_out]. rewrite Hout. by rewrite <- !app_assoc.
Qed.

(** X17. The layout of the stream. Feeding an input through calls of [Write], in
    pieces of any sizes, and closing the writer emits the header, the
    encoded chunks of the input cut at every [maxChunkSize] bytes, the index
    with one record per chunk and one more after the last, and a trailer
    that gives the size of the index and leaves its other fields zero. *)
Theorem Write_Close_layout sink ty w writes :
  NewWriter sink ty = Ok w →
  sink_room sink = None →
  (∀ data, is_Ok (Encode (algo w) data)) →
  let cs := chunks maxChunkSize (concat writes) in
  let idx := records_from (algo w) 0 (wrap_i64 (0 + headerSize)) cs in
  (indexChunkSize * Z.of_nat (length idx) < 2 ^ 63)%Z →
  ∃ w2 w3,
    Writes w writes = Some (w2, Ok tt)
    ∧ Close w2 = (w3, Ok tt)
    ∧ index w3 = idx
    ∧ length idx = S (length cs)
    ∧ sink_out (rawW w3)
      = sink_out sink ++ makeHeader ty currentVersion
        ++ concat (map (encoded (algo w)) cs)
        ++ concat (map record_marshal idx)
        ++ trailer_marshal (mkTrailer 0 0 (indexChunkSize * Z.of_nat (length idx))).
Proof using Type*. exact (Writes_Close_run sink ty w writes). Qed.

(** X18. The index locates the chunks. When no offset wraps, record [i] of the
    index holds the offset [i * maxChunkSize] of chunk [i] in the input, and
    the encoded chunk lies in the stream between the compressed offsets of
    record [i] and of the next record. *)
Theorem index_locates_chunks sink ty w writes i c :
  NewWriter sink ty = Ok w →
  sink_room sink = None →
  (∀ data, is_Ok (Encode (algo w) data)) →
  length (makeHeader ty currentVersion) = Z.to_nat headerSize →
  let input := concat writes in
  let cs := chunks maxChunkSize input in
  (indexChunkSize * Z.of_nat (S (length cs)) < 2 ^ 63)%Z →
  (Z.of_nat (length input) < 2 ^ 63)%Z →
  (headerSize + Z.of_nat (length (concat (map (encoded (algo w)) cs))) < 2 ^ 63)%Z →
  cs !! i = Some c →
  ∃ w2 w3 r r',
    Writes w writes = Some (w2, Ok tt)
    ∧ Close w2 = (w3, Ok tt)
    ∧ index w3 !! i = Some r ∧ index w3 !! S i = Some r'
    ∧ c = take maxChunkSize (drop (i * maxChunkSize) input)
    ∧ rec_rawOff r = Z.of_nat (i * maxChunkSize)
    ∧ rec_rawOff r' = (rec_rawOff r + Z.of_nat (length c))%Z
    ∧ take (Z.to_nat (rec_zipOff r' - rec_zipOff r))
           (drop (Z.to_nat (rec_zipOff r))
                 (drop (length (sink_out sink)) (sink_out (rawW w3))))
      = encoded (algo w) c.
Proof using Type*.
  intros Hnew Hroom Henc Hhdr input cs Hfit Hraw Hzip Hc.
  pose proof (Writes_Close_run sink ty w writes Hnew Hroom Henc) as Hrun.
  cbn zeta in Hrun. fold input cs in Hrun.
  assert (Hlen : length (records_from (algo w) 0 (wrap_i64 (0 + headerSize)) cs)
                 = S (length cs)) by apply records_from_length.
  rewrite Hlen in Hrun.
  destruct (Hrun Hfit) as (w2 & w3 & Hall & Hclose & Hidx & _ & Hout).
  change (wrap_i64 (0 + headerSize)) with headerSize in *.
  destruct (records_from_lookup (algo w) cs i c 0 headerSize Hc)
    as (Hr & Hr'); [lia|unfold headerSize; lia| |lia|].
  { subst cs. rewrite chunks_concat by done. lia. }
  exists w2, w3. eexists _, _. split; [done|]. split; [done|].
  rewrite Hidx. split; [exact Hr|]. split; [exact Hr'|].
  cbn [rec_rawOff rec_zipOff].
  destruct (chunks_lookup maxChunkSize input i c maxChunkSize_pos Hc) as (Hce & Hpre).
  fold cs in Hpre. split; [exact Hce|]. rewrite Hpre.
  split; [lia|]. split.
  { rewrite (take_S_r _ _ c Hc), concat_app, length_app. simpl.
    rewrite app_nil_r. lia. }
  assert (HE : concat (map (encoded (algo w)) cs)
               = concat (map (encoded (algo w)) (take i cs))
                 ++ encoded (algo w) c
                 ++ concat (map (encoded (algo w)) (drop (S i) cs))).
  { rewrite <- (take_drop i cs) at 1. rewrite map_app, concat_app.
    by rewrite (drop_S _ _ _ Hc). }
  rewrite Hout, drop_app_length, HE.
  rewrite (take_S_r _ _ c Hc), map_app, concat_app, length_app. cbn [map concat].
  rewrite app_nil_r.
  replace (Z.to_nat (headerSize + Z.of_nat (length (concat (map (encoded (algo w)) (take i cs))))))
    with (length (makeHeader ty currentVersion)
          + length (concat (map (encoded (algo w)) (take i cs))))
    by (unfold headerSize in *; lia).
  rewrite <- drop_drop, drop_app_length, <- !app_assoc, drop_app_length.
  replace (Z.to_nat _) with (length (encoded (algo w) c)) by lia.
  by rewrite take_app_length.
Qed.

End WriterMore.

Lemma flushBuffer_chunkBuf w data : chunkBuf (flushBuffer w data).1 = chunkBuf w.
Proof.
  unfold flushBuffer. destruct (Z.of_nat (length data) <=? 0)%Z; [reflexivity|].
  simpl. destruct (Encode (algo w) data) as [enc|e|]; [|reflexivity..].
  destruct (sink_Write (rawW w) enc) as [s [n [e|]]]; reflexivity.
Qed.

Section WriterLoops.

Variable maxChunkSize : nat.
Variable currentVersion : Z.
Variable makeHeader : Z → Z → bytes.
Hypothesis maxChunkSize_pos : 0 < maxChunkSize.

Abbreviation writeHeaderIfNeeded := (Compress.writeHeaderIfNeeded currentVersion makeHeader).
Abbreviation ReadFrom_loop := (Compress.ReadFrom_loop maxChunkSize).
Abbreviation ReadFrom := (Compress.ReadFrom maxChunkSize currentVersion makeHeader).
Abbreviation Write_loop := (Compress.Write_loop maxChunkSize).
Abbreviation Write := (Compress.Write maxChunkSize currentVersion makeHeader).

Lemma writeHeaderIfNeeded_Ok w w' :
  writeHeaderIfNeeded w = (w', Ok tt) →
  headerWritten w' = true ∧ chunkBuf w' = chunkBuf w.
Proof.
  unfold Compress.writeHeaderIfNeeded.
  destruct (headerWritten w) eqn:Hh; [by intros [= <-]|].
  destruct (sink_Write _ _) as [s [n [e|]]]; [done|]. by intros [= <-].
Qed.

Lemma writeHeaderIfNeeded_chunkBuf w :
  chunkBuf (writeHeaderIfNeeded w).1 = chunkBuf w.
Proof.
  unfold Compress.writeHeaderIfNeeded.
  destruct (headerWritten w); [done|].
  by destruct (sink_Write _ _) as [s [n [e|]]].
Qed.

(** The loop of [Write] ends within the bytes at hand, and when it ends
    well the buffer holds less than a chunk. *)
Lemma Write_loop_total n :
  ∀ w p fuel, length p + length (chunkBuf w) ≤ n → n < fuel →
    ∃ w' res, Write_loop fuel w p = Some (w', res)
              ∧ headerWritten w' = headerWritten w
              ∧ (res = Ok tt → length (chunkBuf w') < maxChunkSize).
Proof using Type*.
  induction n as [n IH] using lt_wf_ind. intros w p fuel Hn Hf.
  destruct fuel as [|fuel]; [lia|].
  cbn [Compress.Write_loop].
  set (k := Nat.min (length p) maxChunkSize).
  set (b := chunkBuf w ++ take k p).
  change (chunkBuf (set_chunkBuf w b)) with b.
  assert (Hb : length b = length (chunkBuf w) + k).
  { subst b k. rewrite length_app, length_take. lia. }
  destruct (length b <? maxChunkSize) eqn:Hlt.
  - apply Nat.ltb_lt in Hlt. eexists _, _. split; [reflexivity|]. done.
  - apply Nat.ltb_ge in Hlt.
    rewrite set_chunkBuf_twice, flushBuffer_set_chunkBuf.
    pose proof (flushBuffer_headerWritten w (take maxChunkSize b)) as Hh.
    destruct (flushBuffer w (take maxChunkSize b)) as [w1 [[]|e|]]; cbn [fst snd] in *.
    + destruct (IH (n - maxChunkSize) ltac:(lia)
                  (set_chunkBuf w1 (drop maxChunkSize b)) (drop k p) fuel)
        as (w' & res & Hl & Hh' & Hinv).
      { cbn [chunkBuf set_chunkBuf]. rewrite !length_drop. subst k. lia. }
      { lia. }
      exists w', res. split; [done|]. split; [|done].
      rewrite Hh'. cbn [set_chunkBuf headerWritten]. done.
    + eexists _, _. split; [reflexivity|]. done.
    + eexists _, _. split; [reflexivity|]. done.
Qed.

(** X19. [Write] returns on every writer and every input. On success it reports
    the length of the input, the header is out and the buffer holds less
    than a chunk; on failure it reports zero bytes. *)
Theorem Write_returns w p :
  ∃ w' n res,
    Write w p = Some (w', (n, res))
    ∧ (res = Ok tt →
       n = Z.of_nat (length p)
       ∧ headerWritten w' = true
       ∧ length (chunkBuf w') < maxChunkSize)
    ∧ (res ≠ Ok tt → n = 0%Z).
Proof using Type*.
  unfold Compress.Write.
  destruct (writeHeaderIfNeeded w) as [wh [[]|e|]] eqn:Eh.
  - destruct (writeHeaderIfNeeded_Ok w wh Eh) as [Hh Hb].
    destruct (Write_loop_total (length p + length (chunkBuf wh)) wh p
                (S (length p + length (chunkBuf wh))) ltac:(lia) ltac:(lia))
      as (w' & res & -> & Hh' & Hinv).
    destruct res as [[]|e|].
    + eexists _, _, _. split; [reflexivity|]. split; [|done].
      intros _. split; [done|]. split; [congruence|]. by apply Hinv.
    + eexists _, _, _. split; [reflexivity|]. done.
    + eexists _, _, _. split; [reflexivity|]. done.
  - eexists _, _, _. split; [reflexivity|]. done.
  - eexists _, _, _. split; [reflexivity|]. done.
Qed.

(** The loop of [ReadFrom] ends within the script of the reader, and leaves
    the chunk buffer as it was. *)
Lemma ReadFrom_loop_total n :
  ∀ w r read fuel, reader_size r ≤ n → n < fuel →
    ∃ w' r' cnt res, ReadFrom_loop fuel w r read = Some (w', r', (cnt, res))
                     ∧ chunkBuf w' = chunkBuf w.
Proof using Type*.
  induction n as [n IH] using lt_wf_ind. intros w r read fuel Hn Hf.
  destruct fuel as [|fuel]; [lia|].
  cbn [Compress.ReadFrom_loop].
  destruct (reader_Read r maxChunkSize) as [r1 [buf rerr]] eqn:Er.
  pose proof (flushBuffer_chunkBuf w buf) as Hcb.
  assert (Hr1 : rerr = None → reader_size r1 < reader_size r).
  { intros ->. unfold reader_Read in Er. destruct r as [|[d e] rest]; [done|].
    destruct (length d <=? maxChunkSize) eqn:Hle.
    - injection Er as <- <- _. unfold reader_size. simpl. lia.
    - apply Nat.leb_gt in Hle. injection Er as <- <-.
      unfold reader_size. simpl. rewrite length_drop. lia. }
  destruct rerr as [e|].
  - destruct (is_EOF e); [|by eexists _, _, _, _].
    destruct (flushBuffer w buf) as [w1 [[]|we|]]; cbn [fst] in Hcb;
      [|destruct (is_EOF we)|]; by eexists _, _, _, _.
  - destruct (flushBuffer w buf) as [w1 [[]|we|]]; cbn [fst] in Hcb;
      [|destruct (is_EOF we); by eexists _, _, _, _|by eexists _, _, _, _].
    specialize (Hr1 eq_refl).
    destruct (IH (reader_size r1) ltac:(lia) w1 r1
                 (wrap_i64 (read + Z.of_nat (length buf))) fuel ltac:(lia) ltac:(lia))
      as (w' & r' & cnt & res & -> & Hcb').
    eexists _, _, _, _. split; [reflexivity|]. congruence.
Qed.

(** X20. [ReadFrom] returns on every writer and every reader, and never touches
    the chunk buffer: what an earlier [Write] has buffered stays behind
    the data that [ReadFrom] puts out. *)
Theorem ReadFrom_keeps_chunkBuf w r :
  ∃ w' r' n res,
    ReadFrom w r = Some (w', r', (n, res)) ∧ chunkBuf w' = chunkBuf w.
Proof using Type*.
  unfold Compress.ReadFrom.
  pose proof (writeHeaderIfNeeded_chunkBuf w) as Hb.
  destruct (writeHeaderIfNeeded w) as [wh [[]|e|]]; cbn [fst] in Hb.
  - destruct (ReadFrom_loop_total (reader_size r) wh r 0%Z (reader_fuel r)
                ltac:(lia) ltac:(unfold reader_fuel, reader_size; lia))
      as (w' & r' & cnt & res & -> & Hcb).
    eexists _, _, _, _. split; [reflexivity|]. congruence.
  - by eexists _, _, _, _.
  - by eexists _, _, _, _.
Qed.

End WriterLoops.

Lemma sink_Write_out s p : ∃ rest, sink_out (sink_Write s p).1 = sink_out s ++ rest.
Proof.
  unfold sink_Write. destruct (sink_room s) as [room|]; [|by eexists].
  destruct (length p <=? room); by eexists.
Qed.

(** The end of [Close] only appends to the output. *)
Lemma Close_finish_out w :
  ∃ rest, sink_out (rawW (Close_finish w).1) = sink_out (rawW w) ++ rest.
Proof.
  unfold Close_finish.
  destruct (marshal_index _ _) as [indexBuf|e|];
    [|exists []; by rewrite app_nil_r..].
  cbn [addRecordToIndex set_indexSize rawW].
  destruct (sink_Write_out (rawW w) indexBuf) as [rest1 H1].
  destruct (sink_Write (rawW w) indexBuf) as [s [n [e|]]]; cbn [fst] in H1;
    [by exists rest1|].
  cbn [set_rawW rawW w_trailer].
  destruct (negb _); [by exists rest1|].
  match goal with |- context [sink_Write s ?t] =>
    destruct (sink_Write_out s t) as [rest2 H2];
    destruct (sink_Write s t) as [s' [n' [e|]]] end;
  cbn [fst] in H2; cbn [fst set_rawW rawW]; exists (rest1 ++ rest2);
  by rewrite H2, H1, app_assoc.
Qed.

Section Mixing.

Variable maxChunkSize : nat.
Variable currentVersion : Z.
Variable makeHeader : Z → Z → bytes.

Abbreviation ReadFrom := (Compress.ReadFrom maxChunkSize currentVersion makeHeader).
Abbreviation Close := (Compress.Close currentVersion makeHeader).

(** X21. [ReadFrom] overtakes the buffer. On a writer that holds bytes buffered
    by an earlier [Write], [ReadFrom] puts the chunk it reads out at once;
    the buffered bytes, written first, follow only at [Close]. *)
Theorem ReadFrom_overtakes_buffer w q :
  reliable w → headerWritten w = true →
  chunkBuf w ≠ [] → q ≠ [] → length q ≤ maxChunkSize →
  ∃ w1 r' n w2 res rest,
    ReadFrom w [(q, Some EOF)] = Some (w1, r', (n, Ok tt))
    ∧ Close w1 = (w2, res)
    ∧ sink_out (rawW w2)
      = sink_out (rawW w) ++ encoded (algo w) q
        ++ encoded (algo w) (chunkBuf w) ++ rest.
Proof.
  intros Hrel Hh Hb Hq Hlen.
  unfold Compress.ReadFrom, Compress.writeHeaderIfNeeded. rewrite Hh.
  cbn [reader_fuel Compress.ReadFrom_loop reader_Read].
  rewrite (proj2 (Nat.leb_le _ _) Hlen). cbn [is_EOF].
  rewrite (flushBuffer_chunk w q Hrel Hq).
  set (w1 := mkWriter _ _ _ _ _ _ _ _ _).
  assert (Hrel1 : reliable w1) by (split; [reflexivity|apply Hrel]).
  assert (HC : ∃ w3 res rest, Close w1 = (w3, res)
            ∧ sink_out (rawW w3)
              = sink_out (rawW w) ++ encoded (algo w) q
                ++ encoded (algo w) (chunkBuf w) ++ rest).
  { rewrite Close_eq. unfold Compress.writeHeaderIfNeeded.
    change (headerWritten w1) with (headerWritten w). rewrite Hh.
    change (chunkBuf w1) with (chunkBuf w).
    rewrite (flushBuffer_chunk w1 (chunkBuf w) Hrel1 Hb).
    set (w2 := mkWriter _ _ _ _ _ _ _ _ _).
    destruct (Close_finish_out w2) as [rest Hout].
    destruct (Close_finish w2) as [w3 res]. cbn [fst] in Hout.
    exists w3, res, rest. split; [reflexivity|].
    rewrite Hout. subst w2 w1. cbn [rawW sink_out algo]. by rewrite <- !app_assoc. }
  destruct HC as (w3 & res & rest & HC & Hout).
  eexists w1, _, _, w3, res, rest. split; [reflexivity|]. done.
Qed.

End Mixing.

(** * The further properties on the instances *)

Lemma loadNode_committed_first_witness :
  Fixture.loadNode Fixture.kv_staged (Hash Fixture.commit_0) = Ok Fixture.commit_0.
Proof.
  unfold Fixture.loadNode.
  rewrite (loadNode_committed_first Fixture.B58String Node
             (Fixture.proto_Unmarshal Fixture.known_nodes) Fixture.wire_GetType
             1 2 3 Fixture.FromProto Fixture.kv_staged (Hash Fixture.commit_0));
    [vm_compute; reflexivity|repeat split].
Defined.

Lemma NodeByHash_cached_witness :
  let fs' := (Fixture.NodeByHash (NewFilesystem Fixture.kv_staged)
                (Hash Fixture.file_x)).1 in
  Fixture.NodeByHash (set_kv fs' empty_kv) (Hash Fixture.file_x)
  = (set_kv fs' empty_kv, Ok Fixture.file_x).
Proof.
  intros fs'.
  apply (NodeByHash_cached Fixture.B58String Node
           (Fixture.proto_Unmarshal Fixture.known_nodes) Fixture.wire_GetType
           1 2 3 Fixture.FromProto (NewFilesystem Fixture.kv_staged)
           (Hash Fixture.file_x) fs' Fixture.file_x).
  vm_compute. reflexivity.
Defined.

Lemma NodeByHash_unknown_witness :
  Fixture.NodeByHash (NewFilesystem Fixture.kv_staged) (Hash Fixture.commit_1)
  = (NewFilesystem Fixture.kv_staged,
     Err (ErrNoHashFound (Fixture.B58String (Hash Fixture.commit_1))
                         "objects and stage/objects")).
Proof.
  apply (NodeByHash_unknown Fixture.B58String Node
           (Fixture.proto_Unmarshal Fixture.known_nodes) Fixture.wire_GetType
           1 2 3 Fixture.FromProto (NewFilesystem Fixture.kv_staged));
    [repeat split|vm_compute; reflexivity..].
Defined.

Lemma typed_accessors_witness :
  let fs := NewFilesystem Fixture.kv_staged in
  let fs' := (Fixture.NodeByHash fs (Hash Fixture.file_x)).1 in
  Fixture.FileByHash fs (Hash Fixture.file_x) = (fs', Ok Fixture.file_x)
  ∧ Fixture.DirectoryByHash fs (Hash Fixture.file_x) = (fs', Err ErrBadNode)
  ∧ Fixture.CommitByHash fs (Hash Fixture.file_x) = (fs', Err ErrBadNode).
Proof.
  intros fs fs'.
  destruct (typed_accessors Fixture.B58String Node
              (Fixture.proto_Unmarshal Fixture.known_nodes) Fixture.wire_GetType
              1 2 3 Fixture.FromProto fs (Hash Fixture.file_x) fs' Fixture.file_x)
    as (Hf & Hd & Hc & _); [vm_compute; reflexivity|].
  split; [exact Hf|]. split; [exact Hd|exact Hc].
Defined.

Lemma SaveRef_ResolveRef_witness :
  let fs := NewFilesystem Fixture.kv_staged in
  let kv' := (SaveRef Fixture.kv_staged "Main" Fixture.commit_0).1 in
  Fixture.ResolveRef (set_kv fs kv') "MAIN"
  = Fixture.NodeByHash (set_kv fs kv') (Hash Fixture.commit_0).
Proof.
  intros fs kv'.
  apply (SaveRef_ResolveRef Fixture.B58String Fixture.multihash_Cast Node
           (Fixture.proto_Unmarshal Fixture.known_nodes) Fixture.wire_GetType
           1 2 3 Fixture.FromProto fs "Main" Fixture.commit_0 kv' "MAIN");
    [repeat constructor..|vm_compute; reflexivity|reflexivity|reflexivity].
Defined.

Lemma SubmitCommit_failure_keeps_store_witness :
  let out := Fixture.SubmitCommit (NewFilesystem Fixture.kv_staged) Fixture.commit_0 in
  out.2 = Err ErrNoChange ∧ fs_kv out.1.1 = Fixture.kv_staged.
Proof.
  intros out. split; [vm_compute; reflexivity|].
  apply (SubmitCommit_failure_keeps_store Fixture.B58String Fixture.multihash_Cast Node
           (Fixture.proto_Unmarshal Fixture.known_nodes) Fixture.wire_GetType
           1 2 3 Fixture.FromProto (NewFilesystem Fixture.kv_staged) Fixture.commit_0
           out.1.1 out.1.2 (Err ErrNoChange));
    [vm_compute; reflexivity|discriminate].
Defined.

Lemma SubmitCommit_changeset_witness :
  let links := [mkCheckpointLink 7 1; mkCheckpointLink 7 2] in
  let out := Fixture.SubmitCommit (NewFilesystem Fixture.kv_staged_checkpoints)
               Fixture.commit_1 in
  staged_links Fixture.kv_staged_checkpoints = links
  ∧ out.2 = Ok tt
  ∧ out.1.2 = set_changeset Fixture.commit_1 (changeset Fixture.commit_1 ++ links).
Proof.
  intros links out.
  assert (Hl : staged_links Fixture.kv_staged_checkpoints = links)
    by (vm_compute; reflexivity).
  split; [exact Hl|]. split; [vm_compute; reflexivity|]. rewrite <- Hl.
  apply (SubmitCommit_changeset Fixture.B58String Fixture.multihash_Cast Node
           (Fixture.proto_Unmarshal Fixture.known_nodes) Fixture.wire_GetType
           1 2 3 Fixture.FromProto (NewFilesystem Fixture.kv_staged_checkpoints)
           Fixture.commit_1 out.1.1 out.1.2 (Ok tt));
    vm_compute; reflexivity.
Defined.

Lemma SubmitCommit_then_Head_witness :
  let fs' := Fixture.submitted.1.1 in
  let missing := ErrNoHashFound (Fixture.B58String (Hash Fixture.commit_1))
                                "objects and stage/objects" in
  Fixture.Head fs' = (fs', Err missing)
  ∧ ∀ cm2, Fixture.SubmitCommit fs' cm2 = ((fs', cm2), Err missing).
Proof.
  intros fs' missing.
  apply (SubmitCommit_then_Head Fixture.B58String Fixture.multihash_Cast Node
           (Fixture.proto_Unmarshal Fixture.known_nodes) Fixture.wire_GetType
           1 2 3 Fixture.FromProto (NewFilesystem Fixture.kv_staged) Fixture.commit_1
           fs' Fixture.submitted.1.2);
    [vm_compute; reflexivity|vm_compute; reflexivity|reflexivity|repeat split
    |vm_compute; reflexivity..].
Defined.

Lemma StageNode_then_resolve_witness :
  let fs' := Fixture.staged_x.1 in
  let fs2 := set_kv fs' empty_kv in
  Fixture.NodeByHash fs2 (Hash Fixture.file_x) = (fs2, Ok Fixture.file_x)
  ∧ Fixture.ResolveNode fs2 "/x.txt" = (fs2, Ok (Some Fixture.file_x))
  ∧ Fixture.ResolveFile fs2 "/x.txt" = (fs2, Ok (Some Fixture.file_x)).
Proof.
  intros fs' fs2.
  destruct (StageNode_then_resolve Fixture.B58String Node
              (Fixture.proto_Unmarshal Fixture.known_nodes) Fixture.wire_GetType
              1 2 3 Fixture.FromProto (NewFilesystem empty_kv) Fixture.file_x fs')
    with (a := Fixture.file_x) (kv := empty_kv) as (H1 & H2 & H3).
  - vm_compute. reflexivity.
  - apply (bool_decide_unpack _). vm_compute. reflexivity.
  - apply (bool_decide_unpack _). vm_compute. reflexivity.
  - apply list_elem_of_here.
  - split; [exact H1|]. split; [exact H2|]. apply H3. reflexivity.
Defined.

Lemma StageNode_then_loadNode_witness :
  let fs0 := (Fixture.StageNode (NewFilesystem empty_kv) Fixture.root_dir).1 in
  let fs' := (Fixture.StageNode fs0 Fixture.file_x).1 in
  bkt_data (fs_kv fs') stage_objects_bucket !! Fixture.B58String (Hash Fixture.file_x)
  = Some (list_byte_of_string "file:/x.txt")
  ∧ Fixture.loadNode (fs_kv fs') (Hash Fixture.file_x) = Ok Fixture.file_x.
Proof.
  intros fs0 fs'.
  apply (StageNode_then_loadNode Fixture.B58String Node
           (Fixture.proto_Unmarshal Fixture.known_nodes) Fixture.wire_GetType
           1 2 3 Fixture.FromProto fs0 Fixture.file_x fs' Fixture.file_x).
  - vm_compute. reflexivity.
  - apply (bool_decide_unpack _). vm_compute. reflexivity.
  - apply list_elem_of_here.
  - repeat split.
  - vm_compute. reflexivity.
  - vm_compute. reflexivity.
Defined.

Lemma Resolve_absent_is_nil_witness :
  let fs := NewFilesystem Fixture.kv_staged in
  Fixture.ResolveNode fs "/y.txt" = (fs, Ok None)
  ∧ Fixture.ResolveFile fs "/y.txt" = (fs, Ok None)
  ∧ Fixture.ResolveDirectory fs "/y.txt" = (fs, Ok None).
Proof.
  intros fs.
  apply (Resolve_absent_is_nil Fixture.B58String Node
           (Fixture.proto_Unmarshal Fixture.known_nodes) Fixture.wire_GetType
           1 2 3 Fixture.FromProto fs "/y.txt");
    repeat split; vm_compute; reflexivity.
Defined.

Lemma HistoryByPath_absent_panics_witness :
  Fixture.HistoryByPath (NewFilesystem Fixture.kv_staged) "/y.txt"
  = (NewFilesystem Fixture.kv_staged, Panic).
Proof.
  apply (HistoryByPath_absent_panics Fixture.B58String Node
           (Fixture.proto_Unmarshal Fixture.known_nodes) Fixture.wire_GetType
           1 2 3 Fixture.FromProto Fixture.ckp_Unmarshal Fixture.ID
           (NewFilesystem Fixture.kv_staged) "/y.txt");
    repeat split; vm_compute; reflexivity.
Defined.

Lemma StageCheckpoint_not_in_History_witness :
  let kv' := (Fixture.StageCheckpoint Fixture.kv_history (Fixture.ckp 7 4)).1 in
  Fixture.History kv' 7 = Fixture.History Fixture.kv_history 7
  ∧ Fixture.LastCheckpoint kv' 7 = Fixture.LastCheckpoint Fixture.kv_history 7.
Proof.
  intros kv'.
  apply (StageCheckpoint_not_in_History Fixture.ckp_ToProto Fixture.ckp_Marshal
           Fixture.ckp_Unmarshal Fixture.kv_history (Fixture.ckp 7 4) kv' (Ok tt)).
  vm_compute. reflexivity.
Defined.

Lemma Write_Close_layout_witness :
  let cs := [list_byte_of_string "abc"] in
  let idx := [mkRecord 0 8; mkRecord 3 11] in
  ∃ w2 w3,
    Write_all WriterFixture.maxChunkSize WriterFixture.currentVersion
      WriterFixture.makeHeader WriterFixture.fresh
      [list_byte_of_string "a"; list_byte_of_string "bc"] = Some (w2, Ok tt)
    ∧ WriterFixture.Close w2 = (w3, Ok tt)
    ∧ index w3 = idx
    ∧ sink_out (rawW w3)
      = WriterFixture.makeHeader 0 WriterFixture.currentVersion
        ++ list_byte_of_string "abc"
        ++ concat (map record_marshal idx)
        ++ trailer_marshal (mkTrailer 0 0 32).
Proof.
  intros cs idx.
  destruct (Write_Close_layout WriterFixture.maxChunkSize WriterFixture.currentVersion
              WriterFixture.makeHeader WriterFixture.AlgorithmFromType
              ltac:(unfold WriterFixture.maxChunkSize; lia)
              (mkSink [] None) 0 WriterFixture.fresh
              [list_byte_of_string "a"; list_byte_of_string "bc"])
    as (w2 & w3 & H1 & H2 & H3 & _ & H4).
  - reflexivity.
  - reflexivity.
  - intros data. by exists data.
  - vm_compute. reflexivity.
  - exists w2, w3. split; [exact H1|]. split; [exact H2|]. split; [exact H3|].
    exact H4.
Defined.

Lemma index_locates_chunks_witness :
  ∃ w2 w3 r r',
    Write_all WriterFixture.maxChunkSize WriterFixture.currentVersion
      WriterFixture.makeHeader WriterFixture.fresh
      [list_byte_of_string "a"; list_byte_of_string "bc"] = Some (w2, Ok tt)
    ∧ WriterFixture.Close w2 = (w3, Ok tt)
    ∧ index w3 !! 0 = Some r ∧ index w3 !! 1 = Some r'
    ∧ rec_rawOff r = 0%Z
    ∧ rec_rawOff r' = 3%Z
    ∧ take (Z.to_nat (rec_zipOff r' - rec_zipOff r))
           (drop (Z.to_nat (rec_zipOff r)) (sink_out (rawW w3)))
      = list_byte_of_string "abc".
Proof.
  destruct (index_locates_chunks WriterFixture.maxChunkSize WriterFixture.currentVersion
              WriterFixture.makeHeader WriterFixture.AlgorithmFromType
              ltac:(unfold WriterFixture.maxChunkSize; lia)
              (mkSink [] None) 0 WriterFixture.fresh
              [list_byte_of_string "a"; list_byte_of_string "bc"] 0
              (list_byte_of_string "abc"))
    as (w2 & w3 & r & r' & H1 & H2 & H3 & H4 & _ & H5 & H6 & H7).
  - reflexivity.
  - reflexivity.
  - intros data. by exists data.
  - reflexivity.
  - vm_compute. reflexivity.
  - vm_compute. reflexivity.
  - vm_compute. reflexivity.
  - vm_compute. reflexivity.
  - exists w2, w3, r, r'. split; [exact H1|]. split; [exact H2|].
    split; [exact H3|]. split; [exact H4|]. split; [exact H5|].
    split; [rewrite H6, H5; reflexivity|exact H7].
Defined.

Lemma Write_returns_witness :
  ∃ w' n res,
    WriterFixture.Write WriterFixture.fresh (list_byte_of_string "abc")
    = Some (w', (n, res))
    ∧ (res = Ok tt →
       n = 3%Z ∧ headerWritten w' = true
       ∧ length (chunkBuf w') < WriterFixture.maxChunkSize)
    ∧ (res ≠ Ok tt → n = 0%Z).
Proof.
  apply (Write_returns WriterFixture.maxChunkSize WriterFixture.currentVersion
           WriterFixture.makeHeader
           ltac:(unfold WriterFixture.maxChunkSize; lia)
           WriterFixture.fresh (list_byte_of_string "abc")).
Defined.

Lemma ReadFrom_keeps_chunkBuf_witness :
  let w := set_chunkBuf WriterFixture.fresh (list_byte_of_string "ab") in
  ∃ w' r' n res,
    WriterFixture.ReadFrom w [(list_byte_of_string "cd", None)]
    = Some (w', r', (n, res))
    ∧ chunkBuf w' = list_byte_of_string "ab".
Proof.
  intros w.
  apply (ReadFrom_keeps_chunkBuf WriterFixture.maxChunkSize WriterFixture.currentVersion
           WriterFixture.makeHeader
           ltac:(unfold WriterFixture.maxChunkSize; lia)
           w [(list_byte_of_string "cd", None)]).
Defined.

Lemma ReadFrom_overtakes_buffer_witness :
  let hdr := WriterFixture.makeHeader 0 WriterFixture.currentVersion in
  let w := mkWriter (mkSink hdr None) (list_byte_of_string "ab") [] 0 8
                    (mkTrailer 0 0 0) WriterFixture.AlgoNone 0 true in
  ∃ w1 r' n w2 res rest,
    WriterFixture.ReadFrom w [(list_byte_of_string "cd", Some EOF)]
    = Some (w1, r', (n, Ok tt))
    ∧ WriterFixture.Close w1 = (w2, res)
    ∧ sink_out (rawW w2)
      = hdr ++ list_byte_of_string "cd" ++ list_byte_of_string "ab" ++ rest.
Proof.
  intros hdr w.
  apply (ReadFrom_overtakes_buffer WriterFixture.maxChunkSize
           WriterFixture.currentVersion WriterFixture.makeHeader w
           (list_byte_of_string "cd")).
  - split; [reflexivity|]. intros data. by exists data.
  - reflexivity.
  - discriminate.
  - discriminate.
  - apply Nat.leb_le. vm_compute. reflexivity.
Defined.
